(** * shar: SSH auth-log report -- a shallow embedding and its properties

    The development follows the two Go source files of the repository:
    [entry.go] (the data model, [addUser], [exists], [print]) and the main
    file (flags, [main], [applyDateFilter], [applyEntryFilters]).

    Conventions.
    - A Go [int] is a 64-bit two's-complement integer, modelled as a [Z]
      with its wrap-around written out ([GoInt.wrap]).
    - A Go [string] is a [string]; [==] on strings is [String.eqb].
    - A slice is a [list]; an indexed write [s[i] = v] is stdpp's
      [<[i:=v]> s], an indexed read is [s !! i], and the run-time panic
      of Go on an index out of range is written out.
    - Effects (standard output, the log, network requests, panics) are
      threaded through a small state-and-result monad [M]. *)

From Stdlib Require Import ZArith String Ascii List Lia Bool.
From Stdlib Require Import Floats.PrimFloat.
From stdpp Require Import base list strings pretty.

Import ListNotations.
Local Open Scope Z_scope.
Local Open Scope string_scope.
Local Open Scope list_scope.

(** ** Go's [int] *)

Module GoInt.

Definition bits : Z := 64.
Definition min_int : Z := - 2 ^ (bits - 1).
Definition max_int : Z := 2 ^ (bits - 1) - 1.

(** Two's-complement wrap-around of a mathematical integer. *)
Definition wrap (z : Z) : Z := (z + 2 ^ (bits - 1)) mod 2 ^ bits - 2 ^ (bits - 1).

(** [c++] *)
Definition incr (c : Z) : Z := wrap (c + 1).

Definition in_range (z : Z) : Prop := min_int <= z <= max_int.

End GoInt.

(** ** Data model ([entry.go]) *)

(** The five geolocation fields of an entry.  [entry.go] declares them
    inline in [authEntry]; the main file reads and writes them as one
    value, [ae.Location], so they are grouped in one record here. *)
Record location : Type := mkLocation {
  Country : string;
  Region : string;
  City : string;
  Lat : float;
  Long : float
}.

(** The zero value of [location]: empty strings and [0.0]. *)
Definition zeroLocation : location :=
  {| Country := ""; Region := ""; City := ""; Lat := PrimFloat.zero; Long := PrimFloat.zero |}.

(** tracks the login attempts (per-IP, single day) *)
Record authEntry : Type := mkAuthEntry {
  IP : string;
  Location : location;
  Count : Z;
  Users : list string
}.

(** associates authEntry lists with a particular date *)
Record datedAuthEntries : Type := mkDated {
  Date : string;
  Entries : list authEntry
}.

(** slice for containing all dated entries *)
Abbreviation allEntries := (list datedAuthEntries).

Definition withEntries (dae : datedAuthEntries) (es : list authEntry) : datedAuthEntries :=
  {| Date := Date dae; Entries := es |}.

Definition withLocation (ae : authEntry) (l : location) : authEntry :=
  {| IP := IP ae; Location := l; Count := Count ae; Users := Users ae |}.

(** ** [entry.go]: [addUser] and [exists] *)

(** The [for _, un := range ae.Users] loop of [addUser]: is [user] one of
    the names? *)
Fixpoint hasUser (users : list string) (user : string) : bool :=
  match users with
  | [] => false
  | un :: rest => if String.eqb un user then true else hasUser rest user
  end.

(** [func (ae *authEntry) addUser(user string)]: the count is incremented
    first, then the name is appended unless the loop returned early. *)
Definition addUser (ae : authEntry) (user : string) : authEntry :=
  let count := GoInt.incr (Count ae) in
  if hasUser (Users ae) user
  then {| IP := IP ae; Location := Location ae; Count := count; Users := Users ae |}
  else {| IP := IP ae; Location := Location ae; Count := count; Users := Users ae ++ [user] |}.

(** [func (dae *datedAuthEntries) exists(ip string) (int, bool)], written
    over the entries from index [idx] on. *)
Fixpoint existsFrom (idx : nat) (entries : list authEntry) (ip : string) : nat * bool :=
  match entries with
  | [] => (0%nat, false)
  | ae :: rest => if String.eqb (IP ae) ip then (idx, true) else existsFrom (S idx) rest ip
  end.

Definition exists_ (dae : datedAuthEntries) (ip : string) : nat * bool :=
  existsFrom 0 (Entries dae) ip.

(** A sequence of [addUser] calls on one entry. *)
Definition addUsers (ae : authEntry) (users : list string) : authEntry :=
  fold_left addUser users ae.

(** ** Flags: the package-level variables of the main file

    [flag.Parse] sets them once, before anything else runs; every function
    that reads them takes the record as an argument. *)
Record flags : Type := mkFlags {
  debugOn : bool;
  filename : string;
  jsonOut : bool;
  threshold : Z;
  address : string;
  user : string;
  locale : string;
  date : string
}.

(** The defaults registered in [init]. *)
Definition defaultFlags : flags :=
  {| debugOn := false; filename := "/var/log/auth.log"; jsonOut := false;
     threshold := 0; address := ""; user := ""; locale := ""; date := "" |}.

(** ** The world outside the program

    Libraries and services the program calls but does not define: the file
    system, the HTTP geolocation service, Go's [regexp], [fmt] and
    [encoding/json] packages, and the line pattern of the parser. *)

(** What the line pattern extracts from a recognized attempt line. *)
Record attempt : Type := mkAttempt {
  attemptDate : string;
  attemptIP : string;
  attemptUser : string
}.

Class Env : Type := {
  (** [os.Open] followed by reading the lines: the lines, or the error. *)
  openFile : string -> list string + string;
  (** The parser's line pattern: the fields of an attempt line, if it is one. *)
  matchLine : string -> option attempt;
  (** The reply of the geolocation service to the [n]-th request of the
      run, made for [ip]: a location, or the error of a failed lookup. *)
  network : nat -> string -> location + string;
  (** [regexp]: compiled patterns, compilation (or its error), matching. *)
  Regexp : Type;
  regexpCompile : string -> Regexp + string;
  MatchString : Regexp -> string -> bool;
  (** [fmt]'s [%f] verb. *)
  formatFloat : float -> string;
  (** [json.MarshalIndent(ae, "", "    ")] as a string. *)
  marshalIndent : allEntries -> string
}.

(** ** Effects *)

Inductive colorAttr : Type := FgGreen | FgBlue | FgYellow | Bold.

(** An argument of a [log.Printf] call. *)
Inductive value : Type :=
| VString (s : string)
| VEntries (a : allEntries).

Inductive event : Type :=
| ColorSet (attrs : list colorAttr)       (* color.Set(...) *)
| ColorUnset                              (* color.Unset() *)
| Stdout (text : string)                  (* fmt.Print, fmt.Println, fmt.Printf *)
| LogPrintf (format : string) (args : list value)   (* log.Printf *)
| LogFatal (err : string)                 (* the message of log.Fatal *)
| Request (baseURL ip : string)           (* one HTTP lookup *)
| SpinnerStart
| SpinnerStop.

(** The state of a run: [heap] is the backing array of the slice that
    [main] holds in [attempts] and passes to [applyEntryFilters], which
    writes it in place; [requests] counts the HTTP lookups made so far;
    [compiles] counts the calls of [regexp.MustCompile]; [trace] lists
    the events in the order they happened. *)
Record state : Type := mkState {
  heap : allEntries;
  requests : nat;
  compiles : nat;
  trace : list event
}.

Definition initialState : state :=
  {| heap := []; requests := 0; compiles := 0; trace := [] |}.

(** How a computation ends: it returns, it panics, or it exits the
    process ([log.Fatal]). *)
Inductive result (A : Type) : Type :=
| Returned (a : A)
| Panicked (msg : string)
| Exited (code : Z).
Arguments Returned {A} a.
Arguments Panicked {A} msg.
Arguments Exited {A} code.

Definition M (A : Type) : Type := state -> result A * state.

Definition ret {A} (a : A) : M A := fun st => (Returned a, st).

Definition bind {A B} (m : M A) (k : A -> M B) : M B :=
  fun st =>
    match m st with
    | (Returned a, st') => k a st'
    | (Panicked msg, st') => (Panicked msg, st')
    | (Exited code, st') => (Exited code, st')
    end.

Notation "x <- m ;; k" := (bind m (fun x => k))
  (at level 100, m at next level, right associativity).
Notation "m ;; k" := (bind m (fun _ => k))
  (at level 100, right associativity).

Definition panic {A} (msg : string) : M A := fun st => (Panicked msg, st).

Definition emit (e : event) : M unit :=
  fun st => (Returned tt,
             {| heap := heap st; requests := requests st; compiles := compiles st;
                trace := trace st ++ [e] |}).

(** [len(dae)] *)
Definition len : M nat := fun st => (Returned (length (heap st)), st).

(** Reading [dae[idx]]; Go panics when [idx] is out of range. *)
Definition index (idx : nat) : M datedAuthEntries :=
  fun st =>
    match heap st !! idx with
    | Some d => (Returned d, st)
    | None => (Panicked "runtime error: index out of range", st)
    end.

(** The assignment [dae[idx].Entries = es]. *)
Definition setEntries (idx : nat) (es : list authEntry) : M unit :=
  fun st =>
    match heap st !! idx with
    | Some d => (Returned tt,
                 {| heap := <[idx := withEntries d es]> (heap st);
                    requests := requests st; compiles := compiles st;
                    trace := trace st |})
    | None => (Panicked "runtime error: index out of range", st)
    end.

(** Binding the slice variable to a (new) backing array, and reading it. *)
Definition setHeap (a : allEntries) : M unit :=
  fun st => (Returned tt,
             {| heap := a; requests := requests st; compiles := compiles st;
                trace := trace st |}).

Definition getHeap : M allEntries := fun st => (Returned (heap st), st).

(** A [for _, x := range l] loop. *)
Fixpoint forEach {A} (l : list A) (body : A -> M unit) : M unit :=
  match l with
  | [] => ret tt
  | x :: rest => body x ;; forEach rest body
  end.

(** A [for idx := range s] loop over a slice of length [n]. *)
Definition forRange (n : nat) (body : nat -> M unit) : M unit :=
  forEach (seq 0 n) body.

Definition when (b : bool) (m : M unit) : M unit := if b then m else ret tt.

Definition nonEmpty (s : string) : bool := negb (String.eqb s "").

(** The newline character. *)
Definition nl : string := String (ascii_of_nat 10) EmptyString.

(** [strings.Join(elems, sep)] *)
Fixpoint join (elems : list string) (sep : string) : string :=
  match elems with
  | [] => ""
  | [e] => e
  | e :: rest => e ++ sep ++ join rest sep
  end.

(** ** The program *)

Section Program.

Context {E : Env}.
Variable fl : flags.

(** *** [entry.go]: rendering *)

(** [fmt.Sprintf("%s, %s, %s (%f, %f)", City, Region, Country, Lat, Long)] *)
Definition composeLocationString (l : location) : string :=
  City l ++ ", " ++ Region l ++ ", " ++ Country l
    ++ " (" ++ formatFloat (Lat l) ++ ", " ++ formatFloat (Long l) ++ ")".

(** The body of the inner loop of [print] for one entry. *)
Definition printEntry (ae : authEntry) : M unit :=
  when (Count ae >=? threshold fl) (
    emit (ColorSet [FgBlue; Bold]) ;;
    emit (Stdout ("IP: " ++ IP ae ++ nl)) ;;
    emit ColorUnset ;;
    emit (ColorSet [FgYellow]) ;;
    emit (Stdout "Location: ") ;;
    emit ColorUnset ;;
    emit (Stdout (composeLocationString (Location ae) ++ nl)) ;;
    emit (ColorSet [FgYellow]) ;;
    emit (Stdout "Attempts: ") ;;
    emit ColorUnset ;;
    emit (Stdout (pretty (Count ae) ++ nl)) ;;
    emit (ColorSet [FgYellow]) ;;
    emit (Stdout "Usernames: ") ;;
    emit ColorUnset ;;
    emit (Stdout (join (Users ae) ", " ++ nl))).

(** [func (ae allEntries) print()] *)
Definition print (ae : allEntries) : M unit :=
  forEach ae (fun dae =>
    emit (ColorSet [FgGreen; Bold]) ;;
    emit (Stdout ("Date: " ++ Date dae ++ nl)) ;;
    emit ColorUnset ;;
    forEach (Entries dae) printEntry ;;
    emit (Stdout nl)).

(** [func (ae allEntries) jsonPrint()]; the main file calls it [printJSON]. *)
Definition jsonPrint (ae : allEntries) : M unit :=
  emit (Stdout (marshalIndent ae ++ nl)).

(** *** Helpers of the main file that the source files do not include *)

(** Modelled from the spec: [filter(predicate)] of a bucket, which is not
    among the source files: "returns the subsequence of a bucket's entries
    satisfying predicate, preserving order; does not mutate until the
    pipeline assigns the result back".  The predicate is a Go closure, so
    it is run on every entry in order and may have effects. *)
Fixpoint filterEntries (entries : list authEntry) (predicate : authEntry -> M bool)
  : M (list authEntry) :=
  match entries with
  | [] => ret []
  | ae :: rest =>
      keep <- predicate ae ;;
      kept <- filterEntries rest predicate ;;
      ret (if keep then ae :: kept else kept)
  end.

Definition filter (dae : datedAuthEntries) (predicate : authEntry -> M bool)
  : M (list authEntry) :=
  filterEntries (Entries dae) predicate.

(** Modelled from the spec: [apply(fn)] of a bucket (the spec's
    [transform]), which is not among the source files: "returns a
    same-length, same-order sequence where each entry has been replaced by
    [fn(entry)]". *)
Fixpoint applyEntries (entries : list authEntry) (fn : authEntry -> M authEntry)
  : M (list authEntry) :=
  match entries with
  | [] => ret []
  | ae :: rest =>
      ae' <- fn ae ;;
      rest' <- applyEntries rest fn ;;
      ret (ae' :: rest')
  end.

Definition apply (dae : datedAuthEntries) (fn : authEntry -> M authEntry)
  : M (list authEntry) :=
  applyEntries (Entries dae) fn.

(** The geolocation client; it only remembers the base URL. *)
Record ipAPIClient : Type := mkClient { baseURL : string }.

Definition newIPAPIClient (url : string) : ipAPIClient := {| baseURL := url |}.

(** Modelled from the spec: [locateIP] of the geolocation client, which is
    not among the source files: "performs a single synchronous network
    request", "maps a successful response body to the Location record;
    returns an error on transport failure, non-success status, or
    malformed response", the failure being "converted to ... a zero-value
    result".  No caching: every call is a fresh request. *)
Definition locateIP (iac : ipAPIClient) (ip : string) : M (location * option string) :=
  fun st =>
    let reply := network (requests st) ip in
    (Returned match reply with
              | inl l => (l, None)
              | inr err => (zeroLocation, Some err)
              end,
     {| heap := heap st; requests := S (requests st); compiles := compiles st;
        trace := trace st ++ [Request (baseURL iac) ip] |}).

(** [regexp.MustCompile]: panics when the pattern does not compile. *)
Definition MustCompile (pattern : string) : M Regexp :=
  fun st =>
    let st' := {| heap := heap st; requests := requests st;
                  compiles := S (compiles st); trace := trace st |} in
    match regexpCompile pattern with
    | inl rx => (Returned rx, st')
    | inr err => (Panicked ("regexp: Compile(`" ++ pattern ++ "`): " ++ err), st')
    end.

(** *** The main file *)

(** print debug output if the flag is passed in *)
Definition debug (format : string) (args : list value) : M unit :=
  when (debugOn fl) (emit (LogPrintf format args)).

(** [log.Fatal(err)]: the message, then [os.Exit(1)]. *)
Definition logFatal {A} (err : string) : M A :=
  fun st => (Exited 1,
             {| heap := heap st; requests := requests st; compiles := compiles st;
                trace := trace st ++ [LogFatal err] |}).

(** filters the output down to the specified date.  The result is a Go
    slice that is either [nil] ([None]) or a fresh one-element slice. *)
Fixpoint applyDateFilter (dae : list datedAuthEntries) : option (list datedAuthEntries) :=
  match dae with
  | [] => None
  | day :: rest =>
      if String.eqb (Date day) (date fl) then Some ([] ++ [day])
      else applyDateFilter rest
  end.

(** The predicates of the three entry filters. *)
Definition countPredicate (ae : authEntry) : bool := Count ae >=? threshold fl.
Definition addressPredicate (ae : authEntry) : bool := String.eqb (IP ae) (address fl).
Definition userPredicate (ae : authEntry) : bool := hasUser (Users ae) (user fl).

(** count filter *)
Definition countFilter (idx : nat) : M unit :=
  when (threshold fl >? 0) (
    d <- index idx ;;
    filtered <- filter d (fun ae => ret (countPredicate ae)) ;;
    setEntries idx filtered).

(** IP address filter *)
Definition addressFilter (idx : nat) : M unit :=
  when (nonEmpty (address fl)) (
    d <- index idx ;;
    filtered <- filter d (fun ae => ret (addressPredicate ae)) ;;
    setEntries idx filtered).

(** username filter *)
Definition userFilter (idx : nat) : M unit :=
  when (nonEmpty (user fl)) (
    d <- index idx ;;
    filtered <- filter d (fun ae => ret (userPredicate ae)) ;;
    setEntries idx filtered).

(** The closure given to [apply]: one lookup per entry; an error is
    logged and the entry is returned with whatever location came back. *)
Definition locateEntry (iac : ipAPIClient) (ae : authEntry) : M authEntry :=
  debug "making API request for IP '%s'" [VString (IP ae)] ;;
  r <- locateIP iac (IP ae) ;;
  (match snd r with
   | Some err =>
       emit (LogPrintf "error getting location data for IP '%s': %s"
               [VString (IP ae); VString err])
   | None => ret tt
   end) ;;
  ret (withLocation ae (fst r)).

(** get IP locations in order to apply location filter *)
Definition locateEntries (idx : nat) : M unit :=
  let iac := newIPAPIClient "http://ip-api.com/" in
  d <- index idx ;;
  located <- apply d (locateEntry iac) ;;
  setEntries idx located.

(** The closure of the location filter: the pattern is compiled anew at
    every call. *)
Definition localePredicate (ae : authEntry) : M bool :=
  rx <- MustCompile (locale fl) ;;
  ret (MatchString rx (composeLocationString (Location ae))).

(** location filter *)
Definition localeFilter (idx : nat) : M unit :=
  when (nonEmpty (locale fl)) (
    d <- index idx ;;
    filtered <- filter d localePredicate ;;
    setEntries idx filtered).

(** The body of the loop of [applyEntryFilters] for bucket [idx]. *)
Definition filterBucket (idx : nat) : M unit :=
  countFilter idx ;;
  addressFilter idx ;;
  userFilter idx ;;
  locateEntries idx ;;
  localeFilter idx.

(** [func applyEntryFilters(dae []datedAuthEntries)]; [dae] is the slice
    whose backing array is the [heap]. *)
Definition applyEntryFilters : M unit :=
  n <- len ;;
  forRange n filterBucket.



(** *** The parser *)

(** A new entry for a first attempt from [ip]. *)
Definition newEntry (ip username : string) : authEntry :=
  {| IP := ip; Location := zeroLocation; Count := 1; Users := [username] |}.

(** Modelled from the spec: the update of one bucket by an attempt, which
    is part of the parser and not among the source files: "find an
    existing AuthEntry for the extracted IP (linear search by IP; first
    match wins).  If found: increment Count; append the username to Users
    unless already present.  If not found: create a new AuthEntry with
    Count = 1 and Users = [username], append to the bucket."  The search
    is [exists] and the update is [addUser], both of [entry.go]. *)
Definition recordInBucket (dae : datedAuthEntries) (ip username : string) : datedAuthEntries :=
  match exists_ dae ip with
  | (idx, true) =>
      match Entries dae !! idx with
      | Some ae => withEntries dae (<[idx := addUser ae username]> (Entries dae))
      | None => dae
      end
  | (_, false) => withEntries dae (Entries dae ++ [newEntry ip username])
  end.

(** The index of the first bucket for [d], searching from index [idx]. *)
Fixpoint findDateFrom (idx : nat) (store : allEntries) (d : string) : option nat :=
  match store with
  | [] => None
  | dae :: rest => if String.eqb (Date dae) d then Some idx else findDateFrom (S idx) rest d
  end.

(** Modelled from the spec: the update of the store by one recognized
    attempt line, which is part of the parser and not among the source
    files: "Locate or create the DatedEntries bucket for the extracted
    date (create if this is the first line seen for that date; creation
    appends a new bucket at the end of the store, not sorted)", then the
    update of that bucket. *)
Definition recordAttempt (store : allEntries) (a : attempt) : allEntries :=
  match findDateFrom 0 store (attemptDate a) with
  | Some i =>
      match store !! i with
      | Some dae => <[i := recordInBucket dae (attemptIP a) (attemptUser a)]> store
      | None => store
      end
  | None =>
      store ++ [recordInBucket {| Date := attemptDate a; Entries := [] |}
                               (attemptIP a) (attemptUser a)]
  end.

(** Modelled from the spec: the parser's treatment of one line: "apply a
    pattern match extracting the three fields"; "unrecognized lines are
    ignored without error". *)
Definition parseLine (store : allEntries) (line : string) : allEntries :=
  match matchLine line with
  | Some a => recordAttempt store a
  | None => store
  end.

(** Modelled from the spec: [parseSSHAttempts], which is not among the
    source files: "the store is built once, in a single pass over the log
    text". *)
Definition parseSSHAttempts (file : list string) : allEntries :=
  fold_left parseLine file [].

(** *** [main] *)

(** What [main] does once the slice [attempts] has passed the date step. *)
Definition filterAndPrint (attempts : allEntries) : M unit :=
  setHeap attempts ;;
  applyEntryFilters ;;
  attempts' <- getHeap ;;
  debug "filtered data: %+v" [VEntries attempts'] ;;
  emit SpinnerStop ;;
  (if jsonOut fl then
     debug "outputting JSON" [] ;;
     jsonPrint attempts'
   else
     debug "outputting plaintext" [] ;;
     print attempts') ;;
  debug "operation complete" [].

(** [func main()] from the line after [flag.Parse()] on; [fl] holds the
    flags that call has set.  [flag.Parse] itself, which ends the process
    with status 2 (0 for [-h]) on a command line that does not parse, is
    not part of this definition: what is stated of [main] is stated of a
    run whose command line has parsed.  The spinner's character set (see
    [generateSpinnerSet]) and the deferred [file.Close] are left out. *)
Definition main : M unit :=
  match openFile (filename fl) with
  | inr err => logFatal err
  | inl file =>
      debug "auth file loaded: %s" [VString (filename fl)] ;;
      when (negb (debugOn fl)) (emit SpinnerStart) ;;
      let attempts := parseSSHAttempts file in
      debug "finished parsing log file" [] ;;
      debug "raw file data: %+v" [VEntries attempts] ;;
      if nonEmpty (date fl) then
        match applyDateFilter attempts with
        | None => emit (LogPrintf "found no date matching supplied filter; exiting" [])
        | Some attempts' => filterAndPrint attempts'
        end
      else filterAndPrint attempts
  end.

End Program.

(** ** Specification functions

    Pure descriptions of what the effectful code computes; the theorems
    below relate the program to them. *)

Section Specification.

Context {E : Env}.
Variable fl : flags.

(** A filter step that only runs when its flag is set. *)
Definition stage (on : bool) (p : authEntry -> bool) (es : list authEntry) : list authEntry :=
  if on then List.filter p es else es.

(** The entries of a bucket that pass the count, IP and user filters. *)
Definition survivors (es : list authEntry) : list authEntry :=
  stage (nonEmpty (user fl)) (userPredicate fl)
    (stage (nonEmpty (address fl)) (addressPredicate fl)
       (stage (threshold fl >? 0) (countPredicate fl) es)).

(** The location an entry gets when its lookup is request number [n]. *)
Definition replyLocation (n : nat) (ae : authEntry) : location :=
  match network n (IP ae) with
  | inl l => l
  | inr _ => zeroLocation
  end.

(** The entries after their lookups, the first being request number [n]. *)
Fixpoint locatedFrom (n : nat) (es : list authEntry) : list authEntry :=
  match es with
  | [] => []
  | ae :: rest => withLocation ae (replyLocation n ae) :: locatedFrom (S n) rest
  end.

(** The events of one lookup. *)
Definition lookupEvents (n : nat) (ae : authEntry) : list event :=
  (if debugOn fl then [LogPrintf "making API request for IP '%s'" [VString (IP ae)]] else [])
  ++ [Request "http://ip-api.com/" (IP ae)]
  ++ match network n (IP ae) with
     | inl _ => []
     | inr err => [LogPrintf "error getting location data for IP '%s': %s"
                     [VString (IP ae); VString err]]
     end.

Fixpoint lookupTrace (n : nat) (es : list authEntry) : list event :=
  match es with
  | [] => []
  | ae :: rest => lookupEvents n ae ++ lookupTrace (S n) rest
  end.

(** The location filter with a compiled pattern. *)
Definition localeMatches (rx : Regexp) (ae : authEntry) : bool :=
  MatchString rx (composeLocationString (Location ae)).

(** What the location filter keeps: everything without the flag, the
    matching entries with a pattern that compiles. *)
Definition localeStage (es : list authEntry) : list authEntry :=
  match regexpCompile (locale fl) with
  | inl rx => stage (nonEmpty (locale fl)) (localeMatches rx) es
  | inr _ => es
  end.

(** The store after a run that starts with request number [n]. *)
Fixpoint filteredStore (n : nat) (store : allEntries) : allEntries :=
  match store with
  | [] => []
  | d :: rest =>
      let es := survivors (Entries d) in
      withEntries d (localeStage (locatedFrom n es))
        :: filteredStore (n + length es) rest
  end.

(** The events of that run. *)
Fixpoint filterTrace (n : nat) (store : allEntries) : list event :=
  match store with
  | [] => []
  | d :: rest =>
      let es := survivors (Entries d) in
      lookupTrace n es ++ filterTrace (n + length es) rest
  end.

(** All entries that pass the count, IP and user filters, in store order. *)
Definition allSurvivors (store : allEntries) : list authEntry :=
  concat (map (fun d => survivors (Entries d)) store).

(** What [print] writes for one entry and for the store. *)
Definition entryOutput (ae : authEntry) : list event :=
  [ ColorSet [FgBlue; Bold]; Stdout ("IP: " ++ IP ae ++ nl); ColorUnset;
    ColorSet [FgYellow]; Stdout "Location: "; ColorUnset;
    Stdout (composeLocationString (Location ae) ++ nl);
    ColorSet [FgYellow]; Stdout "Attempts: "; ColorUnset;
    Stdout (pretty (Count ae) ++ nl);
    ColorSet [FgYellow]; Stdout "Usernames: "; ColorUnset;
    Stdout (join (Users ae) ", " ++ nl) ].

Definition headerOutput (dae : datedAuthEntries) : list event :=
  [ ColorSet [FgGreen; Bold]; Stdout ("Date: " ++ Date dae ++ nl); ColorUnset ].

Definition bucketOutput (dae : datedAuthEntries) : list event :=
  headerOutput dae
  ++ concat (map entryOutput (List.filter (fun ae => Count ae >=? threshold fl) (Entries dae)))
  ++ [Stdout nl].

Definition printOutput (ae : allEntries) : list event :=
  concat (map bucketOutput ae).

(** The events of [main] between opening the file and the date step. *)
Definition preludeTrace (file : list string) : list event :=
  (if debugOn fl then [LogPrintf "auth file loaded: %s" [VString (filename fl)]] else [])
  ++ (if negb (debugOn fl) then [SpinnerStart] else [])
  ++ (if debugOn fl then [LogPrintf "finished parsing log file" []] else [])
  ++ (if debugOn fl then [LogPrintf "raw file data: %+v" [VEntries (parseSSHAttempts file)]] else []).

End Specification.

(** The IPs of the lookups of a trace, in order. *)
Definition requestedIPs (t : list event) : list string :=
  omap (fun e => match e with Request _ ip => Some ip | _ => None end) t.

(** The text written to standard output by a trace. *)
Definition stdoutOf (t : list event) : list string :=
  omap (fun e => match e with Stdout s => Some s | _ => None end) t.

(** An entry without its location, and a store without its locations. *)
Definition forgetLocation (ae : authEntry) : authEntry := withLocation ae zeroLocation.

Definition forgetLocations (store : allEntries) : allEntries :=
  map (fun d => withEntries d (map forgetLocation (Entries d))) store.

(** Invariants of the store. *)
Definition uniqueIPs (store : allEntries) : Prop :=
  Forall (fun d => NoDup (map IP (Entries d))) store.

Definition uniqueIPsb (store : allEntries) : bool :=
  forallb (fun d => bool_decide (NoDup (map IP (Entries d)))) store.

(** The count of the entry at position [j] of bucket [i], if there is one. *)
Definition countAt (store : allEntries) (i j : nat) : option Z :=
  match store !! i with
  | Some d => match Entries d !! j with
              | Some ae => Some (Count ae)
              | None => None
              end
  | None => None
  end.

(** Every count of the store lies between [1] and [n]. *)
Definition countsBounded (n : Z) (store : allEntries) : Prop :=
  Forall (fun d => Forall (fun ae => 1 <= Count ae <= n) (Entries d)) store.

(** The entries of a bucket for [ip], and all entries of the store for
    [date] and [ip], through all buckets, in store order. *)
Definition entriesInBucket (d : datedAuthEntries) (ip : string) : list authEntry :=
  List.filter (fun ae => String.eqb (IP ae) ip) (Entries d).

Definition entriesFor (store : allEntries) (date ip : string) : list authEntry :=
  concat (map (fun d => if String.eqb (Date d) date then entriesInBucket d ip else [])
              store).

(** Is [line] a recognized attempt line for [date] and [ip]?  And the
    number of such lines in a log. *)
Definition isAttemptFor {E : Env} (date ip line : string) : bool :=
  match matchLine line with
  | Some a => String.eqb (attemptDate a) date && String.eqb (attemptIP a) ip
  | None => false
  end.

Definition attemptsFor {E : Env} (lines : list string) (date ip : string) : nat :=
  length (List.filter (isAttemptFor date ip) lines).

(** The counts in the store for a date and IP with [n] attempts: no
    entry when there was none, one entry with count [n] otherwise. *)
Definition countsOf (n : nat) : list Z :=
  match n with
  | O => []
  | S _ => [Z.of_nat n]
  end.

(** The step from [s] to [s'] raises the count at exactly one position
    [(i, j)] by one (from nothing to [1] when the entry is new), the
    entry there being the one for [date] and [ip], and leaves the count
    at every other position as it was. *)
Definition incrementsOne (date ip : string) (s s' : allEntries) : Prop :=
  exists (i j : nat) (d : datedAuthEntries) (ae : authEntry),
    s' !! i = Some d /\ Entries d !! j = Some ae /\
    Date d = date /\ IP ae = ip /\
    Count ae = default 0 (countAt s i j) + 1 /\
    forall i' j', (i', j') <> (i, j) -> countAt s' i' j' = countAt s i' j'.

(** ** A concrete world, used to run the program on examples *)

Module Demo.

Definition line1 : string := "Jan 1 ... Failed password for admin from 10.0.0.1 port 22 ssh2".
Definition line2 : string := "Jan 1 ... Failed password for root from 10.0.0.1 port 22 ssh2".
Definition line3 : string := "Jan 2 ... Failed password for admin from 10.0.0.2 port 22 ssh2".
Definition noise : string := "Jan 2 ... CRON[77]: session opened for user root".

Definition authLog : list string := [line1; noise; line2; line3].

Definition berlin : location :=
  {| Country := "Germany"; Region := "Berlin"; City := "Berlin";
     Lat := PrimFloat.one; Long := PrimFloat.two |}.

Definition demoMatch (line : string) : option attempt :=
  if String.eqb line line1 then Some (mkAttempt "Jan 1" "10.0.0.1" "admin")
  else if String.eqb line line2 then Some (mkAttempt "Jan 1" "10.0.0.1" "root")
  else if String.eqb line line3 then Some (mkAttempt "Jan 2" "10.0.0.2" "admin")
  else None.

(** A world with one log file, a service that knows only [10.0.0.1],
    patterns that are plain substrings (and ["("] does not compile). *)
Definition world : Env :=
  {| openFile := fun name =>
       if String.eqb name "/var/log/auth.log" then inl authLog
       else inr "open: no such file or directory";
     matchLine := demoMatch;
     network := fun _ ip =>
       if String.eqb ip "10.0.0.1" then inl berlin else inr "request timed out";
     Regexp := string;
     regexpCompile := fun p =>
       if String.eqb p "(" then inr "missing closing )" else inl p;
     MatchString := fun rx s =>
       match String.index 0 rx s with Some _ => true | None => false end;
     formatFloat := fun _ => "0.000000";
     marshalIndent := fun _ => "[]" |}.

(** The store of the example of the spec. *)
Definition store : allEntries :=
  [ {| Date := "Jan 1";
       Entries := [ {| IP := "10.0.0.1"; Location := zeroLocation; Count := 2;
                       Users := ["admin"; "root"] |} ] |};
    {| Date := "Jan 2";
       Entries := [ {| IP := "10.0.0.2"; Location := zeroLocation; Count := 1;
                       Users := ["admin"] |} ] |} ].

Definition stateOf (s : allEntries) : state :=
  {| heap := s; requests := 0; compiles := 0; trace := [] |}.

(** Flag settings: [-n 2], [-n 2 -i 10.0.0.1], [-d "Feb 30"], [-l "("]. *)
Definition atLeastTwo : flags :=
  {| debugOn := false; filename := "/var/log/auth.log"; jsonOut := false;
     threshold := 2; address := ""; user := ""; locale := ""; date := "" |}.


Definition onFeb30 : flags :=
  {| debugOn := false; filename := "/var/log/auth.log"; jsonOut := false;
     threshold := 0; address := ""; user := ""; locale := ""; date := "Feb 30" |}.

Definition onJan2 : flags :=
  {| debugOn := false; filename := "/var/log/auth.log"; jsonOut := false;
     threshold := 0; address := ""; user := ""; locale := ""; date := "Jan 2" |}.

Definition asJSON : flags :=
  {| debugOn := true; filename := "/var/log/auth.log"; jsonOut := true;
     threshold := 0; address := ""; user := ""; locale := ""; date := "" |}.

Definition fromOne : flags :=
  {| debugOn := false; filename := "/var/log/auth.log"; jsonOut := false;
     threshold := 0; address := "10.0.0.1"; user := ""; locale := "Berlin"; date := "" |}.

Definition noSuchFile : flags :=
  {| debugOn := false; filename := "/var/log/secure"; jsonOut := false;
     threshold := 0; address := ""; user := ""; locale := ""; date := "" |}.

Definition badPattern : flags :=
  {| debugOn := false; filename := "/var/log/auth.log"; jsonOut := false;
     threshold := 0; address := ""; user := ""; locale := "("; date := "" |}.

End Demo.

(** ** States and computations named in the statements *)

(** The common shape of the count, IP and user filter steps: a filter
    step with a pure predicate [p], run when [on]. *)
Definition pureFilter {E : Env} (on : bool) (p : authEntry -> bool) (idx : nat) : M unit :=
  when on (
    d <- index idx ;;
    filtered <- filter d (fun ae => ret (p ae)) ;;
    setEntries idx filtered).

(** The location filter can run: it is off, or its pattern compiles. *)
Definition patternUsable {E : Env} (fl : flags) : Prop :=
  nonEmpty (locale fl) = false \/ exists rx, regexpCompile (locale fl) = inl rx.

(** The number of [regexp.MustCompile] calls for [k] located entries. *)
Definition compileCalls (fl : flags) (k : nat) : nat :=
  if nonEmpty (locale fl) then k else 0%nat.

(** The run keeps the dates of the buckets, position by position. *)
Definition sameDates (st st' : state) : Prop :=
  map Date (heap st') = map Date (heap st).

(** A computation that keeps the dates however it ends. *)
Definition keepsDates {A} (m : M A) : Prop :=
  forall st, sameDates st (snd (m st)).

(** The message of the panic of [regexp.MustCompile]. *)
Definition compilePanic (fl : flags) (err : string) : string :=
  "regexp: Compile(`" ++ locale fl ++ "`): " ++ err.

(** [st] with the events [t] added at the end of its trace. *)
Definition appendTrace (t : list event) (st : state) : state :=
  {| heap := heap st; requests := requests st; compiles := compiles st;
     trace := trace st ++ t |}.

(** ** [generateSpinnerSet] of the main file *)

Definition maxWidth : Z := 80.

(** How a pure function ends: it returns, or it panics. *)
Inductive outcome (A : Type) : Type :=
| Value (a : A)
| Panic (msg : string).
Arguments Value {A} a.
Arguments Panic {A} msg.

(** [n] copies of [s] in a row. *)
Fixpoint repeatString (s : string) (n : nat) : string :=
  match n with
  | O => ""
  | S n' => String.append s (repeatString s n')
  end.

(** [strings.Repeat(s, count)]: it panics on a negative count. *)
Definition stringsRepeat (s : string) (count : Z) : outcome string :=
  if (count <? 0)%Z then Panic "strings: negative Repeat count"
  else Value (repeatString s (Z.to_nat count)).

(** The loop [for i := 0; i <= max; i++] of [generateSpinnerSet], from
    the iteration that starts with [i] and [set]; [fuel] bounds the
    number of iterations that are run, and [None] means it was used up. *)
Fixpoint spinnerLoop (fuel : nat) (max i : Z) (set : list string)
  : option (outcome (list string)) :=
  match fuel with
  | O => None
  | S fuel' =>
      if (i <=? max)%Z then
        match stringsRepeat ">" i with
        | Panic msg => Some (Panic msg)
        | Value arrows =>
            match stringsRepeat " " (GoInt.wrap (max - i)) with
            | Panic msg => Some (Panic msg)
            | Value spaces =>
                let str := String.append arrows spaces in
                spinnerLoop fuel' max (GoInt.incr i) (set ++ [str])
            end
        end
      else Some (Value set)
  end.

(** [func generateSpinnerSet() []string]; [width] is the [uint] that
    [termdim.Width()] returned (its error is dropped by the source), and
    [int(width)] is its two's-complement reading. *)
Definition generateSpinnerSet (fuel : nat) (width : Z) : option (outcome (list string)) :=
  let max :=
    if (maxWidth >? GoInt.wrap width)%Z then GoInt.wrap (GoInt.wrap width - 2)
    else maxWidth in
  spinnerLoop fuel max 0 [].

(** The frame number [k] of a spinner of [n] columns. *)
Definition spinnerFrame (n k : nat) : string :=
  String.append (repeatString ">" k) (repeatString " " (n - k)).

(** ** Further notions named in the statements *)

(** A computation that keeps the relation [R] between the state it
    starts in and the state it ends in, however it ends. *)
Definition keeps (R : state -> state -> Prop) {A} (m : M A) : Prop :=
  forall st, R st (snd (m st)).

(** Nothing was written to standard output between [st] and [st']. *)
Definition sameStdout (st st' : state) : Prop :=
  stdoutOf (trace st') = stdoutOf (trace st).

(** Between [st] and [st'] the store kept its buckets and their dates,
    and the entries of each bucket are, their locations apart, a
    subsequence of what they were. *)
Definition onlyRemoved (st st' : state) : Prop :=
  Forall2 (fun d d' =>
             Date d' = Date d /\
             map forgetLocation (Entries d') `sublist_of` map forgetLocation (Entries d))
          (heap st) (heap st').

(** Every count of the store is at least [1]. *)
Definition countsPositive (store : allEntries) : Prop :=
  Forall (fun d => Forall (fun ae => 1 <= Count ae) (Entries d)) store.

(** The entries that are looked up before a pattern that does not
    compile makes the run panic: the survivors of the first bucket that
    has any. *)
Fixpoint firstSurvivors {E : Env} (fl : flags) (store : allEntries) : list authEntry :=
  match store with
  | [] => []
  | d :: rest =>
      match survivors fl (Entries d) with
      | [] => firstSurvivors fl rest
      | ae :: sv => ae :: sv
      end
  end.

(** The store at that panic, the first lookup being request number [n]:
    the buckets without survivors are emptied, the first bucket with
    survivors holds them with their locations, the rest is untouched. *)
Fixpoint panicStore {E : Env} (fl : flags) (n : nat) (store : allEntries) : allEntries :=
  match store with
  | [] => []
  | d :: rest =>
      match survivors fl (Entries d) with
      | [] => withEntries d [] :: panicStore fl n rest
      | ae :: sv => withEntries d (locatedFrom n (ae :: sv)) :: rest
      end
  end.

(** The store [main] passes to the entry filters: the parsed store, or
    what the date step made of it ([None] when it found nothing). *)
Definition selectedStore (fl : flags) (attempts : allEntries) : option allEntries :=
  if nonEmpty (date fl) then applyDateFilter fl attempts else Some attempts.

(** The events of [main] after the entry filters, for the final store. *)
Definition outputTrace {E : Env} (fl : flags) (final : allEntries) : list event :=
  (if debugOn fl then [LogPrintf "filtered data: %+v" [VEntries final]] else [])
  ++ [SpinnerStop]
  ++ (if jsonOut fl
      then (if debugOn fl then [LogPrintf "outputting JSON" []] else [])
           ++ [Stdout (String.append (marshalIndent final) nl)]
      else (if debugOn fl then [LogPrintf "outputting plaintext" []] else [])
           ++ printOutput fl final)
  ++ (if debugOn fl then [LogPrintf "operation complete" []] else []).

(** An entry meets every criterion that is switched on. *)
Definition meetsCriteria {E : Env} (fl : flags) (ae : authEntry) : Prop :=
  (threshold fl > 0 -> Count ae >= threshold fl) /\
  (address fl <> "" -> IP ae = address fl) /\
  (user fl <> "" -> user fl ∈ Users ae) /\
  (locale fl <> "" ->
   forall rx, regexpCompile (locale fl) = inl rx ->
     MatchString rx (composeLocationString (Location ae)) = true).

(** What a user sees of a run: how it ended, the final store, the
    numbers of lookups and pattern compilations, the text on standard
    output and the IPs that were looked up. *)
Definition observe (r : result unit * state)
  : result unit * allEntries * nat * nat * list string * list string :=
  (fst r, heap (snd r), requests (snd r), compiles (snd r),
   stdoutOf (trace (snd r)), requestedIPs (trace (snd r))).

(** The flags with the debug switch set to [b]. *)
Definition withDebug (fl : flags) (b : bool) : flags :=
  {| debugOn := b; filename := filename fl; jsonOut := jsonOut fl;
     threshold := threshold fl; address := address fl; user := user fl;
     locale := locale fl; date := date fl |}.

(** * Properties *)

(** ** Go's [int] *)

Lemma wrap_in_range z : GoInt.in_range z -> GoInt.wrap z = z.
Proof.
  unfold GoInt.in_range, GoInt.wrap, GoInt.min_int, GoInt.max_int, GoInt.bits.
  intros H. rewrite Z.mod_small; lia.
Qed.

Lemma incr_below_max c :
  GoInt.min_int <= c < GoInt.max_int -> GoInt.incr c = c + 1.
Proof.
  intros H. unfold GoInt.incr. apply wrap_in_range. unfold GoInt.in_range. lia.
Qed.

Lemma incr_at_max : GoInt.incr GoInt.max_int = GoInt.min_int.
Proof. reflexivity. Qed.

(** ** [addUser] *)

Lemma hasUser_elem users user : hasUser users user = true <-> user ∈ users.
Proof.
  induction users as [|un rest IH]; simpl.
  - split; [discriminate | intros H; inversion H].
  - rewrite elem_of_cons. destruct (String.eqb_spec un user) as [->|Hne].
    + split; auto.
    + rewrite IH. split; [auto | intros [E|H]; [congruence | exact H]].
Qed.

Lemma hasUser_false users user : hasUser users user = false <-> user ∉ users.
Proof.
  rewrite <- hasUser_elem. destruct (hasUser users user); split; congruence.
Qed.

Lemma addUser_IP ae user : IP (addUser ae user) = IP ae.
Proof. unfold addUser. destruct (hasUser _ _); reflexivity. Qed.

Lemma addUser_Location ae user : Location (addUser ae user) = Location ae.
Proof. unfold addUser. destruct (hasUser _ _); reflexivity. Qed.

Lemma addUser_Count ae user : Count (addUser ae user) = GoInt.incr (Count ae).
Proof. unfold addUser. destruct (hasUser _ _); reflexivity. Qed.

Lemma addUser_Users_present ae user :
  user ∈ Users ae -> Users (addUser ae user) = Users ae.
Proof.
  intros H. apply hasUser_elem in H. unfold addUser. rewrite H. reflexivity.
Qed.

Lemma addUser_Users_absent ae user :
  user ∉ Users ae -> Users (addUser ae user) = Users ae ++ [user].
Proof.
  intros H. apply hasUser_false in H. unfold addUser. rewrite H. reflexivity.
Qed.

Lemma addUser_NoDup ae user : NoDup (Users ae) -> NoDup (Users (addUser ae user)).
Proof.
  intros H. destruct (hasUser (Users ae) user) eqn:E.
  - apply hasUser_elem in E. rewrite addUser_Users_present; assumption.
  - apply hasUser_false in E. rewrite addUser_Users_absent by assumption.
    apply NoDup_app. split; [exact H|]. split; [|apply NoDup_singleton].
    intros x Hx Hx'. apply list_elem_of_singleton in Hx'. subst x. contradiction.
Qed.

Lemma addUsers_NoDup users : forall ae,
  NoDup (Users ae) -> NoDup (Users (addUsers ae users)).
Proof.
  induction users as [|u rest IH]; intros ae H; simpl.
  - exact H.
  - apply IH. apply addUser_NoDup. exact H.
Qed.

(** C5: starting from an entry without duplicate usernames, no sequence of
    [addUser] calls ever produces a duplicate; adding a name that is
    already present leaves [Users] as it is while [Count] is still
    incremented, and adding a new name appends it at the end. *)
Theorem addUser_users_unique (ae : authEntry) (users : list string) :
  NoDup (Users ae) ->
  NoDup (Users (addUsers ae users)) /\
  forall u,
    let ae' := addUsers ae users in
    (u ∈ Users ae' ->
       Users (addUser ae' u) = Users ae' /\
       Count (addUser ae' u) = GoInt.incr (Count ae')) /\
    (u ∉ Users ae' -> Users (addUser ae' u) = Users ae' ++ [u]) /\
    (GoInt.min_int <= Count ae' < GoInt.max_int ->
       Count (addUser ae' u) = Count ae' + 1).
Proof.
  intros Hnd. split.
  - apply addUsers_NoDup. exact Hnd.
  - intros u ae'. split; [|split].
    + intros Hin. split.
      * apply addUser_Users_present. exact Hin.
      * apply addUser_Count.
    + apply addUser_Users_absent.
    + intros Hr. rewrite addUser_Count. apply incr_below_max. exact Hr.
Qed.

Lemma addUser_users_unique_witness :
  let ae := addUsers (newEntry "10.0.0.1" "admin") ["root"; "admin"; "root"] in
  NoDup (Users (newEntry "10.0.0.1" "admin")) /\
  NoDup (Users ae) /\
  Users (addUser ae "root") = Users ae /\
  Users (addUser ae "guest") = Users ae ++ ["guest"] /\
  Count (addUser ae "root") = Count ae + 1.
Proof.
  intros ae.
  assert (H : NoDup (Users (newEntry "10.0.0.1" "admin"))) by apply NoDup_singleton.
  split; [exact H|].
  destruct (addUser_users_unique (newEntry "10.0.0.1" "admin")
              ["root"; "admin"; "root"] H) as [Hnd Hstep].
  split; [exact Hnd|].
  destruct (Hstep "root") as (Hpresent & _ & Hcount).
  destruct (Hstep "guest") as (_ & Habsent & _).
  split; [apply Hpresent, hasUser_elem; reflexivity|].
  split; [apply Habsent, hasUser_false; reflexivity|].
  apply Hcount. split; vm_compute; [discriminate | reflexivity].
Defined.

Example addUsers_demo :
  addUsers (newEntry "10.0.0.1" "admin") ["root"; "admin"; "root"]
  = {| IP := "10.0.0.1"; Location := zeroLocation; Count := 4;
       Users := ["admin"; "root"] |}.
Proof. reflexivity. Qed.

(** ** Running the monad *)

Lemma bind_Returned {A B} (m : M A) (k : A -> M B) st a st' :
  m st = (Returned a, st') -> bind m k st = k a st'.
Proof. intros H. unfold bind. rewrite H. reflexivity. Qed.

Lemma bind_Panicked {A B} (m : M A) (k : A -> M B) st msg st' :
  m st = (Panicked msg, st') -> bind m k st = (Panicked msg, st').
Proof. intros H. unfold bind. rewrite H. reflexivity. Qed.

Lemma appendTrace_nil st : appendTrace [] st = st.
Proof. destruct st. unfold appendTrace. simpl. rewrite app_nil_r. reflexivity. Qed.

Lemma appendTrace_app t1 t2 st :
  appendTrace t2 (appendTrace t1 st) = appendTrace (t1 ++ t2) st.
Proof. unfold appendTrace. simpl. rewrite app_assoc. reflexivity. Qed.

Lemma emit_run e st : emit e st = (Returned tt, appendTrace [e] st).
Proof. reflexivity. Qed.

Lemma bind_emit {B} e (k : unit -> M B) st :
  bind (emit e) k st = k tt (appendTrace [e] st).
Proof. reflexivity. Qed.


(** ** [print] *)

Section Rendering.

Context {E : Env}.
Variable fl : flags.

Lemma printEntry_run ae st :
  printEntry fl ae st
  = (Returned tt,
     appendTrace (if Count ae >=? threshold fl then entryOutput ae else []) st).
Proof.
  unfold printEntry, when. destruct (Count ae >=? threshold fl).
  - rewrite !bind_emit, emit_run, !appendTrace_app. reflexivity.
  - rewrite appendTrace_nil. reflexivity.
Qed.

Lemma printEntries_run es : forall st,
  forEach es (printEntry fl) st
  = (Returned tt,
     appendTrace
       (concat (map entryOutput (List.filter (fun ae => Count ae >=? threshold fl) es))) st).
Proof.
  induction es as [|ae rest IH]; intros st; simpl.
  - rewrite appendTrace_nil. reflexivity.
  - rewrite (bind_Returned _ _ _ _ _ (printEntry_run ae st)).
    rewrite IH, appendTrace_app.
    destruct (Count ae >=? threshold fl); reflexivity.
Qed.

Lemma printBucket_run dae st :
  (emit (ColorSet [FgGreen; Bold]) ;;
   emit (Stdout ("Date: " ++ Date dae ++ nl)) ;;
   emit ColorUnset ;;
   forEach (Entries dae) (printEntry fl) ;;
   emit (Stdout nl)) st
  = (Returned tt, appendTrace (bucketOutput fl dae) st).
Proof.
  rewrite (bind_Returned _ _ _ _ _ (emit_run _ _)).
  rewrite (bind_Returned _ _ _ _ _ (emit_run _ _)).
  rewrite (bind_Returned _ _ _ _ _ (emit_run _ _)).
  rewrite (bind_Returned _ _ _ _ _ (printEntries_run _ _)).
  rewrite emit_run. rewrite !appendTrace_app. reflexivity.
Qed.

(** C9: in text mode [print] writes, for every bucket in store order, the
    date header, then the lines of exactly the entries whose [Count] is at
    least the threshold, then an empty line; the threshold is tested here
    whatever the pipeline did before, and a bucket none of whose entries
    is printed still gets its header. *)
Theorem print_text_mode (ae : allEntries) (st : state) :
  print fl ae st = (Returned tt, appendTrace (printOutput fl ae) st) /\
  (forall dae,
     bucketOutput fl dae
     = headerOutput dae
       ++ concat (map entryOutput
                    (List.filter (fun e => Count e >=? threshold fl) (Entries dae)))
       ++ [Stdout nl]) /\
  (forall dae,
     Forall (fun e => Count e < threshold fl) (Entries dae) ->
     bucketOutput fl dae = headerOutput dae ++ [Stdout nl]).
Proof.
  split; [|split].
  - revert st. unfold print, printOutput.
    induction ae as [|dae rest IH]; intros st; simpl.
    + rewrite appendTrace_nil. reflexivity.
    + rewrite (bind_Returned _ _ _ _ _ (printBucket_run dae st)).
      rewrite IH, appendTrace_app. reflexivity.
  - reflexivity.
  - intros dae Hall. unfold bucketOutput.
    replace (List.filter _ (Entries dae)) with (@nil authEntry); [reflexivity|].
    induction Hall as [|e es He _ IH]; simpl; [reflexivity|].
    destruct (Z.geb_spec (Count e) (threshold fl)); [lia | exact IH].
Qed.

End Rendering.

(** ** The steps of the filter pipeline *)

Section Pipeline.

Context {E : Env}.
Variable fl : flags.

Lemma withEntries_withEntries d es es' :
  withEntries (withEntries d es) es' = withEntries d es'.
Proof. reflexivity. Qed.

Lemma withEntries_same d : withEntries d (Entries d) = d.
Proof. destruct d. reflexivity. Qed.

Lemma filterEntries_pure (p : authEntry -> bool) es st :
  filterEntries es (fun ae => ret (p ae)) st = (Returned (List.filter p es), st).
Proof.
  induction es as [|ae rest IH]; simpl.
  - reflexivity.
  - unfold bind, ret in *. rewrite IH. destruct (p ae); reflexivity.
Qed.

Lemma index_run idx st d :
  heap st !! idx = Some d -> index idx st = (Returned d, st).
Proof. intros H. unfold index. rewrite H. reflexivity. Qed.

Lemma index_out_of_range {A} idx st (k : datedAuthEntries -> M A) :
  heap st !! idx = None ->
  bind (index idx) k st = (Panicked "runtime error: index out of range", st).
Proof. intros H. unfold bind, index. rewrite H. reflexivity. Qed.

Lemma setEntries_run idx es st d :
  heap st !! idx = Some d ->
  setEntries idx es st
  = (Returned tt,
     mkState (<[idx := withEntries d es]> (heap st)) (requests st) (compiles st) (trace st)).
Proof. intros H. unfold setEntries. rewrite H. reflexivity. Qed.

Lemma pureFilter_run on p idx st d :
  heap st !! idx = Some d ->
  pureFilter on p idx st
  = (Returned tt,
     mkState (<[idx := withEntries d (stage on p (Entries d))]> (heap st))
             (requests st) (compiles st) (trace st)).
Proof.
  intros H. unfold pureFilter, when, stage. destruct on.
  - rewrite (bind_Returned _ _ _ _ _ (index_run _ _ _ H)).
    unfold filter. rewrite (bind_Returned _ _ _ _ _ (filterEntries_pure _ _ _)).
    apply setEntries_run. exact H.
  - cbn iota. rewrite withEntries_same, list_insert_id by exact H.
    destruct st; reflexivity.
Qed.

Lemma pureFilter_out_of_range on p idx st :
  heap st !! idx = None ->
  pureFilter on p idx st
  = if on then (Panicked "runtime error: index out of range", st) else (Returned tt, st).
Proof.
  intros H. unfold pureFilter, when. destruct on; [|reflexivity].
  apply index_out_of_range. exact H.
Qed.

Lemma countFilter_pure idx :
  countFilter fl idx = pureFilter (threshold fl >? 0) (countPredicate fl) idx.
Proof. reflexivity. Qed.

Lemma addressFilter_pure idx :
  addressFilter fl idx = pureFilter (nonEmpty (address fl)) (addressPredicate fl) idx.
Proof. reflexivity. Qed.

Lemma userFilter_pure idx :
  userFilter fl idx = pureFilter (nonEmpty (user fl)) (userPredicate fl) idx.
Proof. reflexivity. Qed.

(** The three pure filters in a row leave the survivors in the bucket. *)
Lemma pureFilters_run idx st d :
  heap st !! idx = Some d ->
  (countFilter fl idx ;; addressFilter fl idx ;; userFilter fl idx) st
  = (Returned tt,
     mkState (<[idx := withEntries d (survivors fl (Entries d))]> (heap st))
             (requests st) (compiles st) (trace st)).
Proof.
  intros H. pose proof (lookup_lt_Some _ _ _ H) as Hlt.
  rewrite countFilter_pure, addressFilter_pure, userFilter_pure.
  rewrite (bind_Returned _ _ _ _ _ (pureFilter_run _ _ _ _ _ H)).
  erewrite bind_Returned; cycle 1.
  { apply pureFilter_run. simpl. apply list_lookup_insert_eq. exact Hlt. }
  erewrite pureFilter_run; cycle 1.
  { simpl. apply list_lookup_insert_eq. rewrite length_insert. exact Hlt. }
  simpl. rewrite !list_insert_insert_eq. reflexivity.
Qed.

Lemma locatedFrom_length es : forall n, length (locatedFrom n es) = length es.
Proof. induction es as [|ae rest IH]; intros n; simpl; [reflexivity | rewrite IH; reflexivity]. Qed.

Lemma locateEntry_run ae st :
  locateEntry fl (newIPAPIClient "http://ip-api.com/") ae st
  = (Returned (withLocation ae (replyLocation (requests st) ae)),
     mkState (heap st) (S (requests st)) (compiles st)
             (trace st ++ lookupEvents fl (requests st) ae)).
Proof.
  unfold locateEntry, debug, when, lookupEvents, replyLocation, bind, locateIP, emit, ret.
  destruct (debugOn fl); simpl; destruct (network (requests st) (IP ae)); simpl;
    repeat rewrite <- app_assoc; reflexivity.
Qed.

Lemma applyEntries_locate es : forall st,
  applyEntries es (locateEntry fl (newIPAPIClient "http://ip-api.com/")) st
  = (Returned (locatedFrom (requests st) es),
     mkState (heap st) (requests st + length es)%nat (compiles st)
             (trace st ++ lookupTrace fl (requests st) es)).
Proof.
  induction es as [|ae rest IH]; intros st; simpl.
  - rewrite Nat.add_0_r, app_nil_r. destruct st; reflexivity.
  - rewrite (bind_Returned _ _ _ _ _ (locateEntry_run ae st)).
    rewrite (bind_Returned _ _ _ _ _ (IH _)). simpl.
    rewrite <- app_assoc, Nat.add_succ_r. reflexivity.
Qed.

Lemma locateEntries_run idx st d :
  heap st !! idx = Some d ->
  locateEntries fl idx st
  = (Returned tt,
     mkState (<[idx := withEntries d (locatedFrom (requests st) (Entries d))]> (heap st))
             (requests st + length (Entries d))%nat (compiles st)
             (trace st ++ lookupTrace fl (requests st) (Entries d))).
Proof.
  intros H. unfold locateEntries.
  rewrite (bind_Returned _ _ _ _ _ (index_run _ _ _ H)).
  unfold apply. rewrite (bind_Returned _ _ _ _ _ (applyEntries_locate _ _)).
  erewrite setEntries_run by (simpl; exact H). reflexivity.
Qed.

Lemma filterEntries_locale_ok rx es : forall st,
  regexpCompile (locale fl) = inl rx ->
  filterEntries es (localePredicate fl) st
  = (Returned (List.filter (localeMatches rx) es),
     mkState (heap st) (requests st) (compiles st + length es)%nat (trace st)).
Proof.
  induction es as [|ae rest IH]; intros st Hrx; simpl.
  - rewrite Nat.add_0_r. destruct st; reflexivity.
  - unfold bind at 1. unfold localePredicate at 1. unfold bind at 1, MustCompile.
    rewrite Hrx. unfold ret at 1.
    rewrite (bind_Returned _ _ _ _ _ (IH _ Hrx)). simpl.
    rewrite Nat.add_succ_r. reflexivity.
Qed.

Lemma filterEntries_locale_bad err ae rest st :
  regexpCompile (locale fl) = inr err ->
  filterEntries (ae :: rest) (localePredicate fl) st
  = (Panicked ("regexp: Compile(`" ++ locale fl ++ "`): " ++ err),
     mkState (heap st) (requests st) (S (compiles st)) (trace st)).
Proof.
  intros Hrx. simpl. unfold bind at 1. unfold localePredicate at 1.
  unfold bind at 1, MustCompile. rewrite Hrx. reflexivity.
Qed.

End Pipeline.

(** ** One bucket, and the loop over the buckets *)

Section Buckets.

Context {E : Env}.
Variable fl : flags.

Lemma localeFilter_off idx st :
  nonEmpty (locale fl) = false -> localeFilter fl idx st = (Returned tt, st).
Proof. intros H. unfold localeFilter. rewrite H. reflexivity. Qed.

Lemma localeFilter_ok rx idx st d :
  nonEmpty (locale fl) = true ->
  regexpCompile (locale fl) = inl rx ->
  heap st !! idx = Some d ->
  localeFilter fl idx st
  = (Returned tt,
     mkState (<[idx := withEntries d (List.filter (localeMatches rx) (Entries d))]> (heap st))
             (requests st) (compiles st + length (Entries d))%nat (trace st)).
Proof.
  intros Hon Hrx H. unfold localeFilter. rewrite Hon. simpl.
  rewrite (bind_Returned _ _ _ _ _ (index_run _ _ _ H)).
  unfold filter. rewrite (bind_Returned _ _ _ _ _ (filterEntries_locale_ok fl rx _ _ Hrx)).
  erewrite setEntries_run by (simpl; exact H). reflexivity.
Qed.

Lemma localeFilter_bad err idx st d ae rest :
  nonEmpty (locale fl) = true ->
  regexpCompile (locale fl) = inr err ->
  heap st !! idx = Some d ->
  Entries d = ae :: rest ->
  localeFilter fl idx st
  = (Panicked ("regexp: Compile(`" ++ locale fl ++ "`): " ++ err),
     mkState (heap st) (requests st) (S (compiles st)) (trace st)).
Proof.
  intros Hon Hrx H Hes. unfold localeFilter. rewrite Hon. simpl.
  rewrite (bind_Returned _ _ _ _ _ (index_run _ _ _ H)).
  unfold filter. rewrite Hes.
  apply bind_Panicked. apply filterEntries_locale_bad. exact Hrx.
Qed.

Lemma localeFilter_bad_empty idx st d :
  nonEmpty (locale fl) = true ->
  heap st !! idx = Some d ->
  Entries d = [] ->
  localeFilter fl idx st = (Returned tt, st).
Proof.
  intros Hon H Hes. unfold localeFilter. rewrite Hon. simpl.
  rewrite (bind_Returned _ _ _ _ _ (index_run _ _ _ H)).
  unfold filter. rewrite Hes. simpl.
  rewrite (bind_Returned _ _ _ [] st) by reflexivity.
  erewrite setEntries_run by exact H.
  rewrite <- Hes, withEntries_same, list_insert_id by exact H.
  destruct st; reflexivity.
Qed.

(** The state after the count, IP and user filters and the lookups. *)
Lemma located_run idx st d :
  heap st !! idx = Some d ->
  (countFilter fl idx ;; addressFilter fl idx ;; userFilter fl idx ;;
   locateEntries fl idx) st
  = (Returned tt,
     mkState (<[idx := withEntries d (locatedFrom (requests st) (survivors fl (Entries d)))]>
                (heap st))
             (requests st + length (survivors fl (Entries d)))%nat (compiles st)
             (trace st ++ lookupTrace fl (requests st) (survivors fl (Entries d)))).
Proof.
  intros H. pose proof (lookup_lt_Some _ _ _ H) as Hlt.
  pose proof (pureFilters_run fl idx st d H) as Hp.
  unfold bind in Hp |- *.
  destruct (countFilter fl idx st) as [[[]|?|?] st1]; try discriminate.
  destruct (addressFilter fl idx st1) as [[[]|?|?] st2]; try discriminate.
  destruct (userFilter fl idx st2) as [[[]|?|?] st3]; try discriminate.
  injection Hp as ->.
  erewrite locateEntries_run by (simpl; apply list_lookup_insert_eq; exact Hlt).
  simpl. rewrite list_insert_insert_eq. reflexivity.
Qed.

Lemma filterBucket_split idx st :
  filterBucket fl idx st
  = bind (countFilter fl idx ;; addressFilter fl idx ;; userFilter fl idx ;;
          locateEntries fl idx) (fun _ => localeFilter fl idx) st.
Proof.
  unfold filterBucket, bind.
  destruct (countFilter fl idx st) as [[[]|?|?] st1]; try reflexivity.
  destruct (addressFilter fl idx st1) as [[[]|?|?] st2]; try reflexivity.
  destruct (userFilter fl idx st2) as [[[]|?|?] st3]; reflexivity.
Qed.

Lemma filterBucket_ok idx st d :
  patternUsable fl ->
  heap st !! idx = Some d ->
  filterBucket fl idx st
  = (Returned tt,
     mkState (<[idx := withEntries d
                         (localeStage fl (locatedFrom (requests st) (survivors fl (Entries d))))]>
                (heap st))
             (requests st + length (survivors fl (Entries d)))%nat
             (compiles st + compileCalls fl (length (survivors fl (Entries d))))%nat
             (trace st ++ lookupTrace fl (requests st) (survivors fl (Entries d)))).
Proof.
  intros Hp H. pose proof (lookup_lt_Some _ _ _ H) as Hlt.
  rewrite filterBucket_split.
  rewrite (bind_Returned _ _ _ _ _ (located_run idx st d H)).
  unfold compileCalls, localeStage.
  destruct (nonEmpty (locale fl)) eqn:Hon.
  - destruct Hp as [Hoff | [rx Hrx]]; [congruence|].
    erewrite (localeFilter_ok rx) by
      (try exact Hon; try exact Hrx; simpl; apply list_lookup_insert_eq; exact Hlt).
    simpl. rewrite Hrx, list_insert_insert_eq, locatedFrom_length. reflexivity.
  - rewrite localeFilter_off by exact Hon.
    rewrite Nat.add_0_r. destruct (regexpCompile (locale fl)); reflexivity.
Qed.

Lemma filterBucket_bad_empty err idx st d :
  nonEmpty (locale fl) = true ->
  regexpCompile (locale fl) = inr err ->
  heap st !! idx = Some d ->
  survivors fl (Entries d) = [] ->
  filterBucket fl idx st
  = (Returned tt,
     mkState (<[idx := withEntries d []]> (heap st)) (requests st) (compiles st) (trace st)).
Proof.
  intros Hon Hrx H Hsv. pose proof (lookup_lt_Some _ _ _ H) as Hlt.
  rewrite filterBucket_split.
  rewrite (bind_Returned _ _ _ _ _ (located_run idx st d H)).
  rewrite Hsv. simpl.
  erewrite localeFilter_bad_empty;
    [| exact Hon | simpl; apply list_lookup_insert_eq; exact Hlt | reflexivity].
  rewrite Nat.add_0_r, app_nil_r. reflexivity.
Qed.

Lemma filterBucket_bad_panic err idx st d :
  nonEmpty (locale fl) = true ->
  regexpCompile (locale fl) = inr err ->
  heap st !! idx = Some d ->
  survivors fl (Entries d) <> [] ->
  exists st',
    filterBucket fl idx st
    = (Panicked ("regexp: Compile(`" ++ locale fl ++ "`): " ++ err), st') /\
    compiles st' = S (compiles st).
Proof.
  intros Hon Hrx H Hsv. pose proof (lookup_lt_Some _ _ _ H) as Hlt.
  rewrite filterBucket_split.
  rewrite (bind_Returned _ _ _ _ _ (located_run idx st d H)).
  destruct (survivors fl (Entries d)) as [|ae rest] eqn:Esv; [congruence|].
  eexists. split.
  - eapply (localeFilter_bad err);
      [exact Hon | exact Hrx | simpl; apply list_lookup_insert_eq; exact Hlt | reflexivity].
  - reflexivity.
Qed.

Lemma compileCalls_add a b :
  (compileCalls fl a + compileCalls fl b)%nat = compileCalls fl (a + b).
Proof. unfold compileCalls. destruct (nonEmpty (locale fl)); reflexivity. Qed.

(** The loop from bucket [length pre] on, when the location filter can run. *)
Lemma filterLoop_ok rest : forall pre st,
  patternUsable fl ->
  heap st = pre ++ rest ->
  forEach (seq (length pre) (length rest)) (filterBucket fl) st
  = (Returned tt,
     mkState (pre ++ filteredStore fl (requests st) rest)
             (requests st + length (allSurvivors fl rest))%nat
             (compiles st + compileCalls fl (length (allSurvivors fl rest)))%nat
             (trace st ++ filterTrace fl (requests st) rest)).
Proof.
  induction rest as [|d rest IH]; intros pre st Hp Hheap; simpl.
  - rewrite <- Hheap. unfold compileCalls. destruct (nonEmpty (locale fl));
      rewrite !Nat.add_0_r, app_nil_r; destruct st; reflexivity.
  - assert (Hd : heap st !! length pre = Some d)
      by (rewrite Hheap; apply list_lookup_middle; reflexivity).
    rewrite (bind_Returned _ _ _ _ _ (filterBucket_ok _ st d Hp Hd)).
    set (d' := withEntries d _).
    assert (Hlen : length (pre ++ [d']) = S (length pre))
      by (rewrite length_app; simpl; lia).
    rewrite <- Hlen. rewrite IH with (pre := pre ++ [d']); [|exact Hp|].
    + simpl. unfold allSurvivors. simpl. rewrite length_app.
      rewrite <- !app_assoc. simpl. rewrite <- compileCalls_add.
      f_equal. f_equal; lia.
    + simpl. rewrite Hheap.
      replace (length pre) with (length pre + 0)%nat by lia.
      rewrite insert_app_r. simpl. rewrite <- app_assoc. reflexivity.
Qed.

(** The loop when the pattern of the location filter does not compile. *)
Lemma filterLoop_bad err rest : forall pre st,
  nonEmpty (locale fl) = true ->
  regexpCompile (locale fl) = inr err ->
  heap st = pre ++ rest ->
  (allSurvivors fl rest = [] ->
   forEach (seq (length pre) (length rest)) (filterBucket fl) st
   = (Returned tt,
      mkState (pre ++ map (fun d => withEntries d []) rest)
              (requests st) (compiles st) (trace st))) /\
  (allSurvivors fl rest <> [] ->
   exists st',
     forEach (seq (length pre) (length rest)) (filterBucket fl) st
     = (Panicked ("regexp: Compile(`" ++ locale fl ++ "`): " ++ err), st') /\
     compiles st' = S (compiles st)).
Proof.
  induction rest as [|d rest IH]; intros pre st Hon Hrx Hheap; simpl.
  - split; [| intros Hne; exfalso; apply Hne; reflexivity].
    intros _. rewrite <- Hheap. destruct st; reflexivity.
  - assert (Hd : heap st !! length pre = Some d)
      by (rewrite Hheap; apply list_lookup_middle; reflexivity).
    unfold allSurvivors. simpl.
    destruct (survivors fl (Entries d)) as [|ae sv] eqn:Esv.
    + pose proof (filterBucket_bad_empty err _ st d Hon Hrx Hd Esv) as Hb.
      rewrite (bind_Returned _ _ _ _ _ Hb).
      assert (Hlen : length (pre ++ [withEntries d []]) = S (length pre))
        by (rewrite length_app; simpl; lia).
      rewrite <- Hlen.
      destruct (IH (pre ++ [withEntries d []])
                   (mkState (<[length pre := withEntries d []]> (heap st))
                            (requests st) (compiles st) (trace st)) Hon Hrx) as [IH1 IH2].
      { simpl. rewrite Hheap.
        replace (length pre) with (length pre + 0)%nat by lia.
        rewrite insert_app_r. simpl. rewrite <- app_assoc. reflexivity. }
      split.
      * intros Hnil. rewrite IH1 by exact Hnil. simpl.
        rewrite <- app_assoc. reflexivity.
      * intros Hne. exact (IH2 Hne).
    + split; [discriminate|]. intros _.
      destruct (filterBucket_bad_panic err _ st d Hon Hrx Hd) as [st' [Hb Hc]].
      { rewrite Esv. discriminate. }
      exists st'. split; [|exact Hc].
      apply bind_Panicked. exact Hb.
Qed.

Lemma applyEntryFilters_ok st :
  patternUsable fl ->
  applyEntryFilters fl st
  = (Returned tt,
     mkState (filteredStore fl (requests st) (heap st))
             (requests st + length (allSurvivors fl (heap st)))%nat
             (compiles st + compileCalls fl (length (allSurvivors fl (heap st))))%nat
             (trace st ++ filterTrace fl (requests st) (heap st))).
Proof.
  intros Hp. unfold applyEntryFilters.
  rewrite (bind_Returned _ _ _ (length (heap st)) st) by reflexivity.
  exact (filterLoop_ok (heap st) [] st Hp eq_refl).
Qed.

End Buckets.

(** ** Dates are kept by every run *)

Section Dates.

Context {E : Env}.
Variable fl : flags.

Lemma sameDates_refl st : sameDates st st.
Proof. reflexivity. Qed.

Lemma sameDates_trans st1 st2 st3 :
  sameDates st1 st2 -> sameDates st2 st3 -> sameDates st1 st3.
Proof. unfold sameDates. congruence. Qed.

Lemma keepsDates_ret {A} (a : A) : keepsDates (ret a).
Proof. intros st. apply sameDates_refl. Qed.

Lemma keepsDates_bind {A B} (m : M A) (k : A -> M B) :
  keepsDates m -> (forall a, keepsDates (k a)) -> keepsDates (bind m k).
Proof.
  intros Hm Hk st. unfold bind. specialize (Hm st).
  destruct (m st) as [[a|msg|code] st1]; simpl in *; try exact Hm.
  eapply sameDates_trans; [exact Hm | apply Hk].
Qed.

Lemma keepsDates_emit e : keepsDates (emit e).
Proof. intros st. reflexivity. Qed.

Lemma keepsDates_when b m : keepsDates m -> keepsDates (when b m).
Proof. intros H. destruct b; [exact H | apply keepsDates_ret]. Qed.

Lemma keepsDates_index idx : keepsDates (index idx).
Proof. intros st. unfold index. destruct (heap st !! idx); reflexivity. Qed.

Lemma keepsDates_setEntries idx es : keepsDates (setEntries idx es).
Proof.
  intros st. unfold setEntries. destruct (heap st !! idx) as [d|] eqn:H; [|reflexivity].
  unfold sameDates. simpl. rewrite list_fmap_insert. simpl.
  apply list_insert_id. rewrite list_lookup_fmap, H. reflexivity.
Qed.

Lemma keepsDates_forEach {A} (l : list A) (body : A -> M unit) :
  (forall x, keepsDates (body x)) -> keepsDates (forEach l body).
Proof.
  intros H. induction l as [|x rest IH]; simpl.
  - apply keepsDates_ret.
  - apply keepsDates_bind; [apply H | intros _; exact IH].
Qed.

Lemma keepsDates_filterEntries es predicate :
  (forall ae, keepsDates (predicate ae)) -> keepsDates (filterEntries es predicate).
Proof.
  intros H. induction es as [|ae rest IH]; simpl.
  - apply keepsDates_ret.
  - apply keepsDates_bind; [apply H|]. intros keep.
    apply keepsDates_bind; [exact IH|]. intros kept. apply keepsDates_ret.
Qed.

Lemma keepsDates_applyEntries es fn :
  (forall ae, keepsDates (fn ae)) -> keepsDates (applyEntries es fn).
Proof.
  intros H. induction es as [|ae rest IH]; simpl.
  - apply keepsDates_ret.
  - apply keepsDates_bind; [apply H|]. intros ae'.
    apply keepsDates_bind; [exact IH|]. intros rest'. apply keepsDates_ret.
Qed.

Lemma keepsDates_pureFilter on p idx : keepsDates (pureFilter on p idx).
Proof.
  apply keepsDates_when. apply keepsDates_bind; [apply keepsDates_index|]. intros d.
  apply keepsDates_bind; [|intros; apply keepsDates_setEntries].
  apply keepsDates_filterEntries. intros ae. apply keepsDates_ret.
Qed.

Lemma keepsDates_locateEntry iac ae : keepsDates (locateEntry fl iac ae).
Proof.
  unfold locateEntry, debug.
  apply keepsDates_bind; [apply keepsDates_when, keepsDates_emit|]. intros _.
  apply keepsDates_bind; [intros st; reflexivity|]. intros r.
  apply keepsDates_bind; [|intros; apply keepsDates_ret].
  destruct (snd r); [apply keepsDates_emit | apply keepsDates_ret].
Qed.

Lemma keepsDates_locateEntries idx : keepsDates (locateEntries fl idx).
Proof.
  unfold locateEntries.
  apply keepsDates_bind; [apply keepsDates_index|]. intros d.
  apply keepsDates_bind; [|intros; apply keepsDates_setEntries].
  apply keepsDates_applyEntries. intros ae. apply keepsDates_locateEntry.
Qed.

Lemma keepsDates_localePredicate ae : keepsDates (localePredicate fl ae).
Proof.
  unfold localePredicate. apply keepsDates_bind; [|intros; apply keepsDates_ret].
  intros st. unfold MustCompile. destruct (regexpCompile (locale fl)); reflexivity.
Qed.

Lemma keepsDates_localeFilter idx : keepsDates (localeFilter fl idx).
Proof.
  apply keepsDates_when. apply keepsDates_bind; [apply keepsDates_index|]. intros d.
  apply keepsDates_bind; [|intros; apply keepsDates_setEntries].
  apply keepsDates_filterEntries. apply keepsDates_localePredicate.
Qed.

Lemma keepsDates_filterBucket idx : keepsDates (filterBucket fl idx).
Proof.
  unfold filterBucket.
  apply keepsDates_bind; [apply keepsDates_pureFilter|]. intros _.
  apply keepsDates_bind; [apply keepsDates_pureFilter|]. intros _.
  apply keepsDates_bind; [apply keepsDates_pureFilter|]. intros _.
  apply keepsDates_bind; [apply keepsDates_locateEntries|]. intros _.
  apply keepsDates_localeFilter.
Qed.

Lemma keepsDates_applyEntryFilters : keepsDates (applyEntryFilters fl).
Proof.
  unfold applyEntryFilters.
  apply keepsDates_bind; [intros st; reflexivity|]. intros n.
  apply keepsDates_forEach. apply keepsDates_filterBucket.
Qed.

Lemma filteredStore_lookup store : forall n i d,
  store !! i = Some d ->
  exists m,
    filteredStore fl n store !! i
    = Some (withEntries d (localeStage fl (locatedFrom m (survivors fl (Entries d))))).
Proof.
  induction store as [|b rest IH]; intros n i d H; [discriminate|].
  destruct i as [|i]; simpl in *.
  - injection H as ->. exists n. reflexivity.
  - apply IH. exact H.
Qed.

Lemma localeStage_nil : localeStage fl [] = [].
Proof.
  unfold localeStage, stage.
  destruct (regexpCompile (locale fl)); destruct (nonEmpty (locale fl)); reflexivity.
Qed.

(** C7: however a run of the filter pipeline ends, the store has the same
    buckets with the same dates in the same positions as before: no bucket
    is removed and no [Date] changes, so only [Entries] can differ; and
    when the run returns, a bucket none of whose entries passes the
    filters is still there, as an empty bucket. *)
Theorem filters_keep_buckets (st : state) :
  let st' := snd (applyEntryFilters fl st) in
  map Date (heap st') = map Date (heap st) /\
  length (heap st') = length (heap st) /\
  (forall i d, heap st !! i = Some d ->
     exists d', heap st' !! i = Some d' /\ d' = withEntries d (Entries d')) /\
  (forall i d,
     fst (applyEntryFilters fl st) = Returned tt ->
     heap st !! i = Some d ->
     survivors fl (Entries d) = [] ->
     heap st' !! i = Some (withEntries d [])).
Proof.
  intros st'. pose proof (keepsDates_applyEntryFilters st) as Hk.
  fold st' in Hk. unfold sameDates in Hk.
  assert (Hlen : length (heap st') = length (heap st)).
  { rewrite <- (length_map Date (heap st')), Hk, length_map. reflexivity. }
  split; [exact Hk|]. split; [exact Hlen|]. split.
  - intros i d Hd.
    destruct (heap st' !! i) as [d'|] eqn:Hd'.
    + exists d'. split; [reflexivity|].
      assert (Hdate : map Date (heap st') !! i = Some (Date d'))
        by (rewrite list_lookup_fmap, Hd'; reflexivity).
      rewrite Hk, list_lookup_fmap, Hd in Hdate. simpl in Hdate.
      injection Hdate as Hdate. destruct d'. unfold withEntries. simpl in *.
      congruence.
    + apply lookup_ge_None in Hd'. apply lookup_lt_Some in Hd. lia.
  - intros i d Hret Hd Hsv. subst st'.
    destruct (nonEmpty (locale fl)) eqn:Hon;
      [destruct (regexpCompile (locale fl)) as [rx|err] eqn:Hrx|].
    + rewrite applyEntryFilters_ok by (right; exists rx; exact Hrx). simpl.
      destruct (filteredStore_lookup (heap st) (requests st) i d Hd) as [m Hm].
      rewrite Hm, Hsv. simpl. rewrite localeStage_nil. reflexivity.
    + destruct (filterLoop_bad fl err (heap st) [] st Hon Hrx eq_refl) as [Hnone Hsome].
      unfold applyEntryFilters, forRange in *.
      rewrite (bind_Returned _ _ _ (length (heap st)) st) in * by reflexivity.
      simpl in Hnone, Hsome.
      destruct (allSurvivors fl (heap st)) as [|ae rest] eqn:Hall.
      * rewrite (Hnone eq_refl). simpl. rewrite list_lookup_fmap, Hd. reflexivity.
      * destruct Hsome as (st' & Hrun & _); [discriminate|].
        rewrite Hrun in Hret. discriminate.
    + rewrite applyEntryFilters_ok by (left; exact Hon). simpl.
      destruct (filteredStore_lookup (heap st) (requests st) i d Hd) as [m Hm].
      rewrite Hm, Hsv. simpl. rewrite localeStage_nil. reflexivity.
Qed.

End Dates.

(** ** The filter pipeline as a whole *)

Section Filters.

Context {E : Env}.
Variable fl : flags.

Lemma requestedIPs_app t1 t2 :
  requestedIPs (t1 ++ t2) = requestedIPs t1 ++ requestedIPs t2.
Proof. apply omap_app. Qed.

Lemma requestedIPs_lookupEvents n ae : requestedIPs (lookupEvents fl n ae) = [IP ae].
Proof.
  unfold lookupEvents.
  destruct (debugOn fl); destruct (network n (IP ae)); reflexivity.
Qed.

Lemma requestedIPs_lookupTrace es : forall n,
  requestedIPs (lookupTrace fl n es) = map IP es.
Proof.
  induction es as [|ae rest IH]; intros n; simpl; [reflexivity|].
  rewrite requestedIPs_app, requestedIPs_lookupEvents, IH. reflexivity.
Qed.

Lemma requestedIPs_filterTrace store : forall n,
  requestedIPs (filterTrace fl n store) = map IP (allSurvivors fl store).
Proof.
  induction store as [|d rest IH]; intros n; simpl; [reflexivity|].
  unfold allSurvivors in *. simpl.
  rewrite requestedIPs_app, requestedIPs_lookupTrace, IH, map_app. reflexivity.
Qed.

(** C3: in every run in which the location filter can run at all (it is
    off, or its pattern compiles), the pipeline returns and has made one
    lookup for each entry that passes the count, IP and user filters, in
    store order and whether or not a location filter was given; so
    without a location filter every surviving entry is still looked up. *)
Theorem lookup_for_every_survivor (st : state) :
  patternUsable fl ->
  exists st',
    applyEntryFilters fl st = (Returned tt, st') /\
    requestedIPs (trace st') = requestedIPs (trace st) ++ map IP (allSurvivors fl (heap st)) /\
    requests st' = (requests st + length (allSurvivors fl (heap st)))%nat /\
    (locale fl = "" -> allSurvivors fl (heap st) <> [] ->
     requestedIPs (trace st') <> requestedIPs (trace st)).
Proof.
  intros Hp. eexists. split; [apply applyEntryFilters_ok; exact Hp|]. simpl.
  rewrite requestedIPs_app, requestedIPs_filterTrace.
  split; [reflexivity|]. split; [reflexivity|].
  intros _ Hne Heq.
  apply (f_equal (@length string)) in Heq. rewrite length_app, length_map in Heq.
  destruct (allSurvivors fl (heap st)); [congruence | simpl in Heq; lia].
Qed.

(** *** No filter criteria *)

Lemma survivors_off es :
  threshold fl = 0 -> address fl = "" -> user fl = "" -> survivors fl es = es.
Proof.
  intros Ht Ha Hu. unfold survivors. rewrite Ht, Ha, Hu. reflexivity.
Qed.

Lemma forget_locatedFrom es : forall n,
  map forgetLocation (locatedFrom n es) = map forgetLocation es.
Proof.
  induction es as [|ae rest IH]; intros n; simpl; [reflexivity|].
  rewrite IH. reflexivity.
Qed.

Lemma localeStage_off es : locale fl = "" -> localeStage fl es = es.
Proof.
  intros Hl. unfold localeStage. rewrite Hl.
  destruct (regexpCompile ""); reflexivity.
Qed.

Lemma forget_filteredStore store : forall n,
  threshold fl = 0 -> address fl = "" -> user fl = "" -> locale fl = "" ->
  forgetLocations (filteredStore fl n store) = forgetLocations store.
Proof.
  induction store as [|d rest IH]; intros n Ht Ha Hu Hl; simpl; [reflexivity|].
  rewrite (survivors_off _ Ht Ha Hu), (localeStage_off _ Hl).
  unfold forgetLocations in *. simpl.
  rewrite forget_locatedFrom, IH by assumption. reflexivity.
Qed.

(** C4: with threshold [0] and no IP, user or location filter, the count
    filter step does nothing at all, and the whole pipeline returns with a
    store that differs from the one it started with only in the
    [Location] fields: same buckets, same dates, same entries in the same
    order with the same [IP], [Count] and [Users]. *)
Theorem no_criteria_is_identity (st : state) :
  threshold fl = 0 -> address fl = "" -> user fl = "" -> locale fl = "" ->
  (forall idx st0, countFilter fl idx st0 = (Returned tt, st0)) /\
  exists st',
    applyEntryFilters fl st = (Returned tt, st') /\
    forgetLocations (heap st') = forgetLocations (heap st).
Proof.
  intros Ht Ha Hu Hl. split.
  - intros idx st0. unfold countFilter. rewrite Ht. reflexivity.
  - eexists. split.
    + apply applyEntryFilters_ok. left. rewrite Hl. reflexivity.
    + simpl. apply forget_filteredStore; assumption.
Qed.

(** *** The order of the count and IP filters *)



Lemma elem_of_stage on p es ae :
  ae ∈ stage on p es <-> ae ∈ es /\ (on = true -> p ae = true).
Proof.
  unfold stage. destruct on.
  - rewrite !list_elem_of_In, filter_In. tauto.
  - split; [intros H; split; [exact H | discriminate] | tauto].
Qed.




End Filters.

(** ** Failures: lookups and patterns *)

Section Failures.

Context {E : Env}.
Variable fl : flags.

Lemma locatedFrom_lookup es : forall n i ae,
  es !! i = Some ae ->
  locatedFrom n es !! i = Some (withLocation ae (replyLocation (n + i) ae)).
Proof.
  induction es as [|a rest IH]; intros n i ae H; [discriminate|].
  destruct i as [|i]; simpl in *.
  - injection H as ->. rewrite Nat.add_0_r. reflexivity.
  - rewrite (IH (S n) i ae H). rewrite Nat.add_succ_r. reflexivity.
Qed.

Lemma lookupTrace_elem es : forall n i ae e,
  es !! i = Some ae ->
  e ∈ lookupEvents fl (n + i) ae ->
  e ∈ lookupTrace fl n es.
Proof.
  induction es as [|a rest IH]; intros n i ae e H He; [discriminate|].
  destruct i as [|i]; simpl in *.
  - injection H as ->. rewrite Nat.add_0_r in He.
    apply elem_of_app. left. exact He.
  - apply elem_of_app. right. apply (IH (S n) i ae e H).
    rewrite Nat.add_succ_r in He. exact He.
Qed.

(** C8: the lookup step of a bucket always returns, whatever the service
    answers; it makes one request per entry of the bucket, in order, and
    leaves in the bucket as many entries as before, each with its [IP],
    [Count] and [Users].  Where the request of an entry fails, the error
    is logged and the entry stays with the zero-value [Location].  The
    whole pipeline returns as well whenever the location filter can run. *)
Theorem lookup_failure_keeps_entry (idx : nat) (st : state) (d : datedAuthEntries) :
  heap st !! idx = Some d ->
  (exists st' located,
     locateEntries fl idx st = (Returned tt, st') /\
     heap st' !! idx = Some (withEntries d located) /\
     length located = length (Entries d) /\
     requests st' = (requests st + length (Entries d))%nat /\
     requestedIPs (trace st') = requestedIPs (trace st) ++ map IP (Entries d) /\
     forall i ae,
       Entries d !! i = Some ae ->
       exists ae',
         located !! i = Some ae' /\
         forgetLocation ae' = forgetLocation ae /\
         forall err,
           network (requests st + i) (IP ae) = inr err ->
           Location ae' = zeroLocation /\
           LogPrintf "error getting location data for IP '%s': %s"
             [VString (IP ae); VString err] ∈ trace st') /\
  (patternUsable fl -> fst (applyEntryFilters fl st) = Returned tt).
Proof.
  intros H. pose proof (lookup_lt_Some _ _ _ H) as Hlt. split.
  - eexists. exists (locatedFrom (requests st) (Entries d)).
    split; [apply locateEntries_run; exact H|]. simpl.
    split; [apply list_lookup_insert_eq; exact Hlt|].
    split; [apply locatedFrom_length|].
    split; [reflexivity|].
    split; [rewrite requestedIPs_app, requestedIPs_lookupTrace; reflexivity|].
    intros i ae Hi. eexists.
    split; [apply locatedFrom_lookup; exact Hi|].
    split; [reflexivity|].
    intros err Herr. split.
    + simpl. unfold replyLocation. rewrite Herr. reflexivity.
    + apply elem_of_app. right.
      apply (lookupTrace_elem _ _ i ae _ Hi).
      unfold lookupEvents. rewrite Herr.
      rewrite !elem_of_app. right. right. apply list_elem_of_singleton. reflexivity.
  - intros Hp. rewrite applyEntryFilters_ok by exact Hp. reflexivity.
Qed.

(** C10: with a location filter whose pattern does not compile, the
    pipeline panics in [regexp.MustCompile], at its first call, as soon
    as one entry reaches the location filter, and returns without any
    call when no entry does; with a pattern that compiles,
    [regexp.MustCompile] is called once for every entry that reaches the
    location filter. *)
Theorem invalid_pattern_panics (st : state) :
  nonEmpty (locale fl) = true ->
  (forall err,
     regexpCompile (locale fl) = inr err ->
     (allSurvivors fl (heap st) <> [] ->
      exists st',
        applyEntryFilters fl st = (Panicked (compilePanic fl err), st') /\
        compiles st' = S (compiles st)) /\
     (allSurvivors fl (heap st) = [] ->
      exists st',
        applyEntryFilters fl st = (Returned tt, st') /\
        compiles st' = compiles st)) /\
  (forall rx,
     regexpCompile (locale fl) = inl rx ->
     exists st',
       applyEntryFilters fl st = (Returned tt, st') /\
       compiles st' = (compiles st + length (allSurvivors fl (heap st)))%nat).
Proof.
  intros Hon. split.
  - intros err Hrx.
    destruct (filterLoop_bad fl err (heap st) [] st Hon Hrx eq_refl) as [Hret Hpanic].
    unfold applyEntryFilters, forRange.
    rewrite (bind_Returned _ _ _ (length (heap st)) st) by reflexivity.
    split.
    + intros Hne. exact (Hpanic Hne).
    + intros Hnil. eexists. split; [exact (Hret Hnil) | reflexivity].
  - intros rx Hrx. eexists. split.
    + apply applyEntryFilters_ok. right. exists rx. exact Hrx.
    + simpl. unfold compileCalls. rewrite Hon. reflexivity.
Qed.

End Failures.

(** ** The parser *)

Section Parser.

Context {E : Env}.

Lemma existsFrom_true es : forall k ip idx,
  existsFrom k es ip = (idx, true) ->
  exists j ae, idx = (k + j)%nat /\ es !! j = Some ae /\ IP ae = ip.
Proof.
  induction es as [|a rest IH]; intros k ip idx H; simpl in H; [discriminate|].
  destruct (String.eqb_spec (IP a) ip) as [Heq|Hne].
  - injection H as <-. exists 0%nat, a. rewrite Nat.add_0_r. auto.
  - destruct (IH _ _ _ H) as (j & ae & -> & Hj & Hip).
    exists (S j), ae. rewrite Nat.add_succ_r. auto.
Qed.

Lemma existsFrom_false es : forall k ip idx,
  existsFrom k es ip = (idx, false) -> ip ∉ map IP es.
Proof.
  induction es as [|a rest IH]; intros k ip idx H; simpl in *.
  - apply not_elem_of_nil.
  - destruct (String.eqb_spec (IP a) ip) as [Heq|Hne]; [discriminate|].
    apply not_elem_of_cons. split; [congruence | eapply IH; exact H].
Qed.

(** The two ways an attempt changes a bucket. *)
Lemma recordInBucket_cases d ip u :
  (exists j ae,
     Entries d !! j = Some ae /\ IP ae = ip /\
     recordInBucket d ip u = withEntries d (<[j := addUser ae u]> (Entries d))) \/
  ((ip ∉ map IP (Entries d)) /\
   recordInBucket d ip u = withEntries d (Entries d ++ [newEntry ip u])).
Proof.
  unfold recordInBucket, exists_.
  destruct (existsFrom 0 (Entries d) ip) as [idx [|]] eqn:Hex.
  - left. destruct (existsFrom_true _ _ _ _ Hex) as (j & ae & -> & Hj & Hip).
    simpl. exists j, ae. rewrite Hj. auto.
  - right. split; [eapply existsFrom_false; exact Hex | reflexivity].
Qed.

Lemma findDateFrom_Some s : forall k dt i,
  findDateFrom k s dt = Some i ->
  exists j d, i = (k + j)%nat /\ s !! j = Some d /\ Date d = dt.
Proof.
  induction s as [|b rest IH]; intros k dt i H; simpl in H; [discriminate|].
  destruct (String.eqb_spec (Date b) dt) as [Heq|Hne].
  - injection H as <-. exists 0%nat, b. rewrite Nat.add_0_r. auto.
  - destruct (IH _ _ _ H) as (j & d & -> & Hj & Hd).
    exists (S j), d. rewrite Nat.add_succ_r. auto.
Qed.

Lemma findDateFrom_None s : forall k dt,
  findDateFrom k s dt = None -> dt ∉ map Date s.
Proof.
  induction s as [|b rest IH]; intros k dt H; simpl in *.
  - apply not_elem_of_nil.
  - destruct (String.eqb_spec (Date b) dt) as [Heq|Hne]; [discriminate|].
    apply not_elem_of_cons. split; [congruence | eapply IH; exact H].
Qed.

(** The three ways an attempt changes the store. *)
Lemma recordAttempt_cases s a :
  (exists i d j ae,
     s !! i = Some d /\ Date d = attemptDate a /\
     Entries d !! j = Some ae /\ IP ae = attemptIP a /\
     recordAttempt s a
     = <[i := withEntries d (<[j := addUser ae (attemptUser a)]> (Entries d))]> s) \/
  (exists i d,
     s !! i = Some d /\ Date d = attemptDate a /\
     (attemptIP a ∉ map IP (Entries d)) /\
     recordAttempt s a
     = <[i := withEntries d (Entries d ++ [newEntry (attemptIP a) (attemptUser a)])]> s) \/
  ((attemptDate a ∉ map Date s) /\
   recordAttempt s a
   = s ++ [ {| Date := attemptDate a;
               Entries := [newEntry (attemptIP a) (attemptUser a)] |} ]).
Proof.
  unfold recordAttempt.
  destruct (findDateFrom 0 s (attemptDate a)) as [i|] eqn:Hfind.
  - destruct (findDateFrom_Some _ _ _ _ Hfind) as (j & d & -> & Hj & Hd).
    simpl. rewrite Hj.
    destruct (recordInBucket_cases d (attemptIP a) (attemptUser a))
      as [(k & ae & Hk & Hip & ->) | (Hnew & ->)].
    + left. exists j, d, k, ae. auto.
    + right. left. exists j, d. auto.
  - right. right. split; [eapply findDateFrom_None; exact Hfind | reflexivity].
Qed.

Lemma map_IP_addUser es j ae u :
  es !! j = Some ae -> map IP (<[j := addUser ae u]> es) = map IP es.
Proof.
  intros H. rewrite list_fmap_insert, addUser_IP.
  apply list_insert_id. rewrite list_lookup_fmap, H. reflexivity.
Qed.

Lemma map_Date_insert (s : allEntries) i d es :
  s !! i = Some d -> map Date (<[i := withEntries d es]> s) = map Date s.
Proof.
  intros H. rewrite list_fmap_insert. simpl.
  apply list_insert_id. rewrite list_lookup_fmap, H. reflexivity.
Qed.

Lemma NoDup_snoc_fresh (l : list string) x : NoDup l -> x ∉ l -> NoDup (l ++ [x]).
Proof.
  intros Hl Hx. apply NoDup_app. split; [exact Hl|]. split; [|apply NoDup_singleton].
  intros y Hy Hy'. apply list_elem_of_singleton in Hy'. subst y. contradiction.
Qed.

Lemma recordAttempt_uniqueIPs s a : uniqueIPs s -> uniqueIPs (recordAttempt s a).
Proof.
  unfold uniqueIPs. intros Hs.
  destruct (recordAttempt_cases s a)
    as [(i & d & j & ae & Hi & Hd & Hj & Hip & ->)
       | [(i & d & Hi & Hd & Hnew & ->) | (Hnew & ->)]].
  - apply Forall_insert; [exact Hs|]. simpl.
    rewrite (map_IP_addUser _ _ _ _ Hj).
    exact (proj1 (Forall_lookup _ _) Hs i d Hi).
  - apply Forall_insert; [exact Hs|]. simpl. rewrite map_app. simpl.
    apply NoDup_snoc_fresh; [|exact Hnew].
    exact (proj1 (Forall_lookup _ _) Hs i d Hi).
  - apply Forall_app. split; [exact Hs|].
    apply Forall_singleton. simpl. apply NoDup_singleton.
Qed.

Lemma recordAttempt_dates s a :
  NoDup (map Date s) -> NoDup (map Date (recordAttempt s a)).
Proof.
  intros Hs.
  destruct (recordAttempt_cases s a)
    as [(i & d & j & ae & Hi & Hd & Hj & Hip & ->)
       | [(i & d & Hi & Hd & Hnew & ->) | (Hnew & ->)]].
  - rewrite (map_Date_insert _ _ _ _ Hi). exact Hs.
  - rewrite (map_Date_insert _ _ _ _ Hi). exact Hs.
  - rewrite map_app. simpl. apply NoDup_snoc_fresh; assumption.
Qed.

Lemma countsBounded_mono n m s : n <= m -> countsBounded n s -> countsBounded m s.
Proof.
  intros Hnm. unfold countsBounded. intros Hs.
  eapply Forall_impl; [exact Hs|]. intros d Hd. simpl in *.
  eapply Forall_impl; [exact Hd|]. intros ae Hae. simpl in *. lia.
Qed.

Lemma max_int_value : GoInt.max_int = 9223372036854775807.
Proof. reflexivity. Qed.

Lemma min_int_value : GoInt.min_int = -9223372036854775808.
Proof. reflexivity. Qed.

Lemma recordAttempt_bounded n s a :
  0 <= n < GoInt.max_int ->
  countsBounded n s -> countsBounded (n + 1) (recordAttempt s a).
Proof.
  intros Hn Hs. pose proof (countsBounded_mono n (n + 1) s ltac:(lia) Hs) as Hs'.
  unfold countsBounded in *.
  destruct (recordAttempt_cases s a)
    as [(i & d & j & ae & Hi & Hd & Hj & Hip & ->)
       | [(i & d & Hi & Hd & Hnew & ->) | (Hnew & ->)]].
  - apply Forall_insert; [exact Hs'|]. simpl.
    pose proof (proj1 (Forall_lookup _ _) Hs i d Hi) as Hdb. simpl in Hdb.
    pose proof (proj1 (Forall_lookup _ _) Hdb j ae Hj) as Hae. simpl in Hae.
    apply Forall_insert.
    + eapply Forall_impl; [exact Hdb|]. intros x Hx. simpl in *. lia.
    + rewrite addUser_Count, incr_below_max; [lia|].
      rewrite min_int_value. lia.
  - apply Forall_insert; [exact Hs'|]. simpl.
    pose proof (proj1 (Forall_lookup _ _) Hs' i d Hi) as Hdb. simpl in Hdb.
    apply Forall_app. split; [exact Hdb|].
    apply Forall_singleton. simpl. lia.
  - apply Forall_app. split; [exact Hs'|].
    apply Forall_singleton. simpl. apply Forall_singleton. simpl. lia.
Qed.

Lemma parseSSHAttempts_snoc pre line :
  parseSSHAttempts (pre ++ [line]) = parseLine (parseSSHAttempts pre) line.
Proof. unfold parseSSHAttempts. rewrite fold_left_app. reflexivity. Qed.

Lemma parse_uniqueIPs file : uniqueIPs (parseSSHAttempts file).
Proof.
  induction file as [|line pre IH] using rev_ind.
  - apply Forall_nil_2.
  - rewrite parseSSHAttempts_snoc. unfold parseLine.
    destruct (matchLine line); [apply recordAttempt_uniqueIPs|]; exact IH.
Qed.

Lemma parse_dates_unique file : NoDup (map Date (parseSSHAttempts file)).
Proof.
  induction file as [|line pre IH] using rev_ind.
  - apply NoDup_nil_2.
  - rewrite parseSSHAttempts_snoc. unfold parseLine.
    destruct (matchLine line); [apply recordAttempt_dates|]; exact IH.
Qed.

Lemma parse_bounded file :
  Z.of_nat (length file) <= GoInt.max_int ->
  countsBounded (Z.of_nat (length file)) (parseSSHAttempts file).
Proof.
  induction file as [|line pre IH] using rev_ind; intros Hlen.
  - apply Forall_nil_2.
  - rewrite length_app in *. simpl in *.
    rewrite parseSSHAttempts_snoc. unfold parseLine.
    replace (Z.of_nat (length pre + 1)) with (Z.of_nat (length pre) + 1) by lia.
    destruct (matchLine line).
    + apply recordAttempt_bounded; [lia|]. apply IH. lia.
    + eapply countsBounded_mono; [|apply IH; lia]. lia.
Qed.

End Parser.

Section ParserCounts.

Context {E : Env}.

Lemma countAt_insert_other (s : allEntries) i d' i' j' :
  i' <> i -> countAt (<[i := d']> s) i' j' = countAt s i' j'.
Proof.
  intros Hne. unfold countAt. rewrite list_lookup_insert_ne by congruence. reflexivity.
Qed.

Lemma countAt_insert_same (s : allEntries) i d' j' :
  (i < length s)%nat ->
  countAt (<[i := d']> s) i j'
  = match Entries d' !! j' with Some ae => Some (Count ae) | None => None end.
Proof.
  intros Hlt. unfold countAt. rewrite list_lookup_insert_eq by exact Hlt. reflexivity.
Qed.

Lemma lookup_snoc_other {A} (l : list A) (x : A) j :
  j <> length l -> (l ++ [x]) !! j = l !! j.
Proof.
  intros Hne. destruct (Nat.lt_ge_cases j (length l)) as [Hlt|Hge].
  - apply lookup_app_l. exact Hlt.
  - rewrite (lookup_ge_None_2 l j Hge). apply lookup_ge_None_2.
    rewrite length_app. simpl. lia.
Qed.

Lemma recordAttempt_incrementsOne n s a :
  0 <= n < GoInt.max_int ->
  countsBounded n s ->
  incrementsOne (attemptDate a) (attemptIP a) s (recordAttempt s a).
Proof.
  intros Hn Hs. unfold incrementsOne.
  destruct (recordAttempt_cases s a)
    as [(i & d & j & ae & Hi & Hd & Hj & Hip & ->)
       | [(i & d & Hi & Hd & Hnew & ->) | (Hnew & ->)]].
  - pose proof (lookup_lt_Some _ _ _ Hi) as Hilt.
    pose proof (lookup_lt_Some _ _ _ Hj) as Hjlt.
    pose proof (proj1 (Forall_lookup _ _) Hs i d Hi) as Hdb. simpl in Hdb.
    pose proof (proj1 (Forall_lookup _ _) Hdb j ae Hj) as Hae. simpl in Hae.
    exists i, j. eexists. exists (addUser ae (attemptUser a)).
    split; [apply list_lookup_insert_eq; exact Hilt|].
    split; [simpl; apply list_lookup_insert_eq; exact Hjlt|].
    split; [exact Hd|]. split; [rewrite addUser_IP; exact Hip|]. split.
    + unfold countAt. rewrite Hi, Hj. simpl.
      rewrite addUser_Count. apply incr_below_max. rewrite min_int_value. lia.
    + intros i' j' Hne. destruct (decide (i' = i)) as [->|Hi'].
      * rewrite countAt_insert_same by exact Hilt. simpl.
        rewrite list_lookup_insert_ne by congruence.
        unfold countAt. rewrite Hi. reflexivity.
      * apply countAt_insert_other. exact Hi'.
  - pose proof (lookup_lt_Some _ _ _ Hi) as Hilt.
    exists i, (length (Entries d)). eexists.
    exists (newEntry (attemptIP a) (attemptUser a)).
    split; [apply list_lookup_insert_eq; exact Hilt|].
    split; [simpl; apply list_lookup_middle; reflexivity|].
    split; [exact Hd|]. split; [reflexivity|]. split.
    + unfold countAt. rewrite Hi.
      rewrite (lookup_ge_None_2 (Entries d) (length (Entries d))) by lia.
      reflexivity.
    + intros i' j' Hne. destruct (decide (i' = i)) as [->|Hi'].
      * rewrite countAt_insert_same by exact Hilt. simpl.
        rewrite lookup_snoc_other by congruence.
        unfold countAt. rewrite Hi. reflexivity.
      * apply countAt_insert_other. exact Hi'.
  - exists (length s), 0%nat. eexists.
    exists (newEntry (attemptIP a) (attemptUser a)).
    split; [apply list_lookup_middle; reflexivity|].
    split; [reflexivity|]. split; [reflexivity|]. split; [reflexivity|]. split.
    + unfold countAt. rewrite (lookup_ge_None_2 s (length s)) by lia. reflexivity.
    + intros i' j' Hne. unfold countAt.
      destruct (decide (i' = length s)) as [->|Hi'].
      * rewrite list_lookup_middle by reflexivity.
        rewrite (lookup_ge_None_2 s (length s)) by lia. simpl.
        destruct j' as [|j']; [congruence | reflexivity].
      * rewrite lookup_snoc_other by exact Hi'. reflexivity.
Qed.

End ParserCounts.

(** ** The date filter and [main] *)

Section DateFilter.

Context {E : Env}.
Variable fl : flags.

Lemma applyDateFilter_Some dae : forall r,
  applyDateFilter fl dae = Some r ->
  exists pre day post,
    dae = pre ++ day :: post /\ r = [day] /\ Date day = date fl /\
    forall d, d ∈ pre -> Date d <> date fl.
Proof.
  induction dae as [|b rest IH]; intros r H; simpl in H; [discriminate|].
  destruct (String.eqb_spec (Date b) (date fl)) as [Heq|Hne].
  - injection H as <-. exists [], b, rest.
    split; [reflexivity|]. split; [reflexivity|]. split; [exact Heq|].
    intros d Hd. inversion Hd.
  - destruct (IH r H) as (pre & day & post & -> & -> & Hday & Hpre).
    exists (b :: pre), day, post.
    split; [reflexivity|]. split; [reflexivity|]. split; [exact Hday|].
    intros d Hd. apply elem_of_cons in Hd as [->|Hd]; [exact Hne | apply Hpre; exact Hd].
Qed.

Lemma applyDateFilter_None dae :
  (forall day, day ∈ dae -> Date day <> date fl) -> applyDateFilter fl dae = None.
Proof.
  induction dae as [|b rest IH]; intros H; simpl; [reflexivity|].
  destruct (String.eqb_spec (Date b) (date fl)) as [Heq|Hne].
  - exfalso. apply (H b); [apply list_elem_of_here | exact Heq].
  - apply IH. intros day Hday. apply H. apply list_elem_of_further. exact Hday.
Qed.

Lemma applyDateFilter_unique dae : forall day,
  NoDup (map Date dae) -> day ∈ dae -> Date day = date fl ->
  applyDateFilter fl dae = Some [day].
Proof.
  induction dae as [|b rest IH]; intros day Hnd Hin Hday; [inversion Hin|].
  simpl in Hnd. apply NoDup_cons in Hnd as [Hb Hnd]. simpl.
  apply elem_of_cons in Hin as [->|Hin].
  - rewrite Hday, String.eqb_refl. reflexivity.
  - destruct (String.eqb_spec (Date b) (date fl)) as [Heq|Hne].
    + exfalso. apply Hb. rewrite Heq, <- Hday.
      apply list_elem_of_In, in_map, list_elem_of_In. exact Hin.
    + apply IH; assumption.
Qed.

Lemma debug_run format args st :
  debug fl format args st
  = (Returned tt,
     appendTrace (if debugOn fl then [LogPrintf format args] else []) st).
Proof.
  unfold debug, when. destruct (debugOn fl); [reflexivity|].
  rewrite appendTrace_nil. reflexivity.
Qed.

Lemma main_stops_without_date file st :
  openFile (filename fl) = inl file ->
  nonEmpty (date fl) = true ->
  applyDateFilter fl (parseSSHAttempts file) = None ->
  main fl st
  = (Returned tt,
     appendTrace (preludeTrace fl file
                  ++ [LogPrintf "found no date matching supplied filter; exiting" []]) st).
Proof.
  intros Hopen Hdate Hnone. unfold main. rewrite Hopen.
  rewrite (bind_Returned _ _ _ _ _ (debug_run _ _ _)).
  assert (Hspin : forall s,
            when (negb (debugOn fl)) (emit SpinnerStart) s
            = (Returned tt, appendTrace (if negb (debugOn fl) then [SpinnerStart] else []) s)).
  { intros s. unfold when. destruct (negb (debugOn fl)); [reflexivity|].
    rewrite appendTrace_nil. reflexivity. }
  rewrite (bind_Returned _ _ _ _ _ (Hspin _)).
  rewrite (bind_Returned _ _ _ _ _ (debug_run _ _ _)).
  rewrite (bind_Returned _ _ _ _ _ (debug_run _ _ _)).
  rewrite Hdate, Hnone, emit_run, !appendTrace_app.
  unfold preludeTrace. rewrite <- !app_assoc. reflexivity.
Qed.

Lemma preludeTrace_silent file :
  requestedIPs (preludeTrace fl file) = [] /\ stdoutOf (preludeTrace fl file) = [].
Proof. unfold preludeTrace. destruct (debugOn fl); split; reflexivity. Qed.

End DateFilter.

(** * The theorems at work on the example of the spec *)

Example parse_demo : @parseSSHAttempts Demo.world Demo.authLog = Demo.store.
Proof. reflexivity. Qed.

(** A threshold of [2] removes the entry of "Jan 2" and leaves its bucket,
    empty; the entry of "Jan 1" gets its location. *)
Example threshold_two_demo :
  heap (snd (@applyEntryFilters Demo.world Demo.atLeastTwo (Demo.stateOf Demo.store)))
  = [ {| Date := "Jan 1";
         Entries := [ {| IP := "10.0.0.1"; Location := Demo.berlin; Count := 2;
                         Users := ["admin"; "root"] |} ] |};
      {| Date := "Jan 2"; Entries := [] |} ].
Proof. vm_compute. reflexivity. Qed.

(** The failed lookup of [10.0.0.2] is logged and its entry is kept. *)
Example failed_lookup_demo :
  @applyEntryFilters Demo.world defaultFlags (Demo.stateOf Demo.store)
  = (Returned tt,
     {| heap :=
          [ {| Date := "Jan 1";
               Entries := [ {| IP := "10.0.0.1"; Location := Demo.berlin; Count := 2;
                               Users := ["admin"; "root"] |} ] |};
            {| Date := "Jan 2";
               Entries := [ {| IP := "10.0.0.2"; Location := zeroLocation; Count := 1;
                               Users := ["admin"] |} ] |} ];
        requests := 2; compiles := 0;
        trace :=
          [ Request "http://ip-api.com/" "10.0.0.1";
            Request "http://ip-api.com/" "10.0.0.2";
            LogPrintf "error getting location data for IP '%s': %s"
              [VString "10.0.0.2"; VString "request timed out"] ] |}).
Proof. vm_compute. reflexivity. Qed.

(** A pattern that does not compile: the run panics at the first entry. *)
Example bad_pattern_demo :
  fst (@applyEntryFilters Demo.world Demo.badPattern (Demo.stateOf Demo.store))
  = Panicked "regexp: Compile(`(`): missing closing )".
Proof. vm_compute. reflexivity. Qed.

Example bad_pattern_empty_store_demo :
  fst (@applyEntryFilters Demo.world Demo.badPattern
         (Demo.stateOf [ {| Date := "Jan 1"; Entries := [] |} ]))
  = Returned tt.
Proof. vm_compute. reflexivity. Qed.

(** With [-n 2], [main] prints the entry of "Jan 1" and both headers. *)
Example main_demo :
  let r := @main Demo.world Demo.atLeastTwo initialState in
  fst r = Returned tt /\
  stdoutOf (trace (snd r))
  = [ String.append "Date: Jan 1" nl; String.append "IP: 10.0.0.1" nl; "Location: ";
      String.append "Berlin, Berlin, Germany (0.000000, 0.000000)" nl;
      "Attempts: "; String.append "2" nl;
      "Usernames: "; String.append "admin, root" nl; nl;
      String.append "Date: Jan 2" nl; nl ] /\
  requestedIPs (trace (snd r)) = ["10.0.0.1"].
Proof. vm_compute. repeat split; reflexivity. Qed.

(** With [-d "Feb 30"], [main] only logs that the date was not found. *)
Example main_missing_date_demo :
  @main Demo.world Demo.onFeb30 initialState
  = (Returned tt,
     {| heap := []; requests := 0; compiles := 0;
        trace := [ SpinnerStart;
                   LogPrintf "found no date matching supplied filter; exiting" [] ] |}).
Proof. vm_compute. reflexivity. Qed.

Lemma lookup_for_every_survivor_witness :
  @patternUsable Demo.world defaultFlags /\
  exists st',
    @applyEntryFilters Demo.world defaultFlags (Demo.stateOf Demo.store)
    = (Returned tt, st') /\
    requestedIPs (trace st') = ["10.0.0.1"; "10.0.0.2"] /\
    requestedIPs (trace st') <> requestedIPs (trace (Demo.stateOf Demo.store)).
Proof.
  assert (Hp : @patternUsable Demo.world defaultFlags) by (left; reflexivity).
  split; [exact Hp|].
  destruct (@lookup_for_every_survivor Demo.world defaultFlags
              (Demo.stateOf Demo.store) Hp) as (st' & Hrun & Hreq & _ & Hsome).
  exists st'. split; [exact Hrun|]. split.
  - rewrite Hreq. reflexivity.
  - apply Hsome; [reflexivity | discriminate].
Defined.

Lemma no_criteria_is_identity_witness :
  threshold defaultFlags = 0 /\ address defaultFlags = "" /\
  user defaultFlags = "" /\ locale defaultFlags = "" /\
  exists st',
    @applyEntryFilters Demo.world defaultFlags (Demo.stateOf Demo.store)
    = (Returned tt, st') /\
    forgetLocations (heap st') = forgetLocations Demo.store.
Proof.
  repeat (split; [reflexivity|]).
  exact (proj2 (@no_criteria_is_identity Demo.world defaultFlags
                  (Demo.stateOf Demo.store) eq_refl eq_refl eq_refl eq_refl)).
Defined.


Lemma filters_keep_buckets_witness :
  let st' := snd (@applyEntryFilters Demo.world Demo.atLeastTwo (Demo.stateOf Demo.store)) in
  map Date (heap st') = ["Jan 1"; "Jan 2"] /\
  heap st' !! 1%nat = Some {| Date := "Jan 2"; Entries := [] |}.
Proof.
  intros st'.
  destruct (@filters_keep_buckets Demo.world Demo.atLeastTwo (Demo.stateOf Demo.store))
    as (Hdates & _ & _ & Hempty).
  split; [exact Hdates|].
  apply (Hempty 1%nat
           {| Date := "Jan 2";
              Entries := [ {| IP := "10.0.0.2"; Location := zeroLocation; Count := 1;
                              Users := ["admin"] |} ] |}).
  - vm_compute. reflexivity.
  - reflexivity.
  - reflexivity.
Defined.

Lemma lookup_failure_keeps_entry_witness :
  let d := {| Date := "Jan 2";
              Entries := [ {| IP := "10.0.0.2"; Location := zeroLocation; Count := 1;
                              Users := ["admin"] |} ] |} in
  heap (Demo.stateOf Demo.store) !! 1%nat = Some d /\
  exists st' ae',
    @locateEntries Demo.world defaultFlags 1 (Demo.stateOf Demo.store) = (Returned tt, st') /\
    heap st' !! 1%nat = Some {| Date := "Jan 2"; Entries := [ae'] |} /\
    IP ae' = "10.0.0.2" /\
    Location ae' = zeroLocation /\
    LogPrintf "error getting location data for IP '%s': %s"
      [VString "10.0.0.2"; VString "request timed out"] ∈ trace st'.
Proof.
  intros d. split; [reflexivity|].
  destruct (proj1 (@lookup_failure_keeps_entry Demo.world defaultFlags 1
                     (Demo.stateOf Demo.store) d eq_refl))
    as (st' & located & Hrun & Hheap & Hlen & _ & _ & Hentries).
  destruct (Hentries 0%nat _ eq_refl) as (ae' & Hae' & Hsame & Herr).
  destruct (Herr "request timed out" eq_refl) as [Hzero Hlog].
  exists st', ae'. split; [exact Hrun|].
  destruct located as [|x [|y rest]]; try discriminate.
  injection Hae' as ->.
  split; [exact Hheap|].
  split; [exact (f_equal IP Hsame)|].
  split; [exact Hzero | exact Hlog].
Defined.

Lemma print_text_mode_witness :
  let jan2 := {| Date := "Jan 2";
                 Entries := [ {| IP := "10.0.0.2"; Location := zeroLocation; Count := 1;
                                 Users := ["admin"] |} ] |} in
  @print Demo.world Demo.atLeastTwo Demo.store initialState
  = (Returned tt,
     appendTrace (@printOutput Demo.world Demo.atLeastTwo Demo.store) initialState) /\
  @bucketOutput Demo.world Demo.atLeastTwo jan2 = headerOutput jan2 ++ [Stdout nl].
Proof.
  intros jan2.
  destruct (@print_text_mode Demo.world Demo.atLeastTwo Demo.store initialState)
    as (Hrun & _ & Hheader).
  split; [exact Hrun|].
  apply Hheader. apply Forall_singleton. reflexivity.
Defined.

Lemma invalid_pattern_panics_witness :
  nonEmpty (locale Demo.badPattern) = true /\
  exists st',
    @applyEntryFilters Demo.world Demo.badPattern (Demo.stateOf Demo.store)
    = (Panicked "regexp: Compile(`(`): missing closing )", st') /\
    compiles st' = 1%nat.
Proof.
  split; [reflexivity|].
  destruct (@invalid_pattern_panics Demo.world Demo.badPattern
              (Demo.stateOf Demo.store) eq_refl) as [Hbad _].
  destruct (Hbad "missing closing )" eq_refl) as [Hpanic _].
  apply Hpanic. discriminate.
Defined.

(** * Further properties of the code *)

(** ** [exists] and [addUser] ([entry.go]) *)

Lemma existsFrom_first es : forall k ip idx,
  existsFrom k es ip = (idx, true) ->
  exists j ae,
    idx = (k + j)%nat /\ es !! j = Some ae /\ IP ae = ip /\
    forall j' ae', (j' < j)%nat -> es !! j' = Some ae' -> IP ae' <> ip.
Proof.
  induction es as [|a rest IH]; intros k ip idx H; simpl in H; [discriminate|].
  destruct (String.eqb_spec (IP a) ip) as [Heq|Hne].
  - injection H as <-. exists 0%nat, a. rewrite Nat.add_0_r.
    repeat split; auto. intros j' ae' Hlt. lia.
  - destruct (IH _ _ _ H) as (j & ae & -> & Hj & Hip & Hfirst).
    exists (S j), ae. rewrite Nat.add_succ_r. repeat split; auto.
    intros [|j'] ae' Hlt Hj'; simpl in Hj'.
    + injection Hj' as <-. exact Hne.
    + apply (Hfirst j' ae'); [lia | exact Hj'].
Qed.

Lemma existsFrom_not_found es : forall k ip idx,
  existsFrom k es ip = (idx, false) -> idx = 0%nat.
Proof.
  induction es as [|a rest IH]; intros k ip idx H; simpl in H.
  - injection H as <-. reflexivity.
  - destruct (String.eqb (IP a) ip); [discriminate | eapply IH; exact H].
Qed.

(** X1: [exists] finds the first entry with the given IP: when it
    answers [true], the index is in range, the entry there has that IP
    and no entry before it has; when it answers [false], the index is [0]
    and no entry of the bucket has that IP; and it answers [true]
    whenever some entry has it. *)
Theorem exists_finds_first (dae : datedAuthEntries) (ip : string) :
  (forall idx,
     exists_ dae ip = (idx, true) ->
     exists ae,
       Entries dae !! idx = Some ae /\ IP ae = ip /\
       forall j ae', (j < idx)%nat -> Entries dae !! j = Some ae' -> IP ae' <> ip) /\
  (forall idx,
     exists_ dae ip = (idx, false) ->
     idx = 0%nat /\ (ip ∉ map IP (Entries dae))) /\
  (ip ∈ map IP (Entries dae) -> snd (exists_ dae ip) = true).
Proof.
  unfold exists_. split; [|split].
  - intros idx H.
    destruct (existsFrom_first _ _ _ _ H) as (j & ae & -> & Hj & Hip & Hfirst).
    exists ae. simpl. auto.
  - intros idx H. split; [eapply existsFrom_not_found | eapply existsFrom_false]; exact H.
  - intros Hin. destruct (existsFrom 0 (Entries dae) ip) as [idx [|]] eqn:H; [reflexivity|].
    exfalso. exact (existsFrom_false _ _ _ _ H Hin).
Qed.

Lemma exists_finds_first_witness :
  "10.0.0.2" ∈ map IP [newEntry "10.0.0.1" "a"; newEntry "10.0.0.2" "b"; newEntry "10.0.0.2" "c"] /\
  exists_ {| Date := "Jan 1";
             Entries := [newEntry "10.0.0.1" "a"; newEntry "10.0.0.2" "b";
                         newEntry "10.0.0.2" "c"] |} "10.0.0.2" = (1%nat, true) /\
  exists ae, [newEntry "10.0.0.1" "a"; newEntry "10.0.0.2" "b"; newEntry "10.0.0.2" "c"]
               !! 1%nat = Some ae /\ IP ae = "10.0.0.2".
Proof.
  split; [apply list_elem_of_further, list_elem_of_here|].
  split; [reflexivity|].
  destruct (proj1 (exists_finds_first
                     {| Date := "Jan 1";
                        Entries := [newEntry "10.0.0.1" "a"; newEntry "10.0.0.2" "b";
                                    newEntry "10.0.0.2" "c"] |} "10.0.0.2") 1%nat eq_refl)
    as (ae & Hae & Hip & _).
  exists ae. split; [exact Hae | exact Hip].
Defined.

Lemma addUser_Users_elem ae u x :
  x ∈ Users (addUser ae u) <-> x ∈ Users ae \/ x = u.
Proof.
  destruct (hasUser (Users ae) u) eqn:H.
  - apply hasUser_elem in H. rewrite addUser_Users_present by exact H.
    split; [auto | intros [Hx | ->]; assumption].
  - apply hasUser_false in H. rewrite addUser_Users_absent by exact H.
    rewrite elem_of_app, list_elem_of_singleton. reflexivity.
Qed.

Lemma addUser_Users_prefix ae u :
  exists added, Users (addUser ae u) = Users ae ++ added.
Proof.
  destruct (hasUser (Users ae) u) eqn:H.
  - apply hasUser_elem in H. exists []. rewrite app_nil_r.
    apply addUser_Users_present. exact H.
  - apply hasUser_false in H. exists [u]. apply addUser_Users_absent. exact H.
Qed.

(** X2: after any sequence of [addUser] calls the names of the entry are
    exactly the names it had and the names that were added; the names it
    had stay in front, in their order; its IP and location are untouched. *)
Theorem addUsers_collects_names (ae : authEntry) (users : list string) :
  (forall u, u ∈ Users (addUsers ae users) <-> u ∈ Users ae \/ u ∈ users) /\
  (exists added, Users (addUsers ae users) = Users ae ++ added) /\
  IP (addUsers ae users) = IP ae /\
  Location (addUsers ae users) = Location ae.
Proof.
  revert ae. unfold addUsers. induction users as [|x rest IH]; intros ae; simpl.
  - split; [|split; [exists []; rewrite app_nil_r; reflexivity | split; reflexivity]].
    intros u. split; [auto | intros [H|H]; [exact H | inversion H]].
  - destruct (IH (addUser ae x)) as (Hmem & [added Hadd] & Hip & Hloc).
    split; [|split; [|split]].
    + intros u. rewrite Hmem, addUser_Users_elem, elem_of_cons. tauto.
    + destruct (addUser_Users_prefix ae x) as [first Hfirst].
      exists (first ++ added). rewrite Hadd, Hfirst, <- app_assoc. reflexivity.
    + rewrite Hip. apply addUser_IP.
    + rewrite Hloc. apply addUser_Location.
Qed.

(** X3: every [addUser] call counts, whether or not the name is new: as
    long as the count stays within the range of [int], it grows by the
    number of calls. *)
Theorem addUsers_counts_every_call (ae : authEntry) (users : list string) :
  GoInt.min_int <= Count ae ->
  Count ae + Z.of_nat (length users) <= GoInt.max_int ->
  Count (addUsers ae users) = Count ae + Z.of_nat (length users).
Proof.
  revert ae. unfold addUsers.
  induction users as [|x rest IH]; intros ae Hmin Hmax; simpl in *.
  - lia.
  - assert (Hstep : Count (addUser ae x) = Count ae + 1).
    { rewrite addUser_Count. apply incr_below_max. lia. }
    rewrite IH; rewrite Hstep; lia.
Qed.

Lemma addUsers_counts_every_call_witness :
  GoInt.min_int <= Count (newEntry "10.0.0.1" "admin") /\
  Count (addUsers (newEntry "10.0.0.1" "admin") ["admin"; "admin"; "root"]) = 4.
Proof.
  assert (Hmin : GoInt.min_int <= Count (newEntry "10.0.0.1" "admin"))
    by (vm_compute; discriminate).
  split; [exact Hmin|].
  apply (addUsers_counts_every_call (newEntry "10.0.0.1" "admin")
           ["admin"; "admin"; "root"] Hmin).
  vm_compute. discriminate.
Defined.

(** ** [applyDateFilter] *)

(** X4: the date filter is idempotent, and what it returns is a slice of
    one bucket, a bucket of the store it was given, with all its entries. *)
Theorem applyDateFilter_idempotent (fl : flags) (dae r : allEntries) :
  applyDateFilter fl dae = Some r ->
  applyDateFilter fl r = Some r /\
  length r = 1%nat /\
  (forall day, day ∈ r -> day ∈ dae).
Proof.
  intros H.
  destruct (applyDateFilter_Some fl dae r H) as (pre & day & post & -> & -> & Hday & _).
  split; [|split].
  - simpl. rewrite Hday, String.eqb_refl. reflexivity.
  - reflexivity.
  - intros d Hd. apply list_elem_of_singleton in Hd. subst d.
    apply elem_of_app. right. apply list_elem_of_here.
Qed.

Lemma applyDateFilter_idempotent_witness :
  applyDateFilter Demo.onJan2 Demo.store
  = Some [ {| Date := "Jan 2";
              Entries := [ {| IP := "10.0.0.2"; Location := zeroLocation; Count := 1;
                              Users := ["admin"] |} ] |} ] /\
  applyDateFilter Demo.onJan2
    [ {| Date := "Jan 2";
         Entries := [ {| IP := "10.0.0.2"; Location := zeroLocation; Count := 1;
                         Users := ["admin"] |} ] |} ]
  = Some [ {| Date := "Jan 2";
              Entries := [ {| IP := "10.0.0.2"; Location := zeroLocation; Count := 1;
                              Users := ["admin"] |} ] |} ].
Proof.
  split; [reflexivity|].
  exact (proj1 (applyDateFilter_idempotent Demo.onJan2 Demo.store _ eq_refl)).
Defined.

(** ** What a computation keeps, however it ends *)

Section Keeps.

Variable R : state -> state -> Prop.
Hypothesis R_refl : forall st, R st st.
Hypothesis R_trans : forall st1 st2 st3, R st1 st2 -> R st2 st3 -> R st1 st3.

Lemma keeps_ret {A} (a : A) : keeps R (ret a).
Proof. intros st. apply R_refl. Qed.

Lemma keeps_bind {A B} (m : M A) (k : A -> M B) :
  keeps R m -> (forall a, keeps R (k a)) -> keeps R (bind m k).
Proof.
  intros Hm Hk st. unfold bind. specialize (Hm st).
  destruct (m st) as [[a|msg|code] st1]; simpl in *; try exact Hm.
  eapply R_trans; [exact Hm | apply Hk].
Qed.

Lemma keeps_when b m : keeps R m -> keeps R (when b m).
Proof. intros H. destruct b; [exact H | apply keeps_ret]. Qed.

Lemma keeps_forEach {A} (l : list A) (body : A -> M unit) :
  (forall x, keeps R (body x)) -> keeps R (forEach l body).
Proof.
  intros H. induction l as [|x rest IH]; simpl.
  - apply keeps_ret.
  - apply keeps_bind; [apply H | intros _; exact IH].
Qed.

Lemma keeps_filterEntries es predicate :
  (forall ae, keeps R (predicate ae)) -> keeps R (filterEntries es predicate).
Proof.
  intros H. induction es as [|ae rest IH]; simpl.
  - apply keeps_ret.
  - apply keeps_bind; [apply H|]. intros keep.
    apply keeps_bind; [exact IH|]. intros kept. apply keeps_ret.
Qed.

Lemma keeps_applyEntries es fn :
  (forall ae, keeps R (fn ae)) -> keeps R (applyEntries es fn).
Proof.
  intros H. induction es as [|ae rest IH]; simpl.
  - apply keeps_ret.
  - apply keeps_bind; [apply H|]. intros ae'.
    apply keeps_bind; [exact IH|]. intros rest'. apply keeps_ret.
Qed.

End Keeps.

(** ** What the entry filters never do *)

Section Never.

Context {E : Env}.
Variable fl : flags.

Lemma sameStdout_refl st : sameStdout st st.
Proof. reflexivity. Qed.

Lemma sameStdout_trans st1 st2 st3 :
  sameStdout st1 st2 -> sameStdout st2 st3 -> sameStdout st1 st3.
Proof. unfold sameStdout. congruence. Qed.

Lemma sameStdout_emit e :
  (forall text, e <> Stdout text) -> keeps sameStdout (emit e).
Proof.
  intros He st. unfold sameStdout, stdoutOf. simpl. rewrite omap_app. simpl.
  destruct e; try (rewrite app_nil_r; reflexivity).
  exfalso. exact (He text eq_refl).
Qed.

Lemma sameStdout_index idx : keeps sameStdout (index idx).
Proof. intros st. unfold index. destruct (heap st !! idx); reflexivity. Qed.

Lemma sameStdout_setEntries idx es : keeps sameStdout (setEntries idx es).
Proof. intros st. unfold setEntries. destruct (heap st !! idx); reflexivity. Qed.

Lemma sameStdout_debug format args : keeps sameStdout (debug fl format args).
Proof.
  unfold debug. apply keeps_when; [apply sameStdout_refl|].
  apply sameStdout_emit. discriminate.
Qed.

Lemma sameStdout_pureFilter on p idx : keeps sameStdout (pureFilter on p idx).
Proof.
  apply keeps_when; [apply sameStdout_refl|].
  apply keeps_bind; [apply sameStdout_trans | apply sameStdout_index |]. intros d.
  apply keeps_bind; [apply sameStdout_trans | | intros; apply sameStdout_setEntries].
  apply keeps_filterEntries; [apply sameStdout_refl | apply sameStdout_trans |].
  intros ae. apply keeps_ret. apply sameStdout_refl.
Qed.

Lemma sameStdout_locateEntry iac ae : keeps sameStdout (locateEntry fl iac ae).
Proof.
  unfold locateEntry.
  apply keeps_bind; [apply sameStdout_trans | apply sameStdout_debug |]. intros _.
  apply keeps_bind; [apply sameStdout_trans | |].
  { intros st. unfold sameStdout, stdoutOf, locateIP. simpl.
    rewrite omap_app. simpl. rewrite app_nil_r. reflexivity. }
  intros r.
  apply keeps_bind; [apply sameStdout_trans | |
                     intros; apply keeps_ret; apply sameStdout_refl].
  destruct (snd r).
  - apply sameStdout_emit. discriminate.
  - apply keeps_ret. apply sameStdout_refl.
Qed.

Lemma sameStdout_locateEntries idx : keeps sameStdout (locateEntries fl idx).
Proof.
  unfold locateEntries.
  apply keeps_bind; [apply sameStdout_trans | apply sameStdout_index |]. intros d.
  apply keeps_bind; [apply sameStdout_trans | | intros; apply sameStdout_setEntries].
  apply keeps_applyEntries; [apply sameStdout_refl | apply sameStdout_trans |].
  intros ae. apply sameStdout_locateEntry.
Qed.

Lemma sameStdout_localeFilter idx : keeps sameStdout (localeFilter fl idx).
Proof.
  apply keeps_when; [apply sameStdout_refl|].
  apply keeps_bind; [apply sameStdout_trans | apply sameStdout_index |]. intros d.
  apply keeps_bind; [apply sameStdout_trans | | intros; apply sameStdout_setEntries].
  apply keeps_filterEntries; [apply sameStdout_refl | apply sameStdout_trans |].
  intros ae. unfold localePredicate.
  apply keeps_bind; [apply sameStdout_trans | |
                     intros; apply keeps_ret; apply sameStdout_refl].
  intros st. unfold MustCompile. destruct (regexpCompile (locale fl)); reflexivity.
Qed.

Lemma sameStdout_applyEntryFilters : keeps sameStdout (applyEntryFilters fl).
Proof.
  unfold applyEntryFilters.
  apply keeps_bind; [apply sameStdout_trans | intros st; reflexivity |]. intros n.
  apply keeps_forEach; [apply sameStdout_refl | apply sameStdout_trans |].
  intros idx. unfold filterBucket.
  apply keeps_bind; [apply sameStdout_trans | apply sameStdout_pureFilter |]. intros _.
  apply keeps_bind; [apply sameStdout_trans | apply sameStdout_pureFilter |]. intros _.
  apply keeps_bind; [apply sameStdout_trans | apply sameStdout_pureFilter |]. intros _.
  apply keeps_bind; [apply sameStdout_trans | apply sameStdout_locateEntries |]. intros _.
  apply sameStdout_localeFilter.
Qed.

(** X8: the entry filters never write to standard output, whether the
    run returns or panics: everything they report goes to the log. *)
Theorem filters_never_print (st : state) :
  stdoutOf (trace (snd (applyEntryFilters fl st))) = stdoutOf (trace st).
Proof. apply sameStdout_applyEntryFilters. Qed.

End Never.

(** ** The entry filters only remove or annotate *)

Section OnlyRemoved.

Context {E : Env}.
Variable fl : flags.

Lemma filter_sublist (p : authEntry -> bool) l : List.filter p l `sublist_of` l.
Proof.
  induction l as [|x rest IH]; simpl; [constructor|].
  destruct (p x); [apply sublist_skip | apply sublist_cons]; exact IH.
Qed.

Lemma stage_sublist on p l : stage on p l `sublist_of` l.
Proof. destruct on; simpl; [apply filter_sublist | reflexivity]. Qed.

Lemma survivors_sublist es : survivors fl es `sublist_of` es.
Proof.
  unfold survivors.
  etransitivity; [apply stage_sublist|].
  etransitivity; [apply stage_sublist|]. apply stage_sublist.
Qed.

Lemma localeStage_sublist es : localeStage fl es `sublist_of` es.
Proof.
  unfold localeStage. destruct (regexpCompile (locale fl)); [apply stage_sublist | reflexivity].
Qed.

Lemma map_sublist {A B} (f : A -> B) l1 l2 :
  l1 `sublist_of` l2 -> map f l1 `sublist_of` map f l2.
Proof. induction 1; simpl; constructor; assumption. Qed.

Lemma onlyRemoved_refl st : onlyRemoved st st.
Proof.
  unfold onlyRemoved. induction (heap st) as [|d rest IH]; constructor; [|exact IH].
  split; reflexivity.
Qed.

Lemma onlyRemoved_trans st1 st2 st3 :
  onlyRemoved st1 st2 -> onlyRemoved st2 st3 -> onlyRemoved st1 st3.
Proof.
  unfold onlyRemoved. generalize (heap st1) (heap st2) (heap st3).
  intros l1 l2 l3 H12. revert l3.
  induction H12 as [|d1 d2 r1 r2 [Hd Hs] _ IH]; intros l3 H23.
  - inversion H23. constructor.
  - inversion H23 as [|? d3 ? r3 [Hd' Hs'] Hrest]; subst. constructor.
    + split; [congruence | etransitivity; eassumption].
    + apply IH. exact Hrest.
Qed.

(** Writing into bucket [idx] a subsequence of its entries. *)
Lemma onlyRemoved_write st idx d es r c t :
  heap st !! idx = Some d ->
  map forgetLocation es `sublist_of` map forgetLocation (Entries d) ->
  onlyRemoved st (mkState (<[idx := withEntries d es]> (heap st)) r c t).
Proof.
  unfold onlyRemoved. simpl. generalize (heap st). intros l. revert idx.
  induction l as [|b rest IH]; intros idx Hd Hs; [discriminate|].
  destruct idx as [|idx]; simpl in *.
  - injection Hd as ->. constructor; [split; [reflexivity | exact Hs]|].
    clear. induction rest as [|x rest IH]; constructor; [split; reflexivity | exact IH].
  - constructor; [split; reflexivity|]. apply IH; assumption.
Qed.

Lemma onlyRemoved_same_heap st st' : heap st' = heap st -> onlyRemoved st st'.
Proof.
  intros H. unfold onlyRemoved. rewrite H. apply (onlyRemoved_refl st).
Qed.

Lemma onlyRemoved_pureFilter on p idx : keeps onlyRemoved (pureFilter on p idx).
Proof.
  intros st. destruct (heap st !! idx) as [d|] eqn:H.
  - rewrite (pureFilter_run on p idx st d H). simpl.
    apply onlyRemoved_write; [exact H|]. apply map_sublist, stage_sublist.
  - rewrite (pureFilter_out_of_range on p idx st H).
    destruct on; apply onlyRemoved_refl.
Qed.

Lemma onlyRemoved_locateEntries idx : keeps onlyRemoved (locateEntries fl idx).
Proof.
  intros st. destruct (heap st !! idx) as [d|] eqn:H.
  - rewrite (locateEntries_run fl idx st d H). simpl.
    apply onlyRemoved_write; [exact H|]. rewrite forget_locatedFrom. reflexivity.
  - unfold locateEntries. rewrite index_out_of_range by exact H. apply onlyRemoved_refl.
Qed.

Lemma onlyRemoved_localeFilter idx : keeps onlyRemoved (localeFilter fl idx).
Proof.
  intros st. destruct (nonEmpty (locale fl)) eqn:Hon.
  - destruct (heap st !! idx) as [d|] eqn:H.
    + destruct (regexpCompile (locale fl)) as [rx|err] eqn:Hrx.
      * rewrite (localeFilter_ok fl rx idx st d Hon Hrx H). simpl.
        apply onlyRemoved_write; [exact H|]. apply map_sublist, filter_sublist.
      * destruct (Entries d) as [|ae rest] eqn:Hes.
        -- rewrite (localeFilter_bad_empty fl idx st d Hon H Hes). apply onlyRemoved_refl.
        -- rewrite (localeFilter_bad fl err idx st d ae rest Hon Hrx H Hes).
           apply onlyRemoved_same_heap. reflexivity.
    + unfold localeFilter. rewrite Hon. simpl.
      rewrite index_out_of_range by exact H. apply onlyRemoved_refl.
  - rewrite (localeFilter_off fl idx st Hon). apply onlyRemoved_refl.
Qed.

Lemma onlyRemoved_applyEntryFilters : keeps onlyRemoved (applyEntryFilters fl).
Proof.
  unfold applyEntryFilters.
  apply keeps_bind; [apply onlyRemoved_trans | intros st; apply onlyRemoved_refl |].
  intros n.
  apply keeps_forEach; [apply onlyRemoved_refl | apply onlyRemoved_trans |].
  intros idx. unfold filterBucket.
  apply keeps_bind; [apply onlyRemoved_trans | apply onlyRemoved_pureFilter |]. intros _.
  apply keeps_bind; [apply onlyRemoved_trans | apply onlyRemoved_pureFilter |]. intros _.
  apply keeps_bind; [apply onlyRemoved_trans | apply onlyRemoved_pureFilter |]. intros _.
  apply keeps_bind; [apply onlyRemoved_trans | apply onlyRemoved_locateEntries |]. intros _.
  apply onlyRemoved_localeFilter.
Qed.

(** X6: the entry filters create nothing and reorder nothing: however the
    run ends, every bucket is still there with its date, and its entries
    are, their locations apart, a subsequence of the entries it had. *)
Theorem filters_only_remove_or_annotate (st : state) :
  Forall2 (fun d d' =>
             Date d' = Date d /\
             map forgetLocation (Entries d') `sublist_of` map forgetLocation (Entries d))
          (heap st) (heap (snd (applyEntryFilters fl st))).
Proof. apply onlyRemoved_applyEntryFilters. Qed.

Lemma map_IP_forget es : map IP (map forgetLocation es) = map IP es.
Proof. induction es as [|ae rest IH]; simpl; [reflexivity | rewrite IH; reflexivity]. Qed.

Lemma onlyRemoved_uniqueIPs st st' :
  onlyRemoved st st' -> uniqueIPs (heap st) -> uniqueIPs (heap st').
Proof.
  unfold onlyRemoved, uniqueIPs. intros H.
  induction H as [|d d' r r' [_ Hs] _ IH]; intros Hu; [constructor|].
  apply Forall_cons in Hu as [Hd Hr]. constructor; [|apply IH; exact Hr].
  apply (sublist_NoDup _ (map IP (Entries d))); [exact Hd|].
  rewrite <- (map_IP_forget (Entries d')), <- (map_IP_forget (Entries d)).
  apply map_sublist. exact Hs.
Qed.

(** X7: the entry filters keep the invariant of the store: when no bucket
    has two entries with the same IP before the run, none has after it,
    however the run ends. *)
Theorem filters_keep_IPs_unique (st : state) :
  uniqueIPs (heap st) -> uniqueIPs (heap (snd (applyEntryFilters fl st))).
Proof. apply onlyRemoved_uniqueIPs, onlyRemoved_applyEntryFilters. Qed.

End OnlyRemoved.

Lemma filters_keep_IPs_unique_witness :
  uniqueIPs (heap (Demo.stateOf Demo.store)) /\
  uniqueIPs (heap (snd (@applyEntryFilters Demo.world Demo.fromOne
                          (Demo.stateOf Demo.store)))).
Proof.
  assert (H : uniqueIPs (heap (Demo.stateOf Demo.store))).
  { repeat constructor; simpl; intros Hin; inversion Hin. }
  split; [exact H|].
  exact (@filters_keep_IPs_unique Demo.world Demo.fromOne (Demo.stateOf Demo.store) H).
Defined.

(** ** What is in the store when the entry filters return *)

Section Returned.

Context {E : Env}.
Variable fl : flags.

(** The shape of a bucket after a run that returned. *)
Lemma filteredStore_shape store : forall n,
  Forall2 (fun d d' =>
             exists m, d' = withEntries d
                              (localeStage fl (locatedFrom m (survivors fl (Entries d)))))
          store (filteredStore fl n store).
Proof.
  induction store as [|d rest IH]; intros n; simpl; constructor.
  - exists n. reflexivity.
  - apply IH.
Qed.

Lemma emptied_shape store :
  allSurvivors fl store = [] ->
  Forall2 (fun d d' =>
             exists m, d' = withEntries d
                              (localeStage fl (locatedFrom m (survivors fl (Entries d)))))
          store (map (fun d => withEntries d []) store).
Proof.
  unfold allSurvivors. induction store as [|d rest IH]; intros Hnil; simpl in *; constructor.
  - apply app_eq_nil in Hnil as [Hd _]. exists 0%nat. rewrite Hd. simpl.
    rewrite localeStage_nil. reflexivity.
  - apply IH. apply app_eq_nil in Hnil as [_ Hrest]. exact Hrest.
Qed.

Lemma returned_shape st :
  fst (applyEntryFilters fl st) = Returned tt ->
  Forall2 (fun d d' =>
             exists m, d' = withEntries d
                              (localeStage fl (locatedFrom m (survivors fl (Entries d)))))
          (heap st) (heap (snd (applyEntryFilters fl st))).
Proof.
  intros Hret.
  destruct (nonEmpty (locale fl)) eqn:Hon;
    [destruct (regexpCompile (locale fl)) as [rx|err] eqn:Hrx|].
  - rewrite applyEntryFilters_ok by (right; exists rx; exact Hrx). simpl.
    apply filteredStore_shape.
  - destruct (filterLoop_bad fl err (heap st) [] st Hon Hrx eq_refl) as [Hnone Hsome].
    unfold applyEntryFilters, forRange in *.
    rewrite (bind_Returned _ _ _ (length (heap st)) st) in * by reflexivity.
    simpl in Hnone, Hsome.
    destruct (allSurvivors fl (heap st)) as [|ae rest] eqn:Hall.
    + rewrite (Hnone eq_refl). simpl. apply emptied_shape. exact Hall.
    + destruct Hsome as (st' & Hrun & _); [discriminate|].
      rewrite Hrun in Hret. discriminate.
  - rewrite applyEntryFilters_ok by (left; exact Hon). simpl.
    apply filteredStore_shape.
Qed.

Lemma elem_locatedFrom es : forall m ae',
  ae' ∈ locatedFrom m es ->
  exists ae, ae ∈ es /\ forgetLocation ae' = forgetLocation ae.
Proof.
  induction es as [|a rest IH]; intros m ae' H; simpl in H; [inversion H|].
  apply elem_of_cons in H as [->|H].
  - exists a. split; [apply list_elem_of_here | reflexivity].
  - destruct (IH _ _ H) as (ae & Hae & Hsame).
    exists ae. split; [apply list_elem_of_further; exact Hae | exact Hsame].
Qed.

Lemma locatedFrom_elem es : forall m ae,
  ae ∈ es ->
  exists ae', ae' ∈ locatedFrom m es /\ forgetLocation ae' = forgetLocation ae.
Proof.
  induction es as [|a rest IH]; intros m ae H; [inversion H|].
  apply elem_of_cons in H as [->|H]; simpl.
  - eexists. split; [apply list_elem_of_here | reflexivity].
  - destruct (IH (S m) _ H) as (ae' & Hae' & Hsame).
    exists ae'. split; [apply list_elem_of_further; exact Hae' | exact Hsame].
Qed.

Lemma forget_fields ae ae' :
  forgetLocation ae' = forgetLocation ae ->
  IP ae' = IP ae /\ Count ae' = Count ae /\ Users ae' = Users ae.
Proof.
  intros H. split; [exact (f_equal IP H)|].
  split; [exact (f_equal Count H) | exact (f_equal Users H)].
Qed.

Lemma nonEmpty_true s : nonEmpty s = true <-> s <> "".
Proof.
  unfold nonEmpty. destruct (String.eqb_spec s ""); split; intros H;
    try congruence; try reflexivity; try discriminate.
Qed.

Lemma survivors_meet es ae :
  ae ∈ survivors fl es <->
  ae ∈ es /\
  (threshold fl > 0 -> Count ae >= threshold fl) /\
  (address fl <> "" -> IP ae = address fl) /\
  (user fl <> "" -> user fl ∈ Users ae).
Proof.
  unfold survivors. rewrite !elem_of_stage.
  unfold nonEmpty, countPredicate, addressPredicate, userPredicate.
  rewrite hasUser_elem.
  destruct (Z.gtb_spec (threshold fl) 0);
    destruct (Z.geb_spec (Count ae) (threshold fl));
    destruct (String.eqb_spec (address fl) "");
    destruct (String.eqb_spec (IP ae) (address fl));
    destruct (String.eqb_spec (user fl) ""); simpl;
    intuition (try congruence; try lia).
Qed.

(** An entry of a bucket of the shape above, and where it comes from. *)
Lemma shaped_entry d m ae' :
  ae' ∈ localeStage fl (locatedFrom m (survivors fl (Entries d))) ->
  meetsCriteria fl ae' /\
  exists ae, ae ∈ Entries d /\ forgetLocation ae' = forgetLocation ae.
Proof.
  intros H.
  assert (Hloc : ae' ∈ locatedFrom m (survivors fl (Entries d)) /\
                 (locale fl <> "" -> forall rx, regexpCompile (locale fl) = inl rx ->
                    MatchString rx (composeLocationString (Location ae')) = true)).
  { unfold localeStage in H. destruct (regexpCompile (locale fl)) as [rx|err] eqn:Hrx.
    - apply elem_of_stage in H as [Hin Hm]. split; [exact Hin|].
      intros Hne rx' Hrx'. injection Hrx' as <-.
      apply Hm. apply nonEmpty_true. exact Hne.
    - split; [exact H | intros _ rx' Hrx'; discriminate]. }
  destruct Hloc as [Hin Hmatch].
  destruct (elem_locatedFrom _ _ _ Hin) as (ae & Hae & Hsame).
  apply survivors_meet in Hae as (Hes & Hc & Ha & Hu).
  destruct (forget_fields _ _ Hsame) as (Hip & Hcount & Husers).
  split; [|exists ae; split; assumption].
  unfold meetsCriteria. rewrite Hip, Hcount, Husers. auto.
Qed.

Lemma returned_entry st d' ae' :
  fst (applyEntryFilters fl st) = Returned tt ->
  d' ∈ heap (snd (applyEntryFilters fl st)) ->
  ae' ∈ Entries d' ->
  meetsCriteria fl ae' /\
  exists d ae, d ∈ heap st /\ ae ∈ Entries d /\ forgetLocation ae' = forgetLocation ae.
Proof.
  intros Hret Hd' Hae'.
  pose proof (returned_shape st Hret) as Hshape.
  apply list_elem_of_lookup in Hd' as [i Hi].
  destruct (Forall2_lookup_r _ _ _ _ _ Hshape Hi) as (d & Hd & m & ->).
  simpl in Hae'. destruct (shaped_entry d m ae' Hae') as (Hmeets & ae & Hae & Hsame).
  split; [exact Hmeets|]. exists d, ae.
  split; [apply list_elem_of_lookup; exists i; exact Hd|]. split; assumption.
Qed.

(** X5: when the entry filters return, every entry left in the store
    meets every criterion that was switched on: the count threshold, the
    IP, the username, and the pattern of the location filter. *)
Theorem filters_leave_only_matches (st : state) :
  fst (applyEntryFilters fl st) = Returned tt ->
  forall d' ae',
    d' ∈ heap (snd (applyEntryFilters fl st)) ->
    ae' ∈ Entries d' ->
    meetsCriteria fl ae'.
Proof.
  intros Hret d' ae' Hd' Hae'. exact (proj1 (returned_entry st d' ae' Hret Hd' Hae')).
Qed.

(** X9: without a location filter nothing that qualifies is lost: an
    entry of bucket [i] that meets the count, IP and user criteria is in
    bucket [i] after the run, with the same IP, count and usernames. *)
Theorem filters_keep_what_qualifies (st : state) (i : nat) (d : datedAuthEntries)
    (ae : authEntry) :
  locale fl = "" ->
  heap st !! i = Some d ->
  ae ∈ Entries d ->
  (threshold fl > 0 -> Count ae >= threshold fl) ->
  (address fl <> "" -> IP ae = address fl) ->
  (user fl <> "" -> user fl ∈ Users ae) ->
  exists d' ae',
    heap (snd (applyEntryFilters fl st)) !! i = Some d' /\
    ae' ∈ Entries d' /\
    forgetLocation ae' = forgetLocation ae.
Proof.
  intros Hl Hd Hae Hc Ha Hu.
  rewrite applyEntryFilters_ok by (left; rewrite Hl; reflexivity). simpl.
  destruct (filteredStore_lookup fl (heap st) (requests st) i d Hd) as [m Hm].
  assert (Hsv : ae ∈ survivors fl (Entries d)) by (apply survivors_meet; auto).
  destruct (locatedFrom_elem _ m _ Hsv) as (ae' & Hae' & Hsame).
  eexists. exists ae'. split; [exact Hm|]. simpl.
  rewrite (localeStage_off fl _ Hl). split; assumption.
Qed.

Lemma filter_all (p : authEntry -> bool) es :
  Forall (fun ae => p ae = true) es -> List.filter p es = es.
Proof.
  induction 1 as [|ae rest Hae _ IH]; simpl; [reflexivity|].
  rewrite Hae, IH. reflexivity.
Qed.

(** X10: the threshold test of [print] removes nothing from a store that
    came out of the entry filters, when all counts of the store that went
    in were at least [1] (as in a parsed store): every entry left in a
    bucket is printed. *)
Theorem print_shows_all_that_is_left (st : state) :
  countsPositive (heap st) ->
  fst (applyEntryFilters fl st) = Returned tt ->
  forall d',
    d' ∈ heap (snd (applyEntryFilters fl st)) ->
    bucketOutput fl d'
    = headerOutput d' ++ concat (map entryOutput (Entries d')) ++ [Stdout nl].
Proof.
  intros Hpos Hret d' Hd'. unfold bucketOutput. rewrite filter_all; [reflexivity|].
  apply Forall_forall. intros ae' Hae'.
  destruct (returned_entry st d' ae' Hret Hd' Hae')
    as ((Hc & _) & d & ae & Hd & Hae & Hsame).
  destruct (forget_fields _ _ Hsame) as (_ & Hcount & _).
  pose proof (proj1 (Forall_forall _ _) Hpos d Hd) as Hdpos. simpl in Hdpos.
  pose proof (proj1 (Forall_forall _ _) Hdpos ae Hae) as Hone. simpl in Hone.
  apply Z.geb_le.
  destruct (Z_gt_le_dec (threshold fl) 0) as [Hgt|Hle]; [specialize (Hc Hgt)|]; lia.
Qed.

Lemma filter_absent a es :
  a ∉ map IP es -> List.filter (fun ae => String.eqb (IP ae) a) es = [].
Proof.
  induction es as [|ae rest IH]; intros H; simpl in *; [reflexivity|].
  apply not_elem_of_cons in H as [Hne Hrest].
  destruct (String.eqb_spec (IP ae) a); [congruence | apply IH; exact Hrest].
Qed.

Lemma filter_address_at_most_one a es :
  NoDup (map IP es) ->
  (length (List.filter (fun ae => String.eqb (IP ae) a) es) <= 1)%nat.
Proof.
  induction es as [|ae rest IH]; intros H; simpl in *; [lia|].
  apply NoDup_cons in H as [Hfresh Hnd].
  destruct (String.eqb_spec (IP ae) a) as [<-|Hne].
  - rewrite (filter_absent _ _ Hfresh). simpl. lia.
  - apply IH. exact Hnd.
Qed.

Lemma survivors_at_most_one es :
  address fl <> "" -> NoDup (map IP es) -> (length (survivors fl es) <= 1)%nat.
Proof.
  intros Ha Hnd. unfold survivors.
  etransitivity; [apply sublist_length, stage_sublist|].
  apply nonEmpty_true in Ha. rewrite Ha. simpl.
  apply filter_address_at_most_one.
  apply (sublist_NoDup _ (map IP es)); [exact Hnd|].
  apply map_sublist, stage_sublist.
Qed.

Lemma allSurvivors_at_most_one_each store :
  address fl <> "" -> uniqueIPs store ->
  (length (allSurvivors fl store) <= length store)%nat.
Proof.
  intros Ha Hu. unfold allSurvivors.
  induction Hu as [|d rest Hd _ IH]; simpl; [lia|].
  rewrite length_app. pose proof (survivors_at_most_one (Entries d) Ha Hd). lia.
Qed.

Lemma onlyRemoved_filterBucket idx : keeps onlyRemoved (filterBucket fl idx).
Proof.
  unfold filterBucket.
  apply keeps_bind; [apply onlyRemoved_trans | apply onlyRemoved_pureFilter |]. intros _.
  apply keeps_bind; [apply onlyRemoved_trans | apply onlyRemoved_pureFilter |]. intros _.
  apply keeps_bind; [apply onlyRemoved_trans | apply onlyRemoved_pureFilter |]. intros _.
  apply keeps_bind; [apply onlyRemoved_trans | apply onlyRemoved_locateEntries |]. intros _.
  apply onlyRemoved_localeFilter.
Qed.

(** The location filter makes no request and logs nothing. *)
Lemma localeFilter_quiet idx st :
  requests (snd (localeFilter fl idx st)) = requests st /\
  trace (snd (localeFilter fl idx st)) = trace st.
Proof.
  destruct (nonEmpty (locale fl)) eqn:Hon.
  - destruct (heap st !! idx) as [d|] eqn:H.
    + destruct (regexpCompile (locale fl)) as [rx|err] eqn:Hrx.
      * rewrite (localeFilter_ok fl rx idx st d Hon Hrx H). split; reflexivity.
      * destruct (Entries d) as [|ae rest] eqn:Hes.
        -- rewrite (localeFilter_bad_empty fl idx st d Hon H Hes). split; reflexivity.
        -- rewrite (localeFilter_bad fl err idx st d ae rest Hon Hrx H Hes).
           split; reflexivity.
    + unfold localeFilter. rewrite Hon. simpl.
      rewrite index_out_of_range by exact H. split; reflexivity.
  - rewrite (localeFilter_off fl idx st Hon). split; reflexivity.
Qed.

(** The requests made while bucket [idx] is processed. *)
Lemma filterBucket_requests idx st d :
  heap st !! idx = Some d ->
  requests (snd (filterBucket fl idx st))
  = (requests st + length (survivors fl (Entries d)))%nat /\
  requestedIPs (trace (snd (filterBucket fl idx st)))
  = requestedIPs (trace st) ++ map IP (survivors fl (Entries d)).
Proof.
  intros H. rewrite filterBucket_split.
  rewrite (bind_Returned _ _ _ _ _ (located_run fl idx st d H)).
  destruct (localeFilter_quiet idx
              (mkState (<[idx := withEntries d
                                   (locatedFrom (requests st) (survivors fl (Entries d)))]>
                          (heap st))
                       (requests st + length (survivors fl (Entries d)))%nat (compiles st)
                       (trace st ++ lookupTrace fl (requests st) (survivors fl (Entries d)))))
    as [Hr Ht].
  rewrite Hr, Ht. simpl.
  rewrite requestedIPs_app, requestedIPs_lookupTrace. split; reflexivity.
Qed.

Lemma survivors_have_address es ae :
  address fl <> "" -> ae ∈ survivors fl es -> IP ae = address fl.
Proof.
  intros Ha Hin. apply survivors_meet in Hin as (_ & _ & Hip & _). apply Hip. exact Ha.
Qed.

Lemma map_IP_allSurvivors store :
  map IP (allSurvivors fl store)
  = concat (map (fun d => map IP (survivors fl (Entries d))) store).
Proof.
  unfold allSurvivors. induction store as [|d rest IH]; simpl; [reflexivity|].
  rewrite map_app, IH. reflexivity.
Qed.

(** X11: with an IP filter, on a store in which no bucket has two
    entries with the same IP, the processing of each bucket makes at most
    one lookup, for the filtered IP, and hands on a store with the same
    invariant, however it ends; so in a whole run that can use its
    location filter the lookups are, bucket after bucket, those of the
    bucket's surviving entries, at most one for each bucket. *)
Theorem address_filter_bounds_lookups (st : state) :
  address fl <> "" ->
  uniqueIPs (heap st) ->
  (forall idx d,
     heap st !! idx = Some d ->
     (requests (snd (filterBucket fl idx st)) <= requests st + 1)%nat /\
     requestedIPs (trace (snd (filterBucket fl idx st)))
     = requestedIPs (trace st) ++ map IP (survivors fl (Entries d)) /\
     (map IP (survivors fl (Entries d)) = [] \/
      map IP (survivors fl (Entries d)) = [address fl]) /\
     uniqueIPs (heap (snd (filterBucket fl idx st)))) /\
  (patternUsable fl ->
   requestedIPs (trace (snd (applyEntryFilters fl st)))
   = requestedIPs (trace st)
     ++ concat (map (fun d => map IP (survivors fl (Entries d))) (heap st)) /\
   Forall (fun d => (length (map IP (survivors fl (Entries d))) <= 1)%nat) (heap st)).
Proof.
  intros Ha Hu.
  assert (Hone : forall d, d ∈ heap st -> (length (survivors fl (Entries d)) <= 1)%nat).
  { intros d Hd. apply survivors_at_most_one; [exact Ha|].
    exact (proj1 (Forall_forall _ _) Hu d Hd). }
  split.
  - intros idx d Hd.
    assert (Hin : d ∈ heap st) by (apply list_elem_of_lookup; exists idx; exact Hd).
    destruct (filterBucket_requests idx st d Hd) as [Hr Ht].
    pose proof (Hone d Hin) as Hlen.
    split; [rewrite Hr; lia|]. split; [exact Ht|]. split.
    + destruct (survivors fl (Entries d)) as [|ae [|ae' rest]] eqn:Hsv;
        [left; reflexivity | right | simpl in Hlen; lia].
      simpl. f_equal. apply (survivors_have_address (Entries d)); [exact Ha|].
      rewrite Hsv. apply list_elem_of_here.
    + apply (onlyRemoved_uniqueIPs st); [apply onlyRemoved_filterBucket | exact Hu].
  - intros Hp. rewrite applyEntryFilters_ok by exact Hp. simpl. split.
    + rewrite requestedIPs_app, requestedIPs_filterTrace, map_IP_allSurvivors.
      reflexivity.
    + apply Forall_forall. intros d Hd. rewrite length_map. apply Hone. exact Hd.
Qed.

End Returned.

Lemma filters_leave_only_matches_witness :
  let run := @applyEntryFilters Demo.world Demo.fromOne (Demo.stateOf Demo.store) in
  let ae' := {| IP := "10.0.0.1"; Location := Demo.berlin; Count := 2;
                Users := ["admin"; "root"] |} in
  fst run = Returned tt /\
  heap (snd run) = [ {| Date := "Jan 1"; Entries := [ae'] |};
                     {| Date := "Jan 2"; Entries := [] |} ] /\
  @meetsCriteria Demo.world Demo.fromOne ae'.
Proof.
  intros run ae'.
  assert (Hret : fst run = Returned tt) by (vm_compute; reflexivity).
  assert (Hheap : heap (snd run) = [ {| Date := "Jan 1"; Entries := [ae'] |};
                                     {| Date := "Jan 2"; Entries := [] |} ])
    by (vm_compute; reflexivity).
  split; [exact Hret|]. split; [exact Hheap|].
  apply (@filters_leave_only_matches Demo.world Demo.fromOne (Demo.stateOf Demo.store)
           Hret {| Date := "Jan 1"; Entries := [ae'] |} ae').
  - fold run. rewrite Hheap. apply list_elem_of_here.
  - apply list_elem_of_here.
Defined.

Lemma filters_keep_what_qualifies_witness :
  let ae := {| IP := "10.0.0.1"; Location := zeroLocation; Count := 2;
               Users := ["admin"; "root"] |} in
  locale Demo.atLeastTwo = "" /\
  exists d' ae',
    heap (snd (@applyEntryFilters Demo.world Demo.atLeastTwo (Demo.stateOf Demo.store)))
      !! 0%nat = Some d' /\
    ae' ∈ Entries d' /\ forgetLocation ae' = forgetLocation ae.
Proof.
  intros ae. split; [reflexivity|].
  apply (@filters_keep_what_qualifies Demo.world Demo.atLeastTwo (Demo.stateOf Demo.store)
           0%nat {| Date := "Jan 1"; Entries := [ae] |} ae).
  - reflexivity.
  - reflexivity.
  - apply list_elem_of_here.
  - intros _. vm_compute. discriminate.
  - intros H. exfalso. apply H. reflexivity.
  - intros H. exfalso. apply H. reflexivity.
Defined.

Lemma print_shows_all_that_is_left_witness :
  let run := @applyEntryFilters Demo.world Demo.atLeastTwo (Demo.stateOf Demo.store) in
  let jan1 := {| Date := "Jan 1";
                 Entries := [ {| IP := "10.0.0.1"; Location := Demo.berlin; Count := 2;
                                 Users := ["admin"; "root"] |} ] |} in
  countsPositive (heap (Demo.stateOf Demo.store)) /\
  fst run = Returned tt /\
  @bucketOutput Demo.world Demo.atLeastTwo jan1
  = headerOutput jan1 ++ concat (map (@entryOutput Demo.world) (Entries jan1)) ++ [Stdout nl].
Proof.
  intros run jan1.
  assert (Hpos : countsPositive (heap (Demo.stateOf Demo.store))).
  { repeat constructor; simpl; vm_compute; discriminate. }
  assert (Hret : fst run = Returned tt) by (vm_compute; reflexivity).
  assert (Hheap : heap (snd run) = [ jan1; {| Date := "Jan 2"; Entries := [] |} ])
    by (vm_compute; reflexivity).
  split; [exact Hpos|]. split; [exact Hret|].
  apply (@print_shows_all_that_is_left Demo.world Demo.atLeastTwo
           (Demo.stateOf Demo.store) Hpos Hret jan1).
  fold run. rewrite Hheap. apply list_elem_of_here.
Defined.

Lemma address_filter_bounds_lookups_witness :
  address Demo.fromOne <> "" /\
  uniqueIPs (heap (Demo.stateOf Demo.store)) /\
  (requests (snd (@filterBucket Demo.world Demo.fromOne 0 (Demo.stateOf Demo.store)))
   <= 0 + 1)%nat /\
  requestedIPs (trace (snd (@filterBucket Demo.world Demo.fromOne 1
                              (Demo.stateOf Demo.store)))) = [] /\
  requestedIPs (trace (snd (@applyEntryFilters Demo.world Demo.fromOne
                              (Demo.stateOf Demo.store)))) = ["10.0.0.1"].
Proof.
  assert (Ha : address Demo.fromOne <> "") by discriminate.
  assert (Hu : uniqueIPs (heap (Demo.stateOf Demo.store))).
  { repeat constructor; simpl; intros Hin; inversion Hin. }
  assert (Hp : @patternUsable Demo.world Demo.fromOne).
  { right. exists "Berlin". reflexivity. }
  destruct (@address_filter_bounds_lookups Demo.world Demo.fromOne
              (Demo.stateOf Demo.store) Ha Hu) as [Hbucket Hrun].
  split; [exact Ha|]. split; [exact Hu|].
  destruct (Hbucket 0%nat _ eq_refl) as (Hle & _).
  destruct (Hbucket 1%nat _ eq_refl) as (_ & Hreq & _).
  destruct (Hrun Hp) as [Hall _].
  split; [exact Hle|]. split.
  - rewrite Hreq. reflexivity.
  - rewrite Hall. reflexivity.
Defined.

(** ** A pattern that does not compile: the state at the panic *)

Section PanicState.

Context {E : Env}.
Variable fl : flags.

Lemma filterBucket_bad_panic_state err idx st d ae sv :
  nonEmpty (locale fl) = true ->
  regexpCompile (locale fl) = inr err ->
  heap st !! idx = Some d ->
  survivors fl (Entries d) = ae :: sv ->
  filterBucket fl idx st
  = (Panicked (compilePanic fl err),
     mkState (<[idx := withEntries d (locatedFrom (requests st) (ae :: sv))]> (heap st))
             (requests st + length (ae :: sv))%nat (S (compiles st))
             (trace st ++ lookupTrace fl (requests st) (ae :: sv))).
Proof.
  intros Hon Hrx H Hsv. pose proof (lookup_lt_Some _ _ _ H) as Hlt.
  rewrite filterBucket_split.
  rewrite (bind_Returned _ _ _ _ _ (located_run fl idx st d H)).
  rewrite Hsv.
  erewrite (localeFilter_bad fl err);
    [reflexivity | exact Hon | exact Hrx
     | simpl; apply list_lookup_insert_eq; exact Hlt | reflexivity].
Qed.

Lemma firstSurvivors_nil store :
  firstSurvivors fl store = [] <-> allSurvivors fl store = [].
Proof.
  unfold allSurvivors. induction store as [|d rest IH]; simpl; [tauto|].
  destruct (survivors fl (Entries d)) as [|ae sv]; simpl; [exact IH|].
  split; discriminate.
Qed.

Lemma filterLoop_bad_state err rest : forall pre st,
  nonEmpty (locale fl) = true ->
  regexpCompile (locale fl) = inr err ->
  heap st = pre ++ rest ->
  allSurvivors fl rest <> [] ->
  forEach (seq (length pre) (length rest)) (filterBucket fl) st
  = (Panicked (compilePanic fl err),
     mkState (pre ++ panicStore fl (requests st) rest)
             (requests st + length (firstSurvivors fl rest))%nat (S (compiles st))
             (trace st ++ lookupTrace fl (requests st) (firstSurvivors fl rest))).
Proof.
  induction rest as [|d rest IH]; intros pre st Hon Hrx Hheap Hne.
  - exfalso. apply Hne. reflexivity.
  - assert (Hd : heap st !! length pre = Some d)
      by (rewrite Hheap; apply list_lookup_middle; reflexivity).
    simpl. destruct (survivors fl (Entries d)) as [|ae sv] eqn:Esv.
    + pose proof (filterBucket_bad_empty fl err _ st d Hon Hrx Hd Esv) as Hb.
      rewrite (bind_Returned _ _ _ _ _ Hb).
      assert (Hlen : length (pre ++ [withEntries d []]) = S (length pre))
        by (rewrite length_app; simpl; lia).
      rewrite <- Hlen. rewrite IH; [| exact Hon | exact Hrx | |].
      * simpl. rewrite <- app_assoc. reflexivity.
      * simpl. rewrite Hheap.
        replace (length pre) with (length pre + 0)%nat by lia.
        rewrite insert_app_r. simpl. rewrite <- app_assoc. reflexivity.
      * unfold allSurvivors in Hne |- *. simpl in Hne. rewrite Esv in Hne. exact Hne.
    + apply bind_Panicked.
      rewrite (filterBucket_bad_panic_state err _ st d ae sv Hon Hrx Hd Esv).
      rewrite Hheap.
      replace (length pre) with (length pre + 0)%nat at 1 by lia.
      rewrite insert_app_r. reflexivity.
Qed.

Lemma applyEntryFilters_panic err st :
  nonEmpty (locale fl) = true ->
  regexpCompile (locale fl) = inr err ->
  allSurvivors fl (heap st) <> [] ->
  applyEntryFilters fl st
  = (Panicked (compilePanic fl err),
     mkState (panicStore fl (requests st) (heap st))
             (requests st + length (firstSurvivors fl (heap st)))%nat (S (compiles st))
             (trace st ++ lookupTrace fl (requests st) (firstSurvivors fl (heap st)))).
Proof.
  intros Hon Hrx Hne. unfold applyEntryFilters.
  rewrite (bind_Returned _ _ _ (length (heap st)) st) by reflexivity.
  exact (filterLoop_bad_state err (heap st) [] st Hon Hrx eq_refl Hne).
Qed.

Lemma applyEntryFilters_emptied err st :
  nonEmpty (locale fl) = true ->
  regexpCompile (locale fl) = inr err ->
  allSurvivors fl (heap st) = [] ->
  applyEntryFilters fl st
  = (Returned tt,
     mkState (map (fun d => withEntries d []) (heap st))
             (requests st) (compiles st) (trace st)).
Proof.
  intros Hon Hrx Hnil. unfold applyEntryFilters.
  rewrite (bind_Returned _ _ _ (length (heap st)) st) by reflexivity.
  exact (proj1 (filterLoop_bad fl err (heap st) [] st Hon Hrx eq_refl) Hnil).
Qed.

(** X12: a pattern that does not compile is only found out after the
    lookups: before the run panics it has made the requests for every
    surviving entry of the first bucket that has one (at least one
    request), and it has made none for the buckets after it. *)
Theorem invalid_pattern_found_after_lookups (st : state) (err : string) :
  nonEmpty (locale fl) = true ->
  regexpCompile (locale fl) = inr err ->
  allSurvivors fl (heap st) <> [] ->
  exists st',
    applyEntryFilters fl st = (Panicked (compilePanic fl err), st') /\
    requestedIPs (trace st')
    = requestedIPs (trace st) ++ map IP (firstSurvivors fl (heap st)) /\
    firstSurvivors fl (heap st) <> [] /\
    heap st' = panicStore fl (requests st) (heap st).
Proof.
  intros Hon Hrx Hne. eexists.
  split; [apply applyEntryFilters_panic; assumption|]. simpl.
  split; [rewrite requestedIPs_app, requestedIPs_lookupTrace; reflexivity|].
  split; [|reflexivity].
  intros Hnil. apply Hne. apply firstSurvivors_nil. exact Hnil.
Qed.

End PanicState.

Lemma invalid_pattern_found_after_lookups_witness :
  nonEmpty (locale Demo.badPattern) = true /\
  exists st',
    @applyEntryFilters Demo.world Demo.badPattern (Demo.stateOf Demo.store)
    = (Panicked "regexp: Compile(`(`): missing closing )", st') /\
    requestedIPs (trace st') = ["10.0.0.1"] /\
    heap st'
    = [ {| Date := "Jan 1";
           Entries := [ {| IP := "10.0.0.1"; Location := Demo.berlin; Count := 2;
                           Users := ["admin"; "root"] |} ] |};
        {| Date := "Jan 2";
           Entries := [ {| IP := "10.0.0.2"; Location := zeroLocation; Count := 1;
                           Users := ["admin"] |} ] |} ].
Proof.
  split; [reflexivity|].
  destruct (@invalid_pattern_found_after_lookups Demo.world Demo.badPattern
              (Demo.stateOf Demo.store) "missing closing )" eq_refl eq_refl)
    as (st' & Hrun & Hreq & _ & Hheap); [discriminate|].
  exists st'. split; [exact Hrun|]. split.
  - rewrite Hreq. reflexivity.
  - rewrite Hheap. reflexivity.
Defined.

(** ** [main] from the first line to the last *)

Section Main.

Context {E : Env}.
Variable fl : flags.

Lemma print_run ae : forall st,
  print fl ae st = (Returned tt, appendTrace (printOutput fl ae) st).
Proof.
  unfold print, printOutput.
  induction ae as [|dae rest IH]; intros st; simpl.
  - rewrite appendTrace_nil. reflexivity.
  - rewrite (bind_Returned _ _ _ _ _ (printBucket_run fl dae st)).
    rewrite IH, appendTrace_app. reflexivity.
Qed.

(** What [main] does after the entry filters have returned in [st1]. *)
Lemma filterAndPrint_returned attempts st st1 :
  applyEntryFilters fl (mkState attempts (requests st) (compiles st) (trace st))
  = (Returned tt, st1) ->
  filterAndPrint fl attempts st
  = (Returned tt, appendTrace (outputTrace fl (heap st1)) st1).
Proof.
  intros Hrun. unfold filterAndPrint.
  rewrite (bind_Returned _ _ _ tt
             (mkState attempts (requests st) (compiles st) (trace st))) by reflexivity.
  rewrite (bind_Returned _ _ _ _ _ Hrun).
  rewrite (bind_Returned _ _ _ (heap st1) st1) by reflexivity.
  rewrite (bind_Returned _ _ _ _ _ (debug_run fl _ _ _)).
  rewrite bind_emit.
  unfold outputTrace. destruct (jsonOut fl).
  - erewrite bind_Returned; cycle 1.
    { rewrite (bind_Returned _ _ _ _ _ (debug_run fl _ _ _)).
      unfold jsonPrint. apply emit_run. }
    rewrite debug_run, !appendTrace_app.
    repeat rewrite <- app_assoc. reflexivity.
  - erewrite bind_Returned; cycle 1.
    { rewrite (bind_Returned _ _ _ _ _ (debug_run fl _ _ _)).
      apply print_run. }
    rewrite debug_run, !appendTrace_app.
    repeat rewrite <- app_assoc. reflexivity.
Qed.

Lemma filterAndPrint_panicked attempts st msg st1 :
  applyEntryFilters fl (mkState attempts (requests st) (compiles st) (trace st))
  = (Panicked msg, st1) ->
  filterAndPrint fl attempts st = (Panicked msg, st1).
Proof.
  intros Hrun. unfold filterAndPrint.
  rewrite (bind_Returned _ _ _ tt
             (mkState attempts (requests st) (compiles st) (trace st))) by reflexivity.
  apply bind_Panicked. exact Hrun.
Qed.

(** [main] up to the date step. *)
Lemma main_prelude file st :
  openFile (filename fl) = inl file ->
  main fl st
  = (if nonEmpty (date fl) then
       match applyDateFilter fl (parseSSHAttempts file) with
       | None => emit (LogPrintf "found no date matching supplied filter; exiting" [])
       | Some attempts' => filterAndPrint fl attempts'
       end
     else filterAndPrint fl (parseSSHAttempts file))
      (appendTrace (preludeTrace fl file) st).
Proof.
  intros Hopen. unfold main. rewrite Hopen.
  rewrite (bind_Returned _ _ _ _ _ (debug_run fl _ _ _)).
  assert (Hspin : forall s,
            when (negb (debugOn fl)) (emit SpinnerStart) s
            = (Returned tt, appendTrace (if negb (debugOn fl) then [SpinnerStart] else []) s)).
  { intros s. unfold when. destruct (negb (debugOn fl)); [reflexivity|].
    rewrite appendTrace_nil. reflexivity. }
  rewrite (bind_Returned _ _ _ _ _ (Hspin _)).
  rewrite (bind_Returned _ _ _ _ _ (debug_run fl _ _ _)).
  rewrite (bind_Returned _ _ _ _ _ (debug_run fl _ _ _)).
  rewrite !appendTrace_app. unfold preludeTrace.
  repeat rewrite <- app_assoc. reflexivity.
Qed.

Lemma main_selected file sel st :
  openFile (filename fl) = inl file ->
  selectedStore fl (parseSSHAttempts file) = Some sel ->
  main fl st = filterAndPrint fl sel (appendTrace (preludeTrace fl file) st).
Proof.
  intros Hopen Hsel. rewrite (main_prelude file st Hopen).
  unfold selectedStore in Hsel. destruct (nonEmpty (date fl)).
  - rewrite Hsel. reflexivity.
  - injection Hsel as <-. reflexivity.
Qed.

Lemma main_fatal err st :
  openFile (filename fl) = inr err ->
  main fl st = (Exited 1, appendTrace [LogFatal err] st).
Proof. intros Hopen. unfold main. rewrite Hopen. reflexivity. Qed.

Lemma main_not_found file st :
  openFile (filename fl) = inl file ->
  selectedStore fl (parseSSHAttempts file) = None ->
  main fl st
  = (Returned tt,
     appendTrace (preludeTrace fl file
                  ++ [LogPrintf "found no date matching supplied filter; exiting" []]) st).
Proof.
  intros Hopen Hsel. rewrite (main_prelude file st Hopen).
  unfold selectedStore in Hsel. destruct (nonEmpty (date fl)); [|discriminate].
  rewrite Hsel, emit_run, appendTrace_app. reflexivity.
Qed.

Lemma main_run file sel st :
  openFile (filename fl) = inl file ->
  selectedStore fl (parseSSHAttempts file) = Some sel ->
  patternUsable fl ->
  main fl st
  = (Returned tt,
     mkState (filteredStore fl (requests st) sel)
             (requests st + length (allSurvivors fl sel))%nat
             (compiles st + compileCalls fl (length (allSurvivors fl sel)))%nat
             (trace st ++ preludeTrace fl file ++ filterTrace fl (requests st) sel
              ++ outputTrace fl (filteredStore fl (requests st) sel))).
Proof.
  intros Hopen Hsel Hp. rewrite (main_selected file sel st Hopen Hsel).
  erewrite filterAndPrint_returned by (apply applyEntryFilters_ok; exact Hp).
  unfold appendTrace. simpl. repeat rewrite <- app_assoc. reflexivity.
Qed.

Lemma main_emptied file sel err st :
  openFile (filename fl) = inl file ->
  selectedStore fl (parseSSHAttempts file) = Some sel ->
  nonEmpty (locale fl) = true ->
  regexpCompile (locale fl) = inr err ->
  allSurvivors fl sel = [] ->
  main fl st
  = (Returned tt,
     mkState (map (fun d => withEntries d []) sel) (requests st) (compiles st)
             (trace st ++ preludeTrace fl file
              ++ outputTrace fl (map (fun d => withEntries d []) sel))).
Proof.
  intros Hopen Hsel Hon Hrx Hnil. rewrite (main_selected file sel st Hopen Hsel).
  erewrite filterAndPrint_returned
    by (apply (applyEntryFilters_emptied fl err); [exact Hon | exact Hrx | exact Hnil]).
  unfold appendTrace. simpl. repeat rewrite <- app_assoc. reflexivity.
Qed.

Lemma main_panic file sel err st :
  openFile (filename fl) = inl file ->
  selectedStore fl (parseSSHAttempts file) = Some sel ->
  nonEmpty (locale fl) = true ->
  regexpCompile (locale fl) = inr err ->
  allSurvivors fl sel <> [] ->
  main fl st
  = (Panicked (compilePanic fl err),
     mkState (panicStore fl (requests st) sel)
             (requests st + length (firstSurvivors fl sel))%nat (S (compiles st))
             (trace st ++ preludeTrace fl file
              ++ lookupTrace fl (requests st) (firstSurvivors fl sel))).
Proof.
  intros Hopen Hsel Hon Hrx Hne. rewrite (main_selected file sel st Hopen Hsel).
  erewrite filterAndPrint_panicked
    by (apply (applyEntryFilters_panic fl err); [exact Hon | exact Hrx | exact Hne]).
  simpl. repeat rewrite <- app_assoc. reflexivity.
Qed.

End Main.

Section MainEnds.

Context {E : Env}.
Variable fl : flags.

(** The five ways [main] can go. *)
Lemma main_cases st :
  (exists err,
     openFile (filename fl) = inr err /\
     main fl st = (Exited 1, appendTrace [LogFatal err] st)) \/
  (exists file,
     openFile (filename fl) = inl file /\
     selectedStore fl (parseSSHAttempts file) = None /\
     main fl st
     = (Returned tt,
        appendTrace (preludeTrace fl file
                     ++ [LogPrintf "found no date matching supplied filter; exiting" []])
                    st)) \/
  (exists file sel,
     openFile (filename fl) = inl file /\
     selectedStore fl (parseSSHAttempts file) = Some sel /\
     patternUsable fl /\
     main fl st
     = (Returned tt,
        mkState (filteredStore fl (requests st) sel)
                (requests st + length (allSurvivors fl sel))%nat
                (compiles st + compileCalls fl (length (allSurvivors fl sel)))%nat
                (trace st ++ preludeTrace fl file ++ filterTrace fl (requests st) sel
                 ++ outputTrace fl (filteredStore fl (requests st) sel)))) \/
  (exists file sel err,
     openFile (filename fl) = inl file /\
     selectedStore fl (parseSSHAttempts file) = Some sel /\
     nonEmpty (locale fl) = true /\ regexpCompile (locale fl) = inr err /\
     allSurvivors fl sel = [] /\
     main fl st
     = (Returned tt,
        mkState (map (fun d => withEntries d []) sel) (requests st) (compiles st)
                (trace st ++ preludeTrace fl file
                 ++ outputTrace fl (map (fun d => withEntries d []) sel)))) \/
  (exists file sel err,
     openFile (filename fl) = inl file /\
     selectedStore fl (parseSSHAttempts file) = Some sel /\
     nonEmpty (locale fl) = true /\ regexpCompile (locale fl) = inr err /\
     allSurvivors fl sel <> [] /\
     main fl st
     = (Panicked (compilePanic fl err),
        mkState (panicStore fl (requests st) sel)
                (requests st + length (firstSurvivors fl sel))%nat (S (compiles st))
                (trace st ++ preludeTrace fl file
                 ++ lookupTrace fl (requests st) (firstSurvivors fl sel)))).
Proof.
  destruct (openFile (filename fl)) as [file|err] eqn:Hopen.
  2: { left. exists err. split; [reflexivity | apply main_fatal; exact Hopen]. }
  right.
  destruct (selectedStore fl (parseSSHAttempts file)) as [sel|] eqn:Hsel.
  2: { left. exists file. split; [reflexivity|]. split; [exact Hsel|].
       apply main_not_found; assumption. }
  right.
  destruct (nonEmpty (locale fl)) eqn:Hon.
  2: { left. exists file, sel. split; [reflexivity|]. split; [exact Hsel|].
       assert (Hp : patternUsable fl) by (left; exact Hon).
       split; [exact Hp | apply main_run; assumption]. }
  destruct (regexpCompile (locale fl)) as [rx|err] eqn:Hrx.
  { left. exists file, sel. split; [reflexivity|]. split; [exact Hsel|].
    assert (Hp : patternUsable fl) by (right; exists rx; exact Hrx).
    split; [exact Hp | apply main_run; assumption]. }
  right.
  destruct (allSurvivors fl sel) as [|ae rest] eqn:Hall.
  - left. exists file, sel, err. repeat (split; [first [reflexivity | assumption]|]).
    apply (main_emptied fl file sel err); assumption.
  - assert (Hne : allSurvivors fl sel <> []) by (rewrite Hall; discriminate).
    right. exists file, sel, err. repeat (split; [first [reflexivity | assumption]|]).
    apply (main_panic fl file sel err); assumption.
Qed.

Lemma stdoutOf_app t1 t2 : stdoutOf (t1 ++ t2) = stdoutOf t1 ++ stdoutOf t2.
Proof. apply omap_app. Qed.

Lemma stdoutOf_lookupTrace es : forall n, stdoutOf (lookupTrace fl n es) = [].
Proof.
  induction es as [|ae rest IH]; intros n; simpl; [reflexivity|].
  rewrite stdoutOf_app, IH, app_nil_r. unfold lookupEvents.
  destruct (debugOn fl); destruct (network n (IP ae)); reflexivity.
Qed.

Lemma stdoutOf_filterTrace store : forall n, stdoutOf (filterTrace fl n store) = [].
Proof.
  induction store as [|d rest IH]; intros n; simpl; [reflexivity|].
  rewrite stdoutOf_app, stdoutOf_lookupTrace, IH. reflexivity.
Qed.

Lemma stdoutOf_outputTrace final :
  stdoutOf (outputTrace fl final)
  = if jsonOut fl then [String.append (marshalIndent final) nl]
    else stdoutOf (printOutput fl final).
Proof.
  unfold outputTrace. rewrite !stdoutOf_app.
  destruct (debugOn fl); destruct (jsonOut fl); simpl;
    rewrite ?stdoutOf_app, ?app_nil_r; reflexivity.
Qed.

Lemma requestedIPs_printOutput final : requestedIPs (printOutput fl final) = [].
Proof.
  unfold printOutput. induction final as [|d rest IH]; simpl; [reflexivity|].
  rewrite requestedIPs_app, IH, app_nil_r. unfold bucketOutput.
  rewrite !requestedIPs_app. simpl.
  induction (List.filter _ (Entries d)) as [|ae es IHes]; simpl; [reflexivity|].
  rewrite app_nil_r in IHes. rewrite IHes. reflexivity.
Qed.

Lemma requestedIPs_outputTrace final : requestedIPs (outputTrace fl final) = [].
Proof.
  unfold outputTrace. rewrite !requestedIPs_app.
  destruct (debugOn fl); destruct (jsonOut fl); simpl;
    rewrite ?requestedIPs_app, ?requestedIPs_printOutput; reflexivity.
Qed.

(** X13: once [flag.Parse] has accepted the command line, the rest of
    [main] exits only when the log file cannot be opened, with status [1]
    and nothing but the error reported; it panics only when the file
    opens, the date step leaves a store, the pattern of the location
    filter does not compile and an entry reaches that filter; and in both
    cases nothing has been written to standard output. *)
Theorem main_exits_and_panics (st : state) :
  (forall code,
     fst (main fl st) = Exited code ->
     code = 1 /\
     (exists err, openFile (filename fl) = inr err /\
                  trace (snd (main fl st)) = trace st ++ [LogFatal err]) /\
     requests (snd (main fl st)) = requests st) /\
  (forall err, openFile (filename fl) = inr err -> fst (main fl st) = Exited 1) /\
  (forall msg,
     fst (main fl st) = Panicked msg ->
     exists file sel err,
       openFile (filename fl) = inl file /\
       selectedStore fl (parseSSHAttempts file) = Some sel /\
       nonEmpty (locale fl) = true /\
       regexpCompile (locale fl) = inr err /\
       allSurvivors fl sel <> [] /\
       msg = compilePanic fl err) /\
  (forall file sel err,
     openFile (filename fl) = inl file ->
     selectedStore fl (parseSSHAttempts file) = Some sel ->
     nonEmpty (locale fl) = true ->
     regexpCompile (locale fl) = inr err ->
     allSurvivors fl sel <> [] ->
     fst (main fl st) = Panicked (compilePanic fl err)) /\
  (fst (main fl st) <> Returned tt ->
   stdoutOf (trace (snd (main fl st))) = stdoutOf (trace st)).
Proof.
  destruct (main_cases st)
    as [(err & Hopen & Hm)
       | [(file & Hopen & Hsel & Hm)
         | [(file & sel & Hopen & Hsel & Hp & Hm)
           | [(file & sel & err & Hopen & Hsel & Hon & Hrx & Hall & Hm)
             | (file & sel & err & Hopen & Hsel & Hon & Hrx & Hall & Hm)]]]];
    rewrite Hm; simpl.
  all: split; [intros code Hc; try discriminate|].
  all: try (injection Hc as <-; split; [reflexivity|];
            split; [exists err; split; [exact Hopen | reflexivity] | reflexivity]).
  all: split; [intros err' Hopen'; try reflexivity; congruence|].
  all: split; [intros msg Hmsg; try discriminate|].
  all: try (injection Hmsg as <-; exists file, sel, err; auto 10).
  all: split; [intros file' sel' err' Hopen' Hsel' Hon' Hrx' Hall'; try congruence|].
  all: try (intros Hne; exfalso; apply Hne; reflexivity).
  - intros _. rewrite stdoutOf_app. simpl. rewrite app_nil_r. reflexivity.
  - destruct Hp as [Hoff | [rx Hrx]]; congruence.
  - intros _. rewrite !stdoutOf_app, stdoutOf_lookupTrace.
    rewrite (proj2 (preludeTrace_silent fl file)), !app_nil_r. reflexivity.
Qed.

(** X14: when the file opens, the date step leaves a store and the
    location filter can run, [main] returns having written to standard
    output exactly the rendering of the final store (the text of [print],
    or one JSON document and a newline) and nothing else, whatever the
    debug flag; the final store is the filtered selected store, and the
    lookups made are those of its surviving entries. *)
Theorem main_prints_the_filtered_store (st : state) (file : list string)
    (sel : allEntries) :
  openFile (filename fl) = inl file ->
  selectedStore fl (parseSSHAttempts file) = Some sel ->
  patternUsable fl ->
  exists st',
    main fl st = (Returned tt, st') /\
    heap st' = filteredStore fl (requests st) sel /\
    stdoutOf (trace st')
    = stdoutOf (trace st)
      ++ (if jsonOut fl then [String.append (marshalIndent (heap st')) nl]
          else stdoutOf (printOutput fl (heap st'))) /\
    requestedIPs (trace st') = requestedIPs (trace st) ++ map IP (allSurvivors fl sel).
Proof.
  intros Hopen Hsel Hp. eexists.
  split; [apply (main_run fl file sel st Hopen Hsel Hp)|]. simpl.
  split; [reflexivity|]. split.
  - rewrite !stdoutOf_app, stdoutOf_filterTrace, stdoutOf_outputTrace.
    rewrite (proj2 (preludeTrace_silent fl file)). reflexivity.
  - rewrite !requestedIPs_app, requestedIPs_filterTrace, requestedIPs_outputTrace.
    rewrite (proj1 (preludeTrace_silent fl file)), app_nil_r. reflexivity.
Qed.

End MainEnds.

(** ** The debug flag *)

Section DebugFlag.

Context {E : Env}.
Variable fl : flags.
Variable b : bool.

Lemma applyDateFilter_withDebug dae :
  applyDateFilter (withDebug fl b) dae = applyDateFilter fl dae.
Proof. induction dae as [|d rest IH]; simpl; [reflexivity | rewrite IH; reflexivity]. Qed.

Lemma selectedStore_withDebug attempts :
  selectedStore (withDebug fl b) attempts = selectedStore fl attempts.
Proof. unfold selectedStore. simpl. rewrite applyDateFilter_withDebug. reflexivity. Qed.

Lemma survivors_withDebug es : survivors (withDebug fl b) es = survivors fl es.
Proof. reflexivity. Qed.

Lemma localeStage_withDebug es : localeStage (withDebug fl b) es = localeStage fl es.
Proof. reflexivity. Qed.

Lemma filteredStore_withDebug store : forall n,
  filteredStore (withDebug fl b) n store = filteredStore fl n store.
Proof.
  induction store as [|d rest IH]; intros n; simpl; [reflexivity|].
  rewrite IH. reflexivity.
Qed.

Lemma firstSurvivors_withDebug store :
  firstSurvivors (withDebug fl b) store = firstSurvivors fl store.
Proof.
  induction store as [|d rest IH]; simpl; [reflexivity|].
  rewrite IH. reflexivity.
Qed.

Lemma panicStore_withDebug store : forall n,
  panicStore (withDebug fl b) n store = panicStore fl n store.
Proof.
  induction store as [|d rest IH]; intros n; simpl; [reflexivity|].
  rewrite IH. reflexivity.
Qed.

Lemma printOutput_withDebug final :
  printOutput (withDebug fl b) final = printOutput fl final.
Proof. reflexivity. Qed.

(** X15: the debug flag changes what is logged (and whether the spinner
    is started) and nothing else: with the flag set either way [main]
    ends the same way, with the same store, the same lookups, the same
    number of pattern compilations and the same text on standard output. *)
Theorem debug_flag_changes_only_the_log (st : state) :
  observe (main (withDebug fl b) st) = observe (main fl st).
Proof.
  destruct (main_cases fl st)
    as [(err & Hopen & Hm)
       | [(file & Hopen & Hsel & Hm)
         | [(file & sel & Hopen & Hsel & Hp & Hm)
           | [(file & sel & err & Hopen & Hsel & Hon & Hrx & Hall & Hm)
             | (file & sel & err & Hopen & Hsel & Hon & Hrx & Hall & Hm)]]]];
    rewrite Hm.
  - rewrite (main_fatal (withDebug fl b) err st Hopen). reflexivity.
  - rewrite (main_not_found (withDebug fl b) file st Hopen)
      by (rewrite selectedStore_withDebug; exact Hsel).
    unfold observe. simpl.
    rewrite !stdoutOf_app, !requestedIPs_app.
    rewrite (proj1 (preludeTrace_silent (withDebug fl b) file)),
            (proj2 (preludeTrace_silent (withDebug fl b) file)),
            (proj1 (preludeTrace_silent fl file)),
            (proj2 (preludeTrace_silent fl file)).
    reflexivity.
  - rewrite (main_run (withDebug fl b) file sel st Hopen)
      by (first [rewrite selectedStore_withDebug; exact Hsel | exact Hp]).
    unfold observe. simpl.
    rewrite !stdoutOf_app, !requestedIPs_app.
    rewrite !stdoutOf_filterTrace, !stdoutOf_outputTrace.
    rewrite !requestedIPs_filterTrace, !requestedIPs_outputTrace.
    rewrite (proj1 (preludeTrace_silent (withDebug fl b) file)),
            (proj2 (preludeTrace_silent (withDebug fl b) file)),
            (proj1 (preludeTrace_silent fl file)),
            (proj2 (preludeTrace_silent fl file)).
    rewrite filteredStore_withDebug. reflexivity.
  - rewrite (main_emptied (withDebug fl b) file sel err st Hopen)
      by (first [rewrite selectedStore_withDebug; exact Hsel
                | exact Hon | exact Hrx | exact Hall]).
    unfold observe. simpl.
    rewrite !stdoutOf_app, !requestedIPs_app.
    rewrite !stdoutOf_outputTrace, !requestedIPs_outputTrace.
    rewrite (proj1 (preludeTrace_silent (withDebug fl b) file)),
            (proj2 (preludeTrace_silent (withDebug fl b) file)),
            (proj1 (preludeTrace_silent fl file)),
            (proj2 (preludeTrace_silent fl file)).
    reflexivity.
  - rewrite (main_panic (withDebug fl b) file sel err st Hopen)
      by (first [rewrite selectedStore_withDebug; exact Hsel
                | exact Hon | exact Hrx | exact Hall]).
    unfold observe. simpl.
    rewrite !stdoutOf_app, !requestedIPs_app.
    rewrite !stdoutOf_lookupTrace, !requestedIPs_lookupTrace.
    rewrite (proj1 (preludeTrace_silent (withDebug fl b) file)),
            (proj2 (preludeTrace_silent (withDebug fl b) file)),
            (proj1 (preludeTrace_silent fl file)),
            (proj2 (preludeTrace_silent fl file)).
    rewrite panicStore_withDebug, firstSurvivors_withDebug. reflexivity.
Qed.

End DebugFlag.

Lemma main_exits_and_panics_witness :
  openFile (Env := Demo.world) (filename Demo.noSuchFile)
  = inr "open: no such file or directory" /\
  @main Demo.world Demo.noSuchFile initialState
  = (Exited 1,
     {| heap := []; requests := 0; compiles := 0;
        trace := [LogFatal "open: no such file or directory"] |}) /\
  fst (@main Demo.world Demo.badPattern initialState)
  = Panicked "regexp: Compile(`(`): missing closing )" /\
  stdoutOf (trace (snd (@main Demo.world Demo.badPattern initialState))) = [].
Proof.
  split; [reflexivity|]. split; [vm_compute; reflexivity|].
  destruct (@main_exits_and_panics Demo.world Demo.badPattern initialState)
    as (_ & _ & _ & Hpanic & Hquiet).
  assert (Hp : fst (@main Demo.world Demo.badPattern initialState)
               = Panicked "regexp: Compile(`(`): missing closing )").
  { apply (Hpanic Demo.authLog Demo.store "missing closing )");
      try reflexivity. discriminate. }
  split; [exact Hp|].
  apply Hquiet. rewrite Hp. discriminate.
Defined.

Lemma main_prints_the_filtered_store_witness :
  openFile (Env := Demo.world) (filename Demo.asJSON) = inl Demo.authLog /\
  selectedStore Demo.asJSON (@parseSSHAttempts Demo.world Demo.authLog) = Some Demo.store /\
  @patternUsable Demo.world Demo.asJSON /\
  exists st',
    @main Demo.world Demo.asJSON initialState = (Returned tt, st') /\
    stdoutOf (trace st') = [String.append "[]" nl] /\
    requestedIPs (trace st') = ["10.0.0.1"; "10.0.0.2"].
Proof.
  assert (Hp : @patternUsable Demo.world Demo.asJSON) by (left; reflexivity).
  split; [reflexivity|]. split; [reflexivity|]. split; [exact Hp|].
  destruct (@main_prints_the_filtered_store Demo.world Demo.asJSON initialState
              Demo.authLog Demo.store eq_refl eq_refl Hp)
    as (st' & Hrun & _ & Hout & Hreq).
  exists st'. split; [exact Hrun|]. split.
  - rewrite Hout. reflexivity.
  - rewrite Hreq. reflexivity.
Defined.

(** ** [generateSpinnerSet] *)

Lemma string_length_append (a c : string) :
  String.length (String.append a c) = (String.length a + String.length c)%nat.
Proof. induction a as [|x a IH]; simpl; [reflexivity | rewrite IH; reflexivity]. Qed.

Lemma repeatString_length (s : string) n :
  String.length (repeatString s n) = (n * String.length s)%nat.
Proof.
  induction n as [|n IH]; simpl; [reflexivity|].
  rewrite string_length_append, IH. reflexivity.
Qed.

Lemma spinnerFrame_length n k :
  (k <= n)%nat -> String.length (spinnerFrame n k) = n.
Proof.
  intros H. unfold spinnerFrame.
  rewrite string_length_append, !repeatString_length. simpl. lia.
Qed.

Lemma stringsRepeat_value s count :
  0 <= count -> stringsRepeat s count = Value (repeatString s (Z.to_nat count)).
Proof.
  intros H. unfold stringsRepeat.
  destruct (Z.ltb_spec count 0); [lia | reflexivity].
Qed.

(** The loop runs [max + 1 - i] more times and then leaves by its test. *)
Lemma spinnerLoop_frames max n : forall fuel i set,
  0 <= i -> max < GoInt.max_int ->
  n = Z.to_nat (max + 1 - i) ->
  (n < fuel)%nat ->
  spinnerLoop fuel max i set
  = Some (Value (set ++ map (spinnerFrame (Z.to_nat max)) (seq (Z.to_nat i) n))).
Proof.
  induction n as [|n IH]; intros fuel i set Hi Hmax Hn Hfuel;
    (destruct fuel as [|fuel]; [lia|]); simpl.
  - destruct (Z.leb_spec i max); [lia|]. rewrite app_nil_r. reflexivity.
  - destruct (Z.leb_spec i max); [|lia].
    rewrite (stringsRepeat_value ">" i Hi).
    rewrite wrap_in_range
      by (unfold GoInt.in_range; rewrite min_int_value; lia).
    rewrite (stringsRepeat_value " " (max - i)) by lia.
    rewrite incr_below_max by (rewrite min_int_value; lia).
    rewrite IH by lia.
    rewrite <- app_assoc. simpl.
    replace (Z.to_nat (i + 1)) with (S (Z.to_nat i)) by lia.
    unfold spinnerFrame at 2.
    replace (Z.to_nat (max - i)) with (Z.to_nat max - Z.to_nat i)%nat by lia.
    reflexivity.
Qed.

(** X16: for a terminal width that fits an [int], [generateSpinnerSet]
    returns without a panic (its loop ends by its own test, and
    [strings.Repeat] never gets a negative count); with [cols] being 80
    for a width of 80 or more and [width - 2] below that, it yields
    [cols + 1] frames, frame [k] being [k] arrows followed by spaces up to
    [cols] characters; and for a width below 2 it yields no frame. *)
Theorem generateSpinnerSet_frames (width : Z) (fuel : nat) :
  0 <= width <= GoInt.max_int ->
  let cols := if (width <? 80)%Z then width - 2 else 80 in
  (Z.to_nat (cols + 1) < fuel)%nat ->
  exists set,
    generateSpinnerSet fuel width = Some (Value set) /\
    length set = Z.to_nat (cols + 1) /\
    (forall k, (k < length set)%nat ->
               set !! k = Some (spinnerFrame (Z.to_nat cols) k)) /\
    Forall (fun frame => String.length frame = Z.to_nat cols) set /\
    (width < 2 -> set = []).
Proof.
  intros Hw cols Hfuel.
  assert (Hmax : GoInt.max_int = 9223372036854775807) by reflexivity.
  assert (Hcols : (if (maxWidth >? GoInt.wrap width)%Z
                   then GoInt.wrap (GoInt.wrap width - 2) else maxWidth) = cols).
  { rewrite (wrap_in_range width)
      by (unfold GoInt.in_range; rewrite min_int_value; lia).
    unfold cols, maxWidth.
    destruct (Z.gtb_spec 80 width); destruct (Z.ltb_spec width 80); try lia.
    apply wrap_in_range. unfold GoInt.in_range. rewrite min_int_value. lia. }
  assert (Hcmax : cols < GoInt.max_int).
  { unfold cols. destruct (Z.ltb_spec width 80); lia. }
  exists (map (spinnerFrame (Z.to_nat cols)) (seq 0 (Z.to_nat (cols + 1)))).
  split; [|split; [|split; [|split]]].
  - unfold generateSpinnerSet. rewrite Hcols.
    rewrite (spinnerLoop_frames cols (Z.to_nat (cols + 1)) fuel 0 []);
      [reflexivity | lia | exact Hcmax | f_equal; lia | exact Hfuel].
  - rewrite length_map, length_seq. reflexivity.
  - intros k Hk. rewrite length_map, length_seq in Hk.
    rewrite list_lookup_fmap, lookup_seq_lt by exact Hk. reflexivity.
  - apply Forall_forall. intros frame Hin.
    apply list_elem_of_fmap in Hin as (k & -> & Hk).
    apply elem_of_seq in Hk. apply spinnerFrame_length. lia.
  - intros Hnarrow. unfold cols. destruct (Z.ltb_spec width 80); [|lia].
    replace (Z.to_nat (width - 2 + 1)) with 0%nat by lia. reflexivity.
Qed.

Lemma generateSpinnerSet_frames_witness :
  0 <= 5 <= GoInt.max_int /\
  (exists set,
     generateSpinnerSet 10 5 = Some (Value set) /\
     length set = 4%nat /\
     set !! 1%nat = Some (String.append ">" "  ")) /\
  generateSpinnerSet 10 1 = Some (Value []).
Proof.
  assert (H5 : 0 <= 5 <= GoInt.max_int) by (vm_compute; split; discriminate).
  assert (H1 : 0 <= 1 <= GoInt.max_int) by (vm_compute; split; discriminate).
  split; [exact H5|]. split.
  - destruct (generateSpinnerSet_frames 5 10 H5) as (set & Hrun & Hlen & Hframe & _);
      [vm_compute; lia|].
    exists set. split; [exact Hrun|]. split; [exact Hlen|].
    apply (Hframe 1%nat). rewrite Hlen. vm_compute. lia.
  - destruct (generateSpinnerSet_frames 1 10 H1) as (set & Hrun & _ & _ & _ & Hnarrow);
      [vm_compute; lia|].
    rewrite Hrun, Hnarrow; [reflexivity | lia].
Defined.

Example generateSpinnerSet_demo :
  generateSpinnerSet 10 5
  = Some (Value [ String.append "" "   "; String.append ">" "  ";
                  String.append ">>" " "; String.append ">>>" "" ]).
Proof. vm_compute. reflexivity. Qed.

(** ** [exists] after [addUser], and [print] under two thresholds *)

Lemma existsFrom_same_IPs es es' : forall k ip,
  map IP es' = map IP es -> existsFrom k es' ip = existsFrom k es ip.
Proof.
  revert es'. induction es as [|a rest IH]; intros [|a' rest'] k ip H;
    try discriminate; [reflexivity|].
  simpl in *. injection H as Ha Hrest. rewrite Ha.
  destruct (String.eqb (IP a) ip); [reflexivity | apply IH; exact Hrest].
Qed.

(** X17: [addUser] does not disturb [exists]: after [addUser] on any
    entry of a bucket, [exists] answers for every IP what it answered
    before, so later attempts from an IP keep reaching the same entry. *)
Theorem addUser_keeps_exists (dae : datedAuthEntries) (j : nat) (ae : authEntry)
    (username ip : string) :
  Entries dae !! j = Some ae ->
  exists_ (withEntries dae (<[j := addUser ae username]> (Entries dae))) ip
  = exists_ dae ip.
Proof.
  intros H. unfold exists_. simpl. apply existsFrom_same_IPs.
  apply map_IP_addUser. exact H.
Qed.

Lemma addUser_keeps_exists_witness :
  let dae := {| Date := "Jan 1";
                Entries := [newEntry "10.0.0.1" "a"; newEntry "10.0.0.2" "b"] |} in
  Entries dae !! 1%nat = Some (newEntry "10.0.0.2" "b") /\
  exists_ (withEntries dae (<[1%nat := addUser (newEntry "10.0.0.2" "b") "c"]> (Entries dae)))
          "10.0.0.2"
  = (1%nat, true).
Proof.
  intros dae. split; [reflexivity|].
  rewrite (addUser_keeps_exists dae 1 (newEntry "10.0.0.2" "b") "c" "10.0.0.2" eq_refl).
  reflexivity.
Defined.

Section Thresholds.

Context {E : Env}.
Variables fl1 fl2 : flags.

Lemma filter_sublist_stronger (p q : authEntry -> bool) es :
  (forall ae, q ae = true -> p ae = true) ->
  List.filter q es `sublist_of` List.filter p es.
Proof.
  intros Hqp. induction es as [|ae rest IH]; simpl; [constructor|].
  destruct (q ae) eqn:Hq.
  - rewrite (Hqp ae Hq). apply sublist_skip. exact IH.
  - destruct (p ae); [apply sublist_cons|]; exact IH.
Qed.

Lemma concat_map_sublist {A B} (f : A -> list B) l1 l2 :
  l1 `sublist_of` l2 -> concat (map f l1) `sublist_of` concat (map f l2).
Proof.
  induction 1 as [|x l1 l2 _ IH|x l1 l2 _ IH]; simpl.
  - constructor.
  - apply sublist_app; [reflexivity | exact IH].
  - apply sublist_inserts_l. exact IH.
Qed.

Lemma printOutput_sublist store :
  threshold fl1 <= threshold fl2 ->
  printOutput fl2 store `sublist_of` printOutput fl1 store.
Proof.
  intros Hle. unfold printOutput.
  induction store as [|d rest IH]; [constructor|].
  cbn [List.map List.concat].
  apply sublist_app; [|exact IH]. unfold bucketOutput.
  apply sublist_app; [reflexivity|]. apply sublist_app; [|reflexivity].
  apply concat_map_sublist, filter_sublist_stronger.
  intros ae Hae. apply Z.geb_le in Hae. apply Z.geb_le. lia.
Qed.

(** X18: raising the threshold never makes [print] write more: what it
    writes under the higher threshold is a subsequence of what it writes
    under the lower one, bucket headers included. *)
Theorem print_is_monotone_in_threshold (store : allEntries) (st : state) :
  threshold fl1 <= threshold fl2 ->
  exists t1 t2,
    print fl1 store st = (Returned tt, appendTrace t1 st) /\
    print fl2 store st = (Returned tt, appendTrace t2 st) /\
    t2 `sublist_of` t1 /\
    stdoutOf t2 `sublist_of` stdoutOf t1.
Proof.
  intros Hle. exists (printOutput fl1 store), (printOutput fl2 store).
  split; [apply print_run|]. split; [apply print_run|].
  pose proof (printOutput_sublist store Hle) as Hs.
  split; [exact Hs|].
  unfold stdoutOf. clear -Hs.
  induction Hs as [|x l1 l2 _ IH|x l1 l2 _ IH]; simpl.
  - constructor.
  - destruct x; simpl; try exact IH. apply sublist_skip. exact IH.
  - destruct x; simpl; try exact IH. apply sublist_cons. exact IH.
Qed.

End Thresholds.

Lemma print_is_monotone_in_threshold_witness :
  threshold defaultFlags <= threshold Demo.atLeastTwo /\
  exists t1 t2,
    @print Demo.world defaultFlags Demo.store initialState
    = (Returned tt, appendTrace t1 initialState) /\
    @print Demo.world Demo.atLeastTwo Demo.store initialState
    = (Returned tt, appendTrace t2 initialState) /\
    t2 `sublist_of` t1.
Proof.
  assert (Hle : threshold defaultFlags <= threshold Demo.atLeastTwo)
    by (vm_compute; discriminate).
  split; [exact Hle|].
  destruct (@print_is_monotone_in_threshold Demo.world defaultFlags Demo.atLeastTwo
              Demo.store initialState Hle) as (t1 & t2 & H1 & H2 & Hs & _).
  exists t1, t2. split; [exact H1|]. split; [exact H2 | exact Hs].
Defined.

(** * The parser and the date step, end to end *)

(** ** One entry for each date and IP, counting its attempt lines *)

Section KeyCounts.

Context {E : Env}.

Lemma entriesFor_app s1 s2 date ip :
  entriesFor (s1 ++ s2) date ip = entriesFor s1 date ip ++ entriesFor s2 date ip.
Proof. unfold entriesFor. rewrite map_app, concat_app. reflexivity. Qed.

Lemma entriesFor_absent_date s date ip :
  date ∉ map Date s -> entriesFor s date ip = [].
Proof.
  unfold entriesFor. induction s as [|d rest IH]; intros H; simpl in *; [reflexivity|].
  apply not_elem_of_cons in H as [Hne Hrest].
  destruct (String.eqb_spec (Date d) date); [congruence|]. apply IH. exact Hrest.
Qed.

Lemma entriesFor_one d date ip :
  entriesFor [d] date ip = if String.eqb (Date d) date then entriesInBucket d ip else [].
Proof. unfold entriesFor. simpl. apply app_nil_r. Qed.

(** A store around its bucket [i]. *)
Lemma store_split (s : allEntries) i d :
  s !! i = Some d -> s = take i s ++ [d] ++ drop (S i) s.
Proof. intros H. symmetry. apply take_drop_middle. exact H. Qed.

Lemma insert_split (s : allEntries) i d d' :
  s !! i = Some d -> <[i := d']> s = take i s ++ [d'] ++ drop (S i) s.
Proof. intros H. apply insert_take_drop. eapply lookup_lt_Some. exact H. Qed.

Lemma dates_around (s : allEntries) i d :
  NoDup (map Date s) -> s !! i = Some d ->
  (Date d ∉ map Date (take i s)) /\ (Date d ∉ map Date (drop (S i) s)).
Proof.
  intros Hnd H. rewrite (store_split s i d H) in Hnd.
  rewrite !map_app in Hnd. simpl in Hnd.
  apply NoDup_app in Hnd as (_ & Hdisj & Hnd).
  apply NoDup_cons in Hnd as [Hfresh _]. split; [|exact Hfresh].
  intros Hin. apply (Hdisj _ Hin). apply list_elem_of_here.
Qed.

(** With unique dates, the entries for the date of bucket [i] are those
    of bucket [i]. *)
Lemma entriesFor_bucket (s : allEntries) i d ip :
  NoDup (map Date s) -> s !! i = Some d ->
  entriesFor s (Date d) ip = entriesInBucket d ip.
Proof.
  intros Hnd H. destruct (dates_around s i d Hnd H) as [Hpre Hpost].
  rewrite (store_split s i d H) at 1. rewrite !entriesFor_app.
  rewrite (entriesFor_absent_date _ _ _ Hpre), (entriesFor_absent_date _ _ _ Hpost).
  rewrite entriesFor_one, String.eqb_refl, app_nil_r. reflexivity.
Qed.

(** Changing bucket [i] does not change the entries for another date. *)
Lemma entriesFor_insert_other_date (s : allEntries) i d d' date ip :
  s !! i = Some d -> Date d' = Date d -> Date d <> date ->
  entriesFor (<[i := d']> s) date ip = entriesFor s date ip.
Proof.
  intros H Hd Hne. rewrite (insert_split s i d d' H).
  rewrite (store_split s i d H) at 3. rewrite !entriesFor_app, !entriesFor_one.
  rewrite Hd. destruct (String.eqb_spec (Date d) date); [congruence | reflexivity].
Qed.

Lemma entriesInBucket_at d j ae :
  NoDup (map IP (Entries d)) -> Entries d !! j = Some ae ->
  entriesInBucket d (IP ae) = [ae].
Proof.
  intros Hnd H. unfold entriesInBucket.
  rewrite <- (take_drop_middle _ _ _ H) in Hnd |- *.
  rewrite map_app in Hnd. simpl in Hnd.
  apply NoDup_app in Hnd as (_ & Hdisj & Hnd).
  apply NoDup_cons in Hnd as [Hfresh _].
  rewrite List.filter_app. simpl. rewrite String.eqb_refl.
  rewrite (filter_absent _ _ Hfresh), filter_absent; [reflexivity|].
  intros Hin. apply (Hdisj _ Hin). apply list_elem_of_here.
Qed.

Lemma entriesInBucket_absent d ip :
  ip ∉ map IP (Entries d) -> entriesInBucket d ip = [].
Proof. apply filter_absent. Qed.

Lemma filter_insert_irrelevant (p : authEntry -> bool) es j x y :
  es !! j = Some x -> p x = false -> p y = false ->
  List.filter p (<[j := y]> es) = List.filter p es.
Proof.
  intros H Hx Hy.
  rewrite (insert_take_drop es j y) by (eapply lookup_lt_Some; exact H).
  rewrite <- (take_drop_middle _ _ _ H) at 3.
  rewrite !List.filter_app. simpl. rewrite Hx, Hy. reflexivity.
Qed.

Lemma attemptsFor_snoc pre line date ip :
  attemptsFor (pre ++ [line]) date ip
  = (attemptsFor pre date ip + if isAttemptFor date ip line then 1 else 0)%nat.
Proof.
  unfold attemptsFor. rewrite List.filter_app, length_app. simpl.
  destruct (isAttemptFor date ip line); reflexivity.
Qed.

Lemma attemptsFor_le pre date ip : (attemptsFor pre date ip <= length pre)%nat.
Proof.
  unfold attemptsFor. induction pre as [|l rest IH]; simpl; [lia|].
  destruct (isAttemptFor date ip l); simpl; lia.
Qed.

Lemma countsOf_nil n : countsOf n = [] -> n = 0%nat.
Proof. destruct n; [reflexivity | discriminate]. Qed.

Lemma countsOf_one n c : [c] = countsOf n -> n <> 0%nat /\ c = Z.of_nat n.
Proof. destruct n; [discriminate|]. intros H. injection H as ->. split; [lia | reflexivity]. Qed.

(** An attempt for another date or IP leaves the entries for [date] and
    [ip] as they are. *)
Lemma recordAttempt_other_key s a date ip :
  NoDup (map Date s) ->
  String.eqb (attemptDate a) date && String.eqb (attemptIP a) ip = false ->
  entriesFor (recordAttempt s a) date ip = entriesFor s date ip.
Proof.
  intros Hnd Hkey.
  assert (Hother : attemptDate a = date -> attemptIP a <> ip).
  { intros Hd Hi. subst. rewrite !String.eqb_refl in Hkey. discriminate. }
  pose proof (recordAttempt_dates s a Hnd) as Hnd'.
  destruct (recordAttempt_cases s a)
    as [(i & d & j & ae & Hi & Hd & Hj & Hip & Heq)
       | [(i & d & Hi & Hd & Hnew & Heq) | (Hnew & Heq)]];
    rewrite Heq in Hnd' |- *.
  - destruct (String.eqb_spec (Date d) date) as [Hdate|Hdate].
    + pose proof (lookup_lt_Some _ _ _ Hi) as Hlt.
      rewrite <- Hdate.
      rewrite (entriesFor_bucket s i d ip Hnd Hi).
      erewrite (entriesFor_bucket _ i (withEntries d _) ip Hnd')
        by (apply list_lookup_insert_eq; exact Hlt).
      unfold entriesInBucket. simpl.
      assert (Hne : String.eqb (IP ae) ip = false).
      { apply String.eqb_neq. rewrite Hip. apply Hother. congruence. }
      apply (filter_insert_irrelevant _ _ _ ae); [exact Hj | exact Hne |].
      rewrite addUser_IP. exact Hne.
    + apply (entriesFor_insert_other_date s i d); [exact Hi | reflexivity | exact Hdate].
  - destruct (String.eqb_spec (Date d) date) as [Hdate|Hdate].
    + pose proof (lookup_lt_Some _ _ _ Hi) as Hlt.
      rewrite <- Hdate.
      rewrite (entriesFor_bucket s i d ip Hnd Hi).
      erewrite (entriesFor_bucket _ i (withEntries d _) ip Hnd')
        by (apply list_lookup_insert_eq; exact Hlt).
      unfold entriesInBucket. simpl. rewrite List.filter_app. simpl.
      assert (Hne : String.eqb (attemptIP a) ip = false).
      { apply String.eqb_neq. apply Hother. congruence. }
      rewrite Hne, app_nil_r. reflexivity.
    + apply (entriesFor_insert_other_date s i d); [exact Hi | reflexivity | exact Hdate].
  - rewrite entriesFor_app, entriesFor_one. simpl. unfold entriesInBucket. simpl.
    destruct (String.eqb_spec (attemptDate a) date) as [Hdate|Hdate];
      [|apply app_nil_r].
    assert (Hne : String.eqb (attemptIP a) ip = false).
    { apply String.eqb_neq. apply Hother. exact Hdate. }
    rewrite Hne. apply app_nil_r.
Qed.

(** An attempt for [date] and [ip] creates their entry with count [1]
    when there is none, and raises the count of the one entry there is. *)
Lemma recordAttempt_same_key s a n :
  NoDup (map Date s) -> uniqueIPs s ->
  Z.of_nat n < GoInt.max_int ->
  map Count (entriesFor s (attemptDate a) (attemptIP a)) = countsOf n ->
  map Count (entriesFor (recordAttempt s a) (attemptDate a) (attemptIP a))
  = countsOf (S n).
Proof.
  intros Hnd Hu Hn Hcount.
  pose proof (recordAttempt_dates s a Hnd) as Hnd'.
  pose proof (recordAttempt_uniqueIPs s a Hu) as Hu'.
  destruct (recordAttempt_cases s a)
    as [(i & d & j & ae & Hi & Hd & Hj & Hip & Heq)
       | [(i & d & Hi & Hd & Hnew & Heq) | (Hnew & Heq)]];
    rewrite Heq in Hnd', Hu' |- *.
  - pose proof (lookup_lt_Some _ _ _ Hi) as Hlt.
    pose proof (lookup_lt_Some _ _ _ Hj) as Hjlt.
    pose proof (proj1 (Forall_lookup _ _) Hu i d Hi) as Hdu. simpl in Hdu.
    rewrite <- Hd, <- Hip in Hcount.
    rewrite (entriesFor_bucket s i d _ Hnd Hi), (entriesInBucket_at d j ae Hdu Hj) in Hcount.
    apply countsOf_one in Hcount as [Hn0 Hc].
    set (d' := withEntries d (<[j := addUser ae (attemptUser a)]> (Entries d))) in *.
    assert (Hi' : <[i := d']> s !! i = Some d') by (apply list_lookup_insert_eq; exact Hlt).
    pose proof (proj1 (Forall_lookup _ _) Hu' i d' Hi') as Hdu'. simpl in Hdu'.
    assert (Hj' : Entries d' !! j = Some (addUser ae (attemptUser a)))
      by (simpl; apply list_lookup_insert_eq; exact Hjlt).
    replace (attemptDate a) with (Date d') by (simpl; exact Hd).
    replace (attemptIP a) with (IP (addUser ae (attemptUser a)))
      by (rewrite addUser_IP; exact Hip).
    rewrite (entriesFor_bucket _ i d' _ Hnd' Hi'), (entriesInBucket_at d' j _ Hdu' Hj').
    simpl. rewrite addUser_Count, incr_below_max by (rewrite min_int_value; lia).
    f_equal. lia.
  - pose proof (lookup_lt_Some _ _ _ Hi) as Hlt.
    rewrite <- Hd in Hcount |- *.
    rewrite (entriesFor_bucket s i d _ Hnd Hi), (entriesInBucket_absent d _ Hnew) in Hcount.
    symmetry in Hcount. apply countsOf_nil in Hcount. subst n.
    erewrite (entriesFor_bucket _ i (withEntries d _) _ Hnd')
      by (apply list_lookup_insert_eq; exact Hlt).
    unfold entriesInBucket. simpl. rewrite List.filter_app. simpl.
    rewrite String.eqb_refl. fold (entriesInBucket d (attemptIP a)).
    rewrite (entriesInBucket_absent d _ Hnew). reflexivity.
  - rewrite (entriesFor_absent_date s _ _ Hnew) in Hcount.
    symmetry in Hcount. apply countsOf_nil in Hcount. subst n.
    rewrite entriesFor_app, (entriesFor_absent_date s _ _ Hnew), entriesFor_one. simpl.
    unfold entriesInBucket. simpl. rewrite !String.eqb_refl. reflexivity.
Qed.

(** After any log, the store has for each date and IP as many entries as
    [countsOf] says: none without an attempt line, one otherwise, whose
    count is the number of the attempt lines. *)
Lemma parse_key_counts file :
  Z.of_nat (length file) <= GoInt.max_int ->
  forall date ip,
    map Count (entriesFor (parseSSHAttempts file) date ip)
    = countsOf (attemptsFor file date ip).
Proof.
  induction file as [|line pre IH] using rev_ind; intros Hlen date ip; [reflexivity|].
  rewrite length_app in Hlen. simpl in Hlen.
  rewrite parseSSHAttempts_snoc, attemptsFor_snoc.
  unfold parseLine, isAttemptFor. destruct (matchLine line) as [a|].
  - destruct (String.eqb (attemptDate a) date && String.eqb (attemptIP a) ip) eqn:Hkey.
    + apply andb_true_iff in Hkey as [Hd Hi].
      apply String.eqb_eq in Hd. apply String.eqb_eq in Hi. subst date ip.
      rewrite Nat.add_1_r.
      apply recordAttempt_same_key;
        [apply parse_dates_unique | apply parse_uniqueIPs | | apply IH; lia].
      pose proof (attemptsFor_le pre (attemptDate a) (attemptIP a)). lia.
    + rewrite Nat.add_0_r, recordAttempt_other_key;
        [apply IH; lia | apply parse_dates_unique | exact Hkey].
  - rewrite Nat.add_0_r. apply IH. lia.
Qed.

(** C1: at every point of the parse pass (after any prefix [pre] of the
    log, the whole log included) no bucket of the store has two entries
    with the same IP and no two buckets have the same date; for every
    date and IP the store has no entry when no attempt line for them was
    read, and otherwise exactly one entry, whose count is the number of
    those lines.  A recognized attempt line that comes next raises the
    count of exactly one entry, the one of its date and IP, by exactly one
    (creating it with count [1] when it is new, and only then) and leaves
    every other count as it was; an unrecognized line changes nothing.
    The log has at most [max_int] lines, so that no count wraps around. *)
Theorem parse_counts_once_and_keeps_IPs_unique (file : list string) :
  Z.of_nat (length file) <= GoInt.max_int ->
  forall pre post,
    file = pre ++ post ->
    uniqueIPs (parseSSHAttempts pre) /\
    NoDup (map Date (parseSSHAttempts pre)) /\
    (forall date ip,
       map Count (entriesFor (parseSSHAttempts pre) date ip)
       = countsOf (attemptsFor pre date ip)) /\
    (forall line rest a,
       post = line :: rest ->
       matchLine line = Some a ->
       incrementsOne (attemptDate a) (attemptIP a)
         (parseSSHAttempts pre) (parseSSHAttempts (pre ++ [line])) /\
       map Count (entriesFor (parseSSHAttempts (pre ++ [line]))
                    (attemptDate a) (attemptIP a))
       = [Z.of_nat (attemptsFor pre (attemptDate a) (attemptIP a)) + 1] /\
       (forall date ip,
          (date, ip) <> (attemptDate a, attemptIP a) ->
          entriesFor (parseSSHAttempts (pre ++ [line])) date ip
          = entriesFor (parseSSHAttempts pre) date ip)) /\
    (forall line rest,
       post = line :: rest ->
       matchLine line = None ->
       parseSSHAttempts (pre ++ [line]) = parseSSHAttempts pre).
Proof.
  intros Hlen pre post Hfile.
  assert (Hpre : Z.of_nat (length pre) <= GoInt.max_int).
  { subst file. rewrite length_app in Hlen. lia. }
  split; [apply parse_uniqueIPs|]. split; [apply parse_dates_unique|].
  split; [apply parse_key_counts; exact Hpre|]. split.
  - intros line rest a Hpost Hm.
    assert (Hlt : Z.of_nat (length pre) < GoInt.max_int).
    { subst file post. rewrite length_app in Hlen. simpl in Hlen. lia. }
    rewrite parseSSHAttempts_snoc. unfold parseLine. rewrite Hm.
    split; [|split].
    + apply (recordAttempt_incrementsOne (Z.of_nat (length pre))); [lia|].
      apply parse_bounded. lia.
    + rewrite (recordAttempt_same_key _ a (attemptsFor pre (attemptDate a) (attemptIP a)));
        [simpl; f_equal; lia | apply parse_dates_unique | apply parse_uniqueIPs | |
         apply parse_key_counts; exact Hpre].
      pose proof (attemptsFor_le pre (attemptDate a) (attemptIP a)). lia.
    + intros date ip Hne. apply recordAttempt_other_key; [apply parse_dates_unique|].
      apply andb_false_iff.
      destruct (String.eqb_spec (attemptDate a) date) as [Hd|Hd]; [|left; reflexivity].
      destruct (String.eqb_spec (attemptIP a) ip) as [Hi|Hi]; [|right; reflexivity].
      exfalso. apply Hne. subst. reflexivity.
  - intros line rest Hpost Hm.
    rewrite parseSSHAttempts_snoc. unfold parseLine. rewrite Hm. reflexivity.
Qed.

End KeyCounts.

Lemma parse_counts_once_and_keeps_IPs_unique_witness :
  Z.of_nat (length Demo.authLog) <= GoInt.max_int /\
  uniqueIPs (@parseSSHAttempts Demo.world [Demo.line1; Demo.noise]) /\
  NoDup (map Date (@parseSSHAttempts Demo.world [Demo.line1; Demo.noise])) /\
  map Count (entriesFor (@parseSSHAttempts Demo.world [Demo.line1; Demo.noise])
               "Jan 1" "10.0.0.1") = [1] /\
  incrementsOne "Jan 1" "10.0.0.1"
    (@parseSSHAttempts Demo.world [Demo.line1; Demo.noise])
    (@parseSSHAttempts Demo.world ([Demo.line1; Demo.noise] ++ [Demo.line2])) /\
  map Count (entriesFor (@parseSSHAttempts Demo.world
                           ([Demo.line1; Demo.noise] ++ [Demo.line2]))
               "Jan 1" "10.0.0.1") = [2] /\
  @parseSSHAttempts Demo.world ([Demo.line1] ++ [Demo.noise])
  = @parseSSHAttempts Demo.world [Demo.line1].
Proof.
  assert (Hlen : Z.of_nat (length Demo.authLog) <= GoInt.max_int)
    by (vm_compute; discriminate).
  split; [exact Hlen|].
  destruct (@parse_counts_once_and_keeps_IPs_unique Demo.world Demo.authLog Hlen
              [Demo.line1; Demo.noise] [Demo.line2; Demo.line3] eq_refl)
    as (Hu & Hd & Hcount & Hinc & _).
  destruct (@parse_counts_once_and_keeps_IPs_unique Demo.world Demo.authLog Hlen
              [Demo.line1] [Demo.noise; Demo.line2; Demo.line3] eq_refl)
    as (_ & _ & _ & _ & Hskip).
  destruct (Hinc Demo.line2 [Demo.line3] (mkAttempt "Jan 1" "10.0.0.1" "root")
              eq_refl eq_refl) as (Hone & Hraised & _).
  split; [exact Hu|]. split; [exact Hd|].
  split; [rewrite (Hcount "Jan 1" "10.0.0.1"); reflexivity|].
  split; [exact Hone|].
  split; [etransitivity; [exact Hraised | reflexivity]|].
  exact (Hskip Demo.noise [Demo.line2; Demo.line3] eq_refl eq_refl).
Defined.

(** ** [main] with a date filter *)

Section DateStep.

Context {E : Env}.
Variable fl : flags.

Lemma selected_by_date attempts day :
  date fl <> "" ->
  applyDateFilter fl attempts = Some [day] ->
  selectedStore fl attempts = Some [day].
Proof.
  intros Hdate Hday. unfold selectedStore.
  apply nonEmpty_true in Hdate. rewrite Hdate. exact Hday.
Qed.

(** [main] on a store of one selected bucket, however it ends. *)
Lemma main_on_one_bucket file day st :
  openFile (filename fl) = inl file ->
  selectedStore fl (parseSSHAttempts file) = Some [day] ->
  map Date (heap (snd (main fl st))) = [Date day] /\
  requestedIPs (trace (snd (main fl st)))
  = requestedIPs (trace st) ++ map IP (survivors fl (Entries day)).
Proof.
  intros Hopen Hsel.
  assert (Hall : allSurvivors fl [day] = survivors fl (Entries day))
    by (unfold allSurvivors; simpl; apply app_nil_r).
  destruct (preludeTrace_silent fl file) as [Hquiet _].
  destruct (nonEmpty (locale fl)) eqn:Hon;
    [destruct (regexpCompile (locale fl)) as [rx|err] eqn:Hrx|].
  - rewrite (main_run fl file [day] st Hopen Hsel) by (right; exists rx; exact Hrx).
    cbn [snd heap trace]. split; [reflexivity|].
    rewrite !requestedIPs_app, requestedIPs_filterTrace, requestedIPs_outputTrace.
    rewrite Hquiet, Hall, app_nil_r. reflexivity.
  - destruct (survivors fl (Entries day)) as [|ae sv] eqn:Hsv.
    + rewrite (main_emptied fl file [day] err st Hopen Hsel Hon Hrx) by exact Hall.
      cbn [snd heap trace]. split; [reflexivity|].
      rewrite !requestedIPs_app, requestedIPs_outputTrace, Hquiet, !app_nil_r.
      reflexivity.
    + rewrite (main_panic fl file [day] err st Hopen Hsel Hon Hrx)
        by (rewrite Hall; discriminate).
      cbn [snd heap trace]. split.
      * simpl. rewrite Hsv. reflexivity.
      * rewrite !requestedIPs_app, Hquiet, requestedIPs_lookupTrace.
        simpl. rewrite Hsv. reflexivity.
  - rewrite (main_run fl file [day] st Hopen Hsel) by (left; exact Hon).
    cbn [snd heap trace]. split; [reflexivity|].
    rewrite !requestedIPs_app, requestedIPs_filterTrace, requestedIPs_outputTrace.
    rewrite Hquiet, Hall, app_nil_r. reflexivity.
Qed.

(** C2: the date step keeps one bucket, the first whose [Date] is equal,
    as a string, to the filter (the only one when dates are unique, as
    they are in a parsed store), and yields [nil] when no bucket has that
    date.  With a date filter, [main] goes on with that one bucket only:
    however the run ends, the store it leaves has that bucket alone and
    the lookups it made are those of the surviving entries of that
    bucket, and when the run returns the output is the rendering of that
    filtered bucket.  When no bucket has the date, [main] logs that
    nothing was found and returns: nothing is filtered, no lookup is
    made, no pattern compiled, nothing printed. *)
Theorem date_filter_keeps_match_or_stops (st : state) :
  (forall dae r,
     applyDateFilter fl dae = Some r ->
     exists pre day post,
       dae = pre ++ day :: post /\ r = [day] /\ Date day = date fl /\
       forall d, d ∈ pre -> Date d <> date fl) /\
  (forall dae day,
     NoDup (map Date dae) -> day ∈ dae -> Date day = date fl ->
     applyDateFilter fl dae = Some [day]) /\
  (forall dae,
     (forall day, day ∈ dae -> Date day <> date fl) -> applyDateFilter fl dae = None) /\
  (forall file,
     openFile (filename fl) = inl file ->
     date fl <> "" ->
     (forall day, day ∈ parseSSHAttempts file -> Date day <> date fl) ->
     exists st',
       main fl st = (Returned tt, st') /\
       trace st'
       = trace st ++ preludeTrace fl file
         ++ [LogPrintf "found no date matching supplied filter; exiting" []] /\
       heap st' = heap st /\
       requests st' = requests st /\
       compiles st' = compiles st /\
       requestedIPs (trace st') = requestedIPs (trace st) /\
       stdoutOf (trace st') = stdoutOf (trace st)) /\
  (forall file day,
     openFile (filename fl) = inl file ->
     date fl <> "" ->
     day ∈ parseSSHAttempts file ->
     Date day = date fl ->
     applyDateFilter fl (parseSSHAttempts file) = Some [day] /\
     map Date (heap (snd (main fl st))) = [date fl] /\
     requestedIPs (trace (snd (main fl st)))
     = requestedIPs (trace st) ++ map IP (survivors fl (Entries day)) /\
     (patternUsable fl ->
      fst (main fl st) = Returned tt /\
      heap (snd (main fl st)) = filteredStore fl (requests st) [day] /\
      stdoutOf (trace (snd (main fl st)))
      = stdoutOf (trace st)
        ++ (if jsonOut fl
            then [String.append (marshalIndent (filteredStore fl (requests st) [day])) nl]
            else stdoutOf (printOutput fl (filteredStore fl (requests st) [day]))))).
Proof.
  split; [exact (applyDateFilter_Some fl)|].
  split; [exact (applyDateFilter_unique fl)|].
  split; [exact (applyDateFilter_None fl)|].
  split.
  - intros file Hopen Hdate Hnone.
    assert (Hne : nonEmpty (date fl) = true) by (apply nonEmpty_true; exact Hdate).
    eexists. split.
    + apply main_stops_without_date; [exact Hopen | exact Hne |].
      apply applyDateFilter_None. exact Hnone.
    + destruct (preludeTrace_silent fl file) as [Hreq Hout]. simpl.
      split; [reflexivity|]. split; [reflexivity|].
      split; [reflexivity|]. split; [reflexivity|].
      unfold requestedIPs, stdoutOf in *.
      rewrite !omap_app, Hreq, Hout. simpl. rewrite !app_nil_r. split; reflexivity.
  - intros file day Hopen Hdate Hin Hday.
    assert (Hfound : applyDateFilter fl (parseSSHAttempts file) = Some [day])
      by (apply applyDateFilter_unique; [apply parse_dates_unique | exact Hin | exact Hday]).
    pose proof (selected_by_date _ _ Hdate Hfound) as Hsel.
    destruct (main_on_one_bucket file day st Hopen Hsel) as [Hheap Hreq].
    split; [exact Hfound|]. split; [rewrite Hheap, Hday; reflexivity|].
    split; [exact Hreq|].
    intros Hp. rewrite (main_run fl file [day] st Hopen Hsel Hp). cbn [fst snd heap trace].
    split; [reflexivity|]. split; [reflexivity|].
    rewrite !stdoutOf_app, stdoutOf_filterTrace, stdoutOf_outputTrace.
    rewrite (proj2 (preludeTrace_silent fl file)). reflexivity.
Qed.

End DateStep.

Lemma date_filter_keeps_match_or_stops_witness :
  let jan2 := {| Date := "Jan 2";
                 Entries := [ {| IP := "10.0.0.2"; Location := zeroLocation; Count := 1;
                                 Users := ["admin"] |} ] |} in
  Demo.onFeb30.(date) <> "" /\
  (exists st',
     @main Demo.world Demo.onFeb30 initialState = (Returned tt, st') /\
     requests st' = 0%nat /\ compiles st' = 0%nat /\ stdoutOf (trace st') = []) /\
  Demo.onJan2.(date) <> "" /\
  jan2 ∈ @parseSSHAttempts Demo.world Demo.authLog /\
  applyDateFilter Demo.onJan2 (@parseSSHAttempts Demo.world Demo.authLog) = Some [jan2] /\
  map Date (heap (snd (@main Demo.world Demo.onJan2 initialState))) = ["Jan 2"] /\
  requestedIPs (trace (snd (@main Demo.world Demo.onJan2 initialState))) = ["10.0.0.2"] /\
  fst (@main Demo.world Demo.onJan2 initialState) = Returned tt.
Proof.
  intros jan2.
  assert (Hfeb : Demo.onFeb30.(date) <> "") by discriminate.
  assert (Hjan : Demo.onJan2.(date) <> "") by discriminate.
  assert (Hin : jan2 ∈ @parseSSHAttempts Demo.world Demo.authLog).
  { change (jan2 ∈ Demo.store). apply list_elem_of_further, list_elem_of_here. }
  split; [exact Hfeb|]. split.
  - destruct (@date_filter_keeps_match_or_stops Demo.world Demo.onFeb30 initialState)
      as (_ & _ & _ & Hstop & _).
    destruct (Hstop Demo.authLog eq_refl Hfeb) as (st' & Hm & _ & _ & Hr & Hc & _ & Hs).
    { intros day Hday. change (day ∈ Demo.store) in Hday.
      apply elem_of_cons in Hday as [->|Hday]; [discriminate|].
      apply elem_of_cons in Hday as [->|Hday]; [discriminate|].
      inversion Hday. }
    exists st'. split; [exact Hm|]. split; [exact Hr|]. split; [exact Hc | exact Hs].
  - destruct (@date_filter_keeps_match_or_stops Demo.world Demo.onJan2 initialState)
      as (_ & _ & _ & _ & Hgo).
    destruct (Hgo Demo.authLog jan2 eq_refl Hjan Hin eq_refl)
      as (Hfound & Hdates & Hreq & Hret).
    split; [exact Hjan|]. split; [exact Hin|]. split; [exact Hfound|].
    split; [exact Hdates|]. split; [exact Hreq|].
    apply Hret. left. reflexivity.
Defined.
